(** * Kalavara: the email-to-transaction pipeline

    A shallow embedding of the parsing, fallback, categorization and sync
    code of the repository, with the sender table and the stored
    credential, followed by the properties proved about it.

    Conventions of the embedding:
    - a JavaScript string is the list of its UTF-16 code units ([jsstring]);
    - a JavaScript number is an IEEE 754 binary64 value ([number], the
      standard library's [spec_float] at precision 53, emax 1024);
    - a regular expression literal is a term of [regex], run by a
      backtracking matcher that follows the ECMAScript matching order;
    - [Map<string, V>] is [gmap jsstring V];
    - external collaborators (the completion oracle, html-to-text, date-fns,
      the clock, the persistent store's faults) are explicit parameters. *)

From Stdlib Require Import ZArith NArith List String Ascii Lia Bool.
From Stdlib Require Import Floats.SpecFloat.
From stdpp Require Import base option list gmap sets.

Local Open Scope Z_scope.

(* ===================================================================== *)
(** ** JavaScript strings *)
(* ===================================================================== *)

Definition char := N.
Abbreviation jsstring := (list N).

(** An ASCII literal as a JavaScript string. *)
Fixpoint lit (s : string) : jsstring :=
  match s with
  | EmptyString => []
  | String a s' => N_of_ascii a :: lit s'
  end.

Definition chr (s : string) : N :=
  match s with
  | String a _ => N_of_ascii a
  | EmptyString => 0%N
  end.

Definition in_range (lo hi c : N) : bool := (lo <=? c)%N && (c <=? hi)%N.

Definition is_digit (c : N) : bool := in_range 48 57 c.
Definition is_upper (c : N) : bool := in_range 65 90 c.
Definition is_lower (c : N) : bool := in_range 97 122 c.
Definition is_alpha (c : N) : bool := is_upper c || is_lower c.

(** [\w] *)
Definition is_word (c : N) : bool := is_alpha c || is_digit c || (c =? 95)%N.

(** [\s], also the set stripped by [String.prototype.trim]: WhiteSpace and
    LineTerminator code units. *)
Definition is_space (c : N) : bool :=
  in_range 9 13 c || (c =? 32)%N || (c =? 160)%N || (c =? 5760)%N
  || in_range 8192 8202 c || (c =? 8232)%N || (c =? 8233)%N
  || (c =? 8239)%N || (c =? 8287)%N || (c =? 12288)%N || (c =? 65279)%N.

Definition ascii_upper (c : N) : N := if is_lower c then (c - 32)%N else c.
Definition ascii_lower (c : N) : N := if is_upper c then (c + 32)%N else c.

(** [String.prototype.toLowerCase].  ASCII letters are folded; the two
    non-ASCII code units whose lower case contains an ASCII letter (KELVIN
    SIGN and LATIN CAPITAL LETTER I WITH DOT ABOVE) are mapped as Unicode
    prescribes; every other code unit maps to non-ASCII code units, which no
    keyword of this program contains, and is left in place. *)
Definition lower_unit (c : N) : jsstring :=
  if (c =? 8490)%N then [107%N]
  else if (c =? 304)%N then [105%N; 775%N]
  else [ascii_lower c].

Definition toLowerCase (s : jsstring) : jsstring := concat (map lower_unit s).

Fixpoint starts_with (p s : jsstring) : bool :=
  match p, s with
  | [], _ => true
  | a :: p', b :: s' => (a =? b)%N && starts_with p' s'
  | _ :: _, [] => false
  end.

(** [s.includes(p)] *)
Fixpoint includes (s p : jsstring) : bool :=
  starts_with p s ||
  match s with
  | [] => false
  | _ :: s' => includes s' p
  end.

Fixpoint trim_start (s : jsstring) : jsstring :=
  match s with
  | c :: s' => if is_space c then trim_start s' else s
  | [] => []
  end.

Definition trim (s : jsstring) : jsstring :=
  rev (trim_start (rev (trim_start s))).

(** [s.substring(0, n)] *)
Definition substring0 (n : nat) (s : jsstring) : jsstring := take n s.

(** [s.split(sep)] for a one-unit separator. *)
Fixpoint split_on (sep : N) (cur : jsstring) (s : jsstring) : list jsstring :=
  match s with
  | [] => [rev cur]
  | c :: s' =>
      if (c =? sep)%N then rev cur :: split_on sep [] s'
      else split_on sep (c :: cur) s'
  end.

Definition split (sep : N) (s : jsstring) : list jsstring := split_on sep [] s.

Definition str_eqb (a b : jsstring) : bool := bool_decide (a = b).

(** Truthiness of a string: non-empty. *)
Definition str_truthy (s : jsstring) : bool :=
  match s with [] => false | _ => true end.

(** Truthiness of [string | undefined]. *)
Definition ostr_truthy (s : option jsstring) : bool :=
  match s with Some t => str_truthy t | None => false end.

(* ===================================================================== *)
(** ** JavaScript numbers *)
(* ===================================================================== *)

Abbreviation number := spec_float.

Definition prec : Z := 53.
Definition emax : Z := 1024.

Definition num_add : number -> number -> number := SFadd prec emax.
Definition num_mul : number -> number -> number := SFmul prec emax.
Definition num_div : number -> number -> number := SFdiv prec emax.

(** [a < b], [a <= b], [a > b], [a >= b]; every comparison with NaN is
    false. *)
Definition num_lt (a b : number) : bool := SFltb a b.
Definition num_le (a b : number) : bool := SFleb a b.
Definition num_gt (a b : number) : bool := SFltb b a.
Definition num_ge (a b : number) : bool := SFleb b a.

(** The number nearest to an integer. *)
Definition num_of_Z (z : Z) : number := binary_normalize prec emax z 0 false.

Definition num_zero : number := S754_zero false.

(** The number nearest to [m / 10^k]: the quotient of the two integers,
    rounded once. *)
Definition num_ratio (m : Z) (d : positive) : number :=
  match m with
  | Z0 => S754_zero false
  | Zpos p => SFdiv prec emax (S754_finite false p 0) (S754_finite false d 0)
  | Zneg p => SFdiv prec emax (S754_finite true p 0) (S754_finite false d 0)
  end.

Definition decimal (m : Z) (k : nat) : number :=
  num_ratio m (Pos.pow 10 (Pos.of_nat k)).

(** Number literals of the source. *)
Definition n0_05 : number := decimal 5 2.
Definition n0_1 : number := decimal 1 1.
Definition n0_15 : number := decimal 15 2.
Definition n0_2 : number := decimal 2 1.
Definition n0_3 : number := decimal 3 1.
Definition n0_4 : number := decimal 4 1.
Definition n0_5 : number := decimal 5 1.
Definition n0_7 : number := decimal 7 1.
Definition n1 : number := num_of_Z 1.
Definition n100 : number := num_of_Z 100.

(** Truthiness of a number: neither zero nor NaN. *)
Definition num_truthy (x : number) : bool :=
  match x with
  | S754_zero _ | S754_nan => false
  | _ => true
  end.

Definition is_nan (x : number) : bool :=
  match x with S754_nan => true | _ => false end.

(** [Math.min(a, b)]: NaN if either is NaN, and -0 below +0. *)
Definition Math_min (a b : number) : number :=
  match a, b with
  | S754_nan, _ | _, S754_nan => S754_nan
  | S754_zero sa, S754_zero sb => S754_zero (sa || sb)
  | _, _ => if SFleb a b then a else b
  end.

(** [Math.round(x)]: the integer nearest to [x], ties towards +infinity;
    a result of magnitude zero keeps the sign of [x]. *)
Definition Math_round (x : number) : number :=
  match x with
  | S754_finite s m e =>
      if 0 <=? e then x
      else
        let v2 := if s then Z.neg m~0 else Z.pos m~0 in
        let n := Z.shiftr (v2 + Z.pow 2 (- e)) (1 - e) in
        match n with
        | Z0 => S754_zero s
        | _ => num_of_Z n
        end
  | _ => x
  end.

(** The integer value of a number that holds one. *)
Definition num_to_Z (x : number) : option Z :=
  match x with
  | S754_zero _ => Some 0
  | S754_finite s m e =>
      if 0 <=? e then Some ((if s then Z.neg m else Z.pos m) * 2 ^ e)
      else if (Z.pos m mod 2 ^ (- e) =? 0)
           then Some ((if s then Z.neg m else Z.pos m) / 2 ^ (- e))
           else None
  | _ => None
  end.

(** *** parseFloat *)

Fixpoint take_digits (s : jsstring) : jsstring * jsstring :=
  match s with
  | c :: s' =>
      if is_digit c then let '(d, r) := take_digits s' in (c :: d, r)
      else ([], s)
  | [] => ([], [])
  end.

Definition digit_val (c : N) : Z := Z.of_N c - 48.

Definition digits_val (ds : jsstring) : Z :=
  fold_left (fun acc c => 10 * acc + digit_val c) ds 0.

(** The exponent part [e[+-]ddd] of a decimal literal, when well formed. *)
Definition take_exponent (s : jsstring) : Z :=
  match s with
  | c :: s' =>
      if (c =? 101)%N || (c =? 69)%N then
        match s' with
        | sg :: s'' =>
            if (sg =? 45)%N then
              let '(d, _) := take_digits s'' in
              match d with [] => 0 | _ => - digits_val d end
            else if (sg =? 43)%N then
              let '(d, _) := take_digits s'' in digits_val d
            else let '(d, _) := take_digits s' in digits_val d
        | [] => 0
        end
      else 0
  | [] => 0
  end.

(** The value [m * 10^e], rounded once. *)
Definition num_of_decimal (neg : bool) (m : Z) (e : Z) : number :=
  match m with
  | Z0 => S754_zero neg
  | _ =>
      let sm := if neg then - m else m in
      if 0 <=? e then
        binary_normalize prec emax (sm * 10 ^ e) 0 neg
      else num_ratio sm (Pos.pow 10 (Z.to_pos (- e)))
  end.

(** The number read after the optional sign: [Infinity], or the longest
    decimal literal, NaN if there is none. *)
Definition parse_unsigned (neg : bool) (s1 : jsstring) : number :=
  if starts_with (lit "Infinity") s1 then S754_infinity neg
  else
    let '(ip, r1) := take_digits s1 in
    let '(fp, r2) :=
      match r1 with
      | c :: r => if (c =? 46)%N then take_digits r else ([], r1)
      | [] => ([], r1)
      end in
    match ip, fp with
    | [], [] => S754_nan
    | _, _ =>
        let e := take_exponent r2 in
        num_of_decimal neg (digits_val (ip ++ fp)) (e - Z.of_nat (length fp))
    end.

(** [parseFloat(s)]: skips leading white space, reads an optional sign and
    the longest prefix that is a decimal literal ([Infinity] included). *)
Definition parseFloat (s : jsstring) : number :=
  let s0 := trim_start s in
  match s0 with
  | c :: r =>
      if (c =? 45)%N then parse_unsigned true r
      else if (c =? 43)%N then parse_unsigned false r
      else parse_unsigned false s0
  | [] => parse_unsigned false s0
  end.

(* ===================================================================== *)
(** ** Regular expressions *)
(* ===================================================================== *)

(** The syntax of the regular expression literals of the source.  A
    character class is the predicate it denotes; [Rep greedy lo hi r] is
    [r{lo,hi}] ([hi = None] for no upper bound), lazy when [greedy] is
    false; [Grp i r] is the [i]-th capturing group. *)
Inductive regex : Type :=
| Eps
| Chr (p : N -> bool)
| Seq (a b : regex)
| Alt (a b : regex)
| Rep (greedy : bool) (lo : nat) (hi : option nat) (a : regex)
| Grp (i : nat) (a : regex)
| Bol
| Eol
| WordB.

(** A position in the subject: the unit before it (for [^] and [\b]) and
    the units from it on. *)
Record pos := mkpos { prev : option N; rest : jsstring }.

Definition caps := nat -> option jsstring.

Definition no_caps : caps := fun _ => None.

Definition set_cap (i : nat) (s : jsstring) (c : caps) : caps :=
  fun j => if Nat.eqb j i then Some s else c j.

Definition clear_caps (gs : list nat) (c : caps) : caps :=
  fun j => if existsb (Nat.eqb j) gs then None else c j.

Fixpoint groups_of (r : regex) : list nat :=
  match r with
  | Seq a b | Alt a b => groups_of a ++ groups_of b
  | Rep _ _ _ a => groups_of a
  | Grp i a => i :: groups_of a
  | _ => []
  end.

(** The units between two positions of the same subject. *)
Definition consumed (st st' : pos) : jsstring :=
  take (length (rest st) - length (rest st')) (rest st).

Definition cont := pos -> caps -> option (pos * caps).

Definition or_else {A} (x : option A) (y : option A) : option A :=
  match x with Some _ => x | None => y end.

Definition at_word_boundary (st : pos) : bool :=
  let a := match prev st with Some c => is_word c | None => false end in
  let b := match rest st with c :: _ => is_word c | [] => false end in
  xorb a b.

(** ECMAScript's RepeatMatcher: mandatory iterations first; then, greedy,
    one more iteration before the continuation, or, lazy, the continuation
    before one more iteration.  An optional iteration that consumes nothing
    fails.  [fuel] bounds the iterations; [lo] plus the number of remaining
    units plus one is always enough. *)
Fixpoint rep_loop (step : pos -> caps -> cont -> option (pos * caps))
    (gs : list nat) (greedy : bool) (fuel lo : nat) (hi : option nat)
    (st : pos) (c : caps) (k : cont) : option (pos * caps) :=
  match fuel with
  | O => None
  | S fuel' =>
      let iterate :=
        match hi with
        | Some O => None
        | _ =>
            step st (clear_caps gs c) (fun st' c' =>
              if Nat.eqb lo 0 && Nat.eqb (length (rest st')) (length (rest st))
              then None
              else rep_loop step gs greedy fuel' (Nat.pred lo)
                     (option_map Nat.pred hi) st' c' k)
        end in
      if Nat.ltb 0 lo then iterate
      else if greedy then or_else iterate (k st c)
      else or_else (k st c) iterate
  end.

(** The backtracking matcher, in continuation-passing style as in the
    ECMAScript specification. *)
Fixpoint rmatch (r : regex) (st : pos) (c : caps) (k : cont)
    {struct r} : option (pos * caps) :=
  match r with
  | Eps => k st c
  | Chr p =>
      match rest st with
      | x :: t => if p x then k (mkpos (Some x) t) c else None
      | [] => None
      end
  | Seq a b => rmatch a st c (fun st' c' => rmatch b st' c' k)
  | Alt a b => or_else (rmatch a st c k) (rmatch b st c k)
  | Rep g lo hi a =>
      rep_loop (rmatch a) (groups_of a) g (lo + length (rest st) + 1) lo hi st c k
  | Grp i a =>
      rmatch a st c (fun st' c' => k st' (set_cap i (consumed st st') c'))
  | Bol => match prev st with None => k st c | Some _ => None end
  | Eol => match rest st with [] => k st c | _ :: _ => None end
  | WordB => if at_word_boundary st then k st c else None
  end.

(** The result of [RegExp.prototype.exec]: index, whole match, captures. *)
Record MatchResult := mkMatch {
  m_index : nat;
  m_full : jsstring;
  m_caps : caps;
}.

(** A mandatory group of a successful match. *)
Definition grp (m : MatchResult) (i : nat) : jsstring :=
  default [] (m_caps m i).

Definition match_here (r : regex) (st : pos) : option (pos * caps) :=
  rmatch r st no_caps (fun st' c' => Some (st', c')).

(** The leftmost match at or after a position. *)
Fixpoint search_from (r : regex) (idx : nat) (pv : option N) (s : jsstring)
    : option MatchResult :=
  match match_here r (mkpos pv s) with
  | Some (st', c') => Some (mkMatch idx (consumed (mkpos pv s) st') c')
  | None =>
      match s with
      | [] => None
      | x :: t => search_from r (S idx) (Some x) t
      end
  end.

(** [s.match(r)] for a regular expression without the [g] flag. *)
Definition exec (r : regex) (s : jsstring) : option MatchResult :=
  search_from r 0 None s.

(** [r.test(s)] *)
Definition test (r : regex) (s : jsstring) : bool :=
  match exec r s with Some _ => true | None => false end.

(** [s.replace(r, by)] without the [g] flag: the first match only. *)
Definition replace_first (r : regex) (by_ : jsstring) (s : jsstring) : jsstring :=
  match exec r s with
  | Some m =>
      take (m_index m) s ++ by_ ++ drop (m_index m + length (m_full m)) s
  | None => s
  end.

(** [s.replace(r, by)] with the [g] flag: every match, left to right; after
    an empty match the search resumes one unit further. *)
Fixpoint replace_loop (r : regex) (by_ : jsstring) (fuel : nat)
    (pv : option N) (s : jsstring) : jsstring :=
  match fuel with
  | O => s
  | S fuel' =>
      match search_from r 0 pv s with
      | None => s
      | Some m =>
          let before := take (m_index m) s in
          let after := drop (m_index m + length (m_full m)) s in
          match m_full m with
          | [] =>
              match drop (m_index m) s with
              | [] => before ++ by_
              | x :: t => before ++ by_ ++ x :: replace_loop r by_ fuel' (Some x) t
              end
          | _ :: _ =>
              before ++ by_ ++
              replace_loop r by_ fuel' (last (before ++ m_full m)) after
          end
      end
  end.

Definition replace_all (r : regex) (by_ : jsstring) (s : jsstring) : jsstring :=
  replace_loop r by_ (S (length s)) None s.

(** *** Building blocks for transcribing literals *)

Definition is_char (s : string) : N -> bool := fun c => (c =? chr s)%N.
Definition one_of (s : string) : N -> bool :=
  fun c => existsb (N.eqb c) (lit s).
Definition range (a b : string) : N -> bool := in_range (chr a) (chr b).
Definition cunion (p q : N -> bool) : N -> bool := fun c => p c || q c.
Definition cneg (p : N -> bool) : N -> bool := fun c => negb (p c).
Definition any_of (ps : list (N -> bool)) : N -> bool :=
  fun c => existsb (fun p => p c) ps.

(** A class under the [i] flag: a unit matches when its canonical form is
    that of a member.  Canonicalization folds ASCII letters and never maps a
    non-ASCII unit to an ASCII one; every class of the source has ASCII
    letters only. *)
Definition ci (p : N -> bool) : N -> bool :=
  fun c => p c || p (ascii_upper c) || p (ascii_lower c).

Definition alnum : N -> bool := cunion is_alpha is_digit.

Fixpoint seq (rs : list regex) : regex :=
  match rs with
  | [] => Eps
  | [r] => r
  | r :: rs' => Seq r (seq rs')
  end.

Fixpoint alt (rs : list regex) : regex :=
  match rs with
  | [] => Eps
  | [r] => r
  | r :: rs' => Alt r (alt rs')
  end.

(** A literal string, case-sensitive or under the [i] flag. *)
Definition str (s : string) : regex :=
  seq (map (fun c => Chr (N.eqb c)) (lit s)).
Definition stri (s : string) : regex :=
  seq (map (fun c => Chr (ci (N.eqb c))) (lit s)).

Definition star (r : regex) : regex := Rep true 0 None r.
Definition plus (r : regex) : regex := Rep true 1 None r.
Definition plus_lazy (r : regex) : regex := Rep false 1 None r.
Definition opt (r : regex) : regex := Rep true 0 (Some 1%nat) r.
Definition times (lo hi : nat) (r : regex) : regex := Rep true lo (Some hi) r.
Definition at_least (lo : nat) (r : regex) : regex := Rep true lo None r.

Definition ws : regex := Chr is_space.
Definition dig : regex := Chr is_digit.

Definition is_nl (c : N) : bool := (c =? 10)%N.
Definition is_nl_cr (c : N) : bool := (c =? 10)%N || (c =? 13)%N.
Definition digit_or_comma : N -> bool := cunion is_digit (is_char ",").

(* ===================================================================== *)
(** ** Types (src/types/index.ts) *)
(* ===================================================================== *)

Inductive TransactionType := DEBIT | CREDIT.

Inductive Bank := HDFC | SIB | ICICI | AXIS | KOTAK | YES | UNKNOWN.

(** A JavaScript [Date]: invalid, or a local calendar date (month 1 to 12)
    with the milliseconds elapsed in its day. *)
Inductive Date :=
| InvalidDate
| ValidDate (y mo d ms : Z).

Record ParsedTransaction := mkTx {
  tx_amount : number;
  tx_type : TransactionType;
  tx_merchant : jsstring;
  tx_date : Date;
  tx_reference : option jsstring;
  tx_bank : Bank;
  tx_confidence : number;
}.

(** [ParserResult], with the [needsLLMFallback] flag the regex pass adds. *)
Record ParserResult := mkResult {
  pr_success : bool;
  pr_transaction : option ParsedTransaction;
  pr_error : option jsstring;
  pr_usedLLM : option bool;
  pr_needsLLMFallback : option bool;
}.

Definition failure (msg : string) : ParserResult :=
  mkResult false None (Some (lit msg)) None None.

Definition succeed (t : ParsedTransaction) : ParserResult :=
  mkResult true (Some t) None None None.

Definition Unknown : jsstring := lit "Unknown".

(* ===================================================================== *)
(** ** The environment *)
(* ===================================================================== *)

(** What the code takes from outside the repository:
    - [env_now], the value of [Date.now()], in milliseconds;
    - [env_htmlToText], the [convert] function of html-to-text with the
      options of [htmlToText];
    - [env_parse s fmt], date-fns' [parse(s, fmt, new Date())];
    - [env_native s], the built-in [new Date(s)]. *)
Record Env := mkEnv {
  env_now : Z;
  env_htmlToText : jsstring -> jsstring;
  env_parse : jsstring -> jsstring -> Date;
  env_native : jsstring -> Date;
}.

(* ===================================================================== *)
(** ** Dates (lib/utils/date.ts) *)
(* ===================================================================== *)

Definition is_leap (y : Z) : bool :=
  (y mod 4 =? 0) && (negb (y mod 100 =? 0) || (y mod 400 =? 0)).

Definition days_in_month (y mo : Z) : Z :=
  if mo =? 2 then (if is_leap y then 29 else 28)
  else if (mo =? 4) || (mo =? 6) || (mo =? 9) || (mo =? 11) then 30
  else 31.

(** Days from 1970-01-01 to a calendar date. *)
Definition days_from_civil (y mo d : Z) : Z :=
  let y' := if mo <=? 2 then y - 1 else y in
  let era := y' / 400 in
  let yoe := y' - era * 400 in
  let doy := (153 * (if 2 <? mo then mo - 3 else mo + 9) + 2) / 5 + d - 1 in
  let doe := yoe * 365 + yoe / 4 - yoe / 100 + doy in
  era * 146097 + doe - 719468.

Definition ms_per_day : Z := 1000 * 60 * 60 * 24.

(** [date.getTime()]: [None] stands for NaN. *)
Definition getTime (dt : Date) : option Z :=
  match dt with
  | InvalidDate => None
  | ValidDate y mo d ms => Some (days_from_civil y mo d * ms_per_day + ms)
  end.

Definition isValid (dt : Date) : bool :=
  match dt with InvalidDate => false | ValidDate _ _ _ _ => true end.

(** [date.getFullYear()] of a valid date. *)
Definition getFullYear (dt : Date) : Z :=
  match dt with InvalidDate => 0 | ValidDate y _ _ _ => y end.

Definition getMonth1 (dt : Date) : Z :=
  match dt with InvalidDate => 0 | ValidDate _ mo _ _ => mo end.

Definition getDate (dt : Date) : Z :=
  match dt with InvalidDate => 0 | ValidDate _ _ d _ => d end.

(** [date.setFullYear(y)]: month and day are kept; 29 February moves to
    1 March when the new year is not a leap year. *)
Definition setFullYear (dt : Date) (y : Z) : Date :=
  match dt with
  | InvalidDate => InvalidDate
  | ValidDate _ mo d ms =>
      if (mo =? 2) && (d =? 29) && negb (is_leap y) then ValidDate y 3 1 ms
      else ValidDate y mo d ms
  end.

Definition DATE_FORMATS : list jsstring :=
  [ lit "dd-MMM-yyyy"; lit "dd-MMM-yy"; lit "dd/MM/yyyy"; lit "dd-MM-yyyy";
    lit "dd/MM/yy"; lit "dd-MM-yy"; lit "yyyy-MM-dd"; lit "MMM dd, yyyy";
    lit "dd MMM yyyy"; lit "dd MMM yy" ].

(** The year fix applied to a date a format has parsed. *)
Definition fix_year (parsed : Date) : Date :=
  let year := getFullYear parsed in
  if year <? 100 then setFullYear parsed (2000 + year)
  else if (1900 <=? year) && (year <? 2000) then setFullYear parsed (year + 100)
  else if year <? 1900 then setFullYear parsed (year + 2000)
  else parsed.

(** The loop of [parseDate] over the formats. *)
Fixpoint parse_formats (env : Env) (cleaned : jsstring) (fmts : list jsstring)
    : option Date :=
  match fmts with
  | [] => None
  | fmt :: fmts' =>
      let parsed := env_parse env cleaned fmt in
      if isValid parsed then Some (fix_year parsed)
      else parse_formats env cleaned fmts'
  end.

Definition parseDate (env : Env) (dateStr : jsstring) : option Date :=
  if negb (str_truthy dateStr) then None
  else
    let cleaned := trim dateStr in
    match parse_formats env cleaned DATE_FORMATS with
    | Some d => Some d
    | None =>
        let nativeDate := env_native env cleaned in
        if isValid nativeDate then Some nativeDate else None
    end.

Definition sep_dash_slash : regex := Chr (one_of "-/").

Definition date_patterns : list regex :=
  [ (* "/(\d{1,2}[-/]\w{3}[-/]\d{2,4})/i" *)
    Grp 1 (seq [times 1 2 dig; sep_dash_slash; times 3 3 (Chr is_word);
                sep_dash_slash; times 2 4 dig]);
    (* "/(\d{1,2}[-/]\d{1,2}[-/]\d{2,4})/" *)
    Grp 1 (seq [times 1 2 dig; sep_dash_slash; times 1 2 dig;
                sep_dash_slash; times 2 4 dig]);
    (* "/(\d{4}[-/]\d{1,2}[-/]\d{1,2})/" *)
    Grp 1 (seq [times 4 4 dig; sep_dash_slash; times 1 2 dig;
                sep_dash_slash; times 1 2 dig]);
    (* "/(\w{3}\s+\d{1,2},?\s+\d{4})/i" *)
    Grp 1 (seq [times 3 3 (Chr is_word); plus ws; times 1 2 dig;
                opt (str ","); plus ws; times 4 4 dig]);
    (* "/(\d{1,2}\s+\w{3}\s+\d{2,4})/i" *)
    Grp 1 (seq [times 1 2 dig; plus ws; times 3 3 (Chr is_word); plus ws;
                times 2 4 dig]) ].

Fixpoint extractDate_loop (env : Env) (text : jsstring) (ps : list regex)
    : option Date :=
  match ps with
  | [] => None
  | pattern :: ps' =>
      match exec pattern text with
      | Some m =>
          match parseDate env (grp m 1) with
          | Some parsed => Some parsed
          | None => extractDate_loop env text ps'
          end
      | None => extractDate_loop env text ps'
      end
  end.

Definition extractDate (env : Env) (text : jsstring) : option Date :=
  extractDate_loop env text date_patterns.

(** *** A model of date-fns' [parse]

    For the tokens of [DATE_FORMATS]: [dd], [MM] and [yy] read one or two
    digits, [yyyy] one to four, [MMM] an abbreviated (else a one-letter)
    English month name; any other character of the format must occur
    literally; nothing but white space may remain.  A two-digit year [yy]
    is placed within fifty years of the reference year; a year [yyyy] is
    taken as written and must be positive.  The day must exist in the
    month. *)

Fixpoint take_upto_digits (n : nat) (s : jsstring) : jsstring * jsstring :=
  match n, s with
  | S n', c :: s' =>
      if is_digit c then let '(d, r) := take_upto_digits n' s' in (c :: d, r)
      else ([], s)
  | _, _ => ([], s)
  end.

Definition starts_with_ci (p s : jsstring) : bool :=
  starts_with p (toLowerCase (take (length p) s)).

Definition month_abbrevs : list jsstring :=
  [ lit "jan"; lit "feb"; lit "mar"; lit "apr"; lit "may"; lit "jun";
    lit "jul"; lit "aug"; lit "sep"; lit "oct"; lit "nov"; lit "dec" ].

(** Patterns that tell which month an abbreviated match denotes. *)
Definition month_parse_any : list jsstring :=
  [ lit "ja"; lit "f"; lit "mar"; lit "ap"; lit "may"; lit "jun";
    lit "jul"; lit "au"; lit "s"; lit "o"; lit "n"; lit "d" ].

Definition month_parse_narrow : list jsstring :=
  [ lit "j"; lit "f"; lit "m"; lit "a"; lit "m"; lit "j";
    lit "j"; lit "a"; lit "s"; lit "o"; lit "n"; lit "d" ].

Fixpoint find_index (f : jsstring -> bool) (l : list jsstring) (i : Z)
    : option Z :=
  match l with
  | [] => None
  | x :: l' => if f x then Some i else find_index f l' (i + 1)
  end.

(** The month (1 to 12) at the head of [s] and what follows it. *)
Definition parse_month_name (s : jsstring) : option (Z * jsstring) :=
  if existsb (fun a => starts_with_ci a s) month_abbrevs then
    let matched := take 3 s in
    option_map (fun i => (i, drop 3 s))
      (find_index (fun p => starts_with_ci p matched) month_parse_any 1)
  else if existsb (fun a => starts_with_ci a s) month_parse_narrow then
    let matched := take 1 s in
    option_map (fun i => (i, drop 1 s))
      (find_index (fun p => starts_with_ci p matched) month_parse_narrow 1)
  else None.

Definition normalizeTwoDigitYear (twoDigitYear currentYear : Z) : Z :=
  let isCommonEra := 0 <? currentYear in
  let absCurrentYear := if isCommonEra then currentYear else 1 - currentYear in
  let result :=
    if absCurrentYear <=? 50 then
      (if twoDigitYear =? 0 then 100 else twoDigitYear)
    else
      let rangeEnd := absCurrentYear + 50 in
      let rangeEndCentury := (rangeEnd / 100) * 100 in
      let isPreviousCentury := rangeEnd mod 100 <=? twoDigitYear in
      twoDigitYear + rangeEndCentury - (if isPreviousCentury then 100 else 0) in
  if isCommonEra then result else 1 - result.

Record DateFields := mkFields {
  f_year : option (Z * bool);
  f_month : option Z;
  f_day : option Z;
}.

(** A run of one letter of the format, and the rest. *)
Fixpoint take_run (c : N) (s : jsstring) : nat * jsstring :=
  match s with
  | x :: s' =>
      if (x =? c)%N then let '(n, r) := take_run c s' in (S n, r)
      else (O, s)
  | [] => (O, [])
  end.

Fixpoint parse_tokens (fuel : nat) (fmt input : jsstring) (acc : DateFields)
    : option (DateFields * jsstring) :=
  match fuel with
  | O => None
  | S fuel' =>
      match fmt with
      | [] => Some (acc, input)
      | c :: fmt' =>
          let '(n, fmt'') := take_run c fmt' in
          if (c =? chr "d")%N then
            match take_upto_digits (S n) input with
            | ([], _) => None
            | (ds, r) =>
                parse_tokens fuel' fmt'' r
                  (mkFields (f_year acc) (f_month acc) (Some (digits_val ds)))
            end
          else if (c =? chr "y")%N then
            match take_upto_digits (S n) input with
            | ([], _) => None
            | (ds, r) =>
                parse_tokens fuel' fmt'' r
                  (mkFields (Some (digits_val ds, Nat.eqb n 1))
                            (f_month acc) (f_day acc))
            end
          else if (c =? chr "M")%N then
            if Nat.leb 2 n then
              match parse_month_name input with
              | Some (mo, r) =>
                  parse_tokens fuel' fmt'' r
                    (mkFields (f_year acc) (Some mo) (f_day acc))
              | None => None
              end
            else
              match take_upto_digits (S n) input with
              | ([], _) => None
              | (ds, r) =>
                  parse_tokens fuel' fmt'' r
                    (mkFields (f_year acc) (Some (digits_val ds)) (f_day acc))
              end
          else
            match input with
            | x :: r => if (x =? c)%N then parse_tokens fuel' fmt' r acc else None
            | [] => None
            end
      end
  end.

Definition datefns_parse (refYear : Z) (s fmt : jsstring) : Date :=
  match parse_tokens (S (length fmt)) fmt s (mkFields None None None) with
  | Some (mkFields (Some (yv, two)) (Some mo) (Some d), remaining) =>
      if forallb is_space remaining then
        let y := if two then normalizeTwoDigitYear yv refYear else yv in
        if (two || (0 <? yv)) && (1 <=? mo) && (mo <=? 12)
           && (1 <=? d) && (d <=? days_in_month y mo)
        then ValidDate y mo d 0
        else InvalidDate
      else InvalidDate
  | _ => InvalidDate
  end.

(* ===================================================================== *)
(** ** Text normalization (lib/utils/html.ts) *)
(* ===================================================================== *)

Definition cleanText (text : jsstring) : jsstring :=
  trim
    (replace_all (plus (Chr (fun c => (c =? 32)%N || (c =? 9)%N))) (lit " ")
       (replace_all (at_least 3 (Chr is_nl)) [10%N; 10%N]
          (replace_all (Seq (Chr (N.eqb 13)) (Chr (N.eqb 10))) [10%N] text))).

Definition extractEmailText (env : Env) (body : jsstring) : jsstring :=
  let isHtml :=
    test (seq [str "<"; plus (Chr (cneg (is_char ">"))); str ">"]) body in
  if isHtml then cleanText (env_htmlToText env body)
  else cleanText body.

(* ===================================================================== *)
(** ** Amounts (lib/utils/currency.ts) *)
(* ===================================================================== *)

(** The class "[₹$€£¥Rs\.INR]" under the [gi] flags. *)
Definition currency_class : N -> bool :=
  ci (any_of [N.eqb 8377; is_char "$"; N.eqb 8364; N.eqb 163; N.eqb 165;
              one_of "Rs.INR"]).

Definition parseAmount (amountStr : jsstring) : option number :=
  if negb (str_truthy amountStr) then None
  else
    let cleaned :=
      trim (replace_all ws []
              (replace_all (str ",") []
                 (replace_all (Chr currency_class) [] amountStr))) in
    let cleaned :=
      trim (replace_first
              (Seq Bol (Grp 1 (alt [stri "rs"; stri "inr"]))) [] cleaned) in
    let amount := parseFloat cleaned in
    if is_nan amount then None
    else Some (Math_round (num_mul amount n100)).

Definition amount_tail : regex :=
  seq [plus (Chr digit_or_comma); opt (str "."); star dig].

Definition amount_patterns : list regex :=
  [ (* currency.ts line 59: Rs. 1,234.56 or Rs 1234.56 *)
    seq [stri "Rs"; opt (str "."); star ws; Grp 1 amount_tail];
    (* currency.ts line 61: INR 1,234.56 *)
    seq [stri "INR"; star ws; Grp 1 amount_tail];
    (* currency.ts line 63: the rupee sign, then 1,234.56 *)
    seq [Chr (N.eqb 8377); star ws; Grp 1 amount_tail];
    (* "/([\d,]+\.\d{2})\b/" *)
    seq [Grp 1 (seq [plus (Chr digit_or_comma); str "."; times 2 2 dig]); WordB] ].

Record AmountResult := mkAmount { ar_amount : number; ar_raw : jsstring }.

Fixpoint extractAmount_loop (text : jsstring) (ps : list regex)
    : option AmountResult :=
  match ps with
  | [] => None
  | pattern :: ps' =>
      match exec pattern text with
      | Some m =>
          match parseAmount (grp m 1) with
          | Some a =>
              if num_gt a num_zero then Some (mkAmount a (m_full m))
              else extractAmount_loop text ps'
          | None => extractAmount_loop text ps'
          end
      | None => extractAmount_loop text ps'
      end
  end.

Definition extractAmount (text : jsstring) : option AmountResult :=
  extractAmount_loop text amount_patterns.

(* ===================================================================== *)
(** ** The bank parsers *)
(* ===================================================================== *)

(** [!amount] for [amount: number | null]. *)
Definition onum_truthy (a : option number) : bool :=
  match a with Some x => num_truthy x | None => false end.

(** The date test of the confidence scores:
    [daysSinceTransaction >= 0 && daysSinceTransaction < 365]. *)
Definition date_is_recent (env : Env) (date : Date) : bool :=
  match getTime date with
  | None => false
  | Some t =>
      let daysSinceTransaction :=
        num_div (num_of_Z (env_now env - t)) (num_of_Z ms_per_day) in
      num_ge daysSinceTransaction num_zero
      && num_lt daysSinceTransaction (num_of_Z 365)
  end.

Definition upi_address : regex :=
  seq [plus (Chr (cunion alnum (one_of "._-"))); str "@";
       plus (Chr (cunion alnum (one_of "._-")))].

(** "/^(mr|mrs|ms|dr)\.?\s*/i" *)
Definition re_title : regex :=
  seq [Bol; Grp 1 (alt [stri "mr"; stri "mrs"; stri "ms"; stri "dr"]);
       opt (str "."); star ws].

Module hdfc.

(** "/(?:Rs\.?|INR)\s*([\d,]+(?:\.\d{2})?)/i" *)
Definition re_amount : regex :=
  seq [alt [Seq (stri "Rs") (opt (str ".")); stri "INR"]; star ws;
       Grp 1 (Seq (plus (Chr digit_or_comma))
                  (opt (Seq (str ".") (times 2 2 dig))))].

(** "/to\s+([a-zA-Z0-9._-]+@[a-zA-Z0-9._-]+)\s+([A-Z][A-Za-z0-9\s&.,()-]+?)\s+on\s+\d/i" *)
Definition re_upiToMerchant : regex :=
  seq [stri "to"; plus ws; Grp 1 upi_address; plus ws;
       Grp 2 (Seq (Chr (ci is_upper))
                (plus_lazy (Chr (any_of [alnum; is_space; one_of "&.,()-"]))));
       plus ws; stri "on"; plus ws; dig].

(** hdfc.ts line 65: VPA upi@address (Merchant Name) *)
Definition re_vpa : regex :=
  seq [stri "VPA"; plus ws; Grp 1 upi_address; star ws; str "(";
       Grp 2 (plus (Chr (cneg (is_char ")")))); str ")"].

(** "/Info[:\s]+UPI\/([^\/]+)\/([^\n\r]+)/i" *)
Definition re_upiInfo : regex :=
  seq [stri "Info"; plus (Chr (cunion (is_char ":") is_space)); stri "UPI";
       str "/"; Grp 1 (plus (Chr (cneg (is_char "/")))); str "/";
       Grp 2 (plus (Chr (cneg is_nl_cr)))].

(** "/(?:transferred|sent|paid)\s+(?:to|from)\s+([^\n\r.]+)/i" *)
Definition re_transfer : regex :=
  seq [alt [stri "transferred"; stri "sent"; stri "paid"]; plus ws;
       alt [stri "to"; stri "from"]; plus ws;
       Grp 1 (plus (Chr (cneg (cunion is_nl_cr (is_char ".")))))].

(** "/UPI\s+(?:transaction\s+)?reference\s+(?:number\s+)?(?:is\s+)?(\d+)/i" *)
Definition re_upiRef : regex :=
  seq [stri "UPI"; plus ws; opt (Seq (stri "transaction") (plus ws));
       stri "reference"; plus ws; opt (Seq (stri "number") (plus ws));
       opt (Seq (stri "is") (plus ws)); Grp 1 (plus dig)].

(** hdfc.ts line 97: NEFT or IMPS, separators, then the reference *)
Definition re_neft : regex :=
  seq [Grp 1 (alt [stri "NEFT"; stri "IMPS"]);
       star (Chr (cunion (is_char ":") is_space));
       Grp 2 (plus (Chr (ci (cunion is_upper is_digit))))].

Definition cleanMerchantName (name : jsstring) : jsstring :=
  substring0 100
    (trim
       (replace_first re_title []
          (replace_all (plus ws) (lit " ")
             (replace_all (plus (Chr (is_char "*"))) [] name)))).

Definition calculateConfidence (env : Env) (amount : number)
    (merchant : jsstring) (date : Date) : number :=
  let confidence := n0_5 in
  let confidence :=
    if num_gt amount num_zero then num_add confidence n0_2 else confidence in
  let confidence :=
    if negb (str_eqb merchant Unknown) then num_add confidence n0_2
    else confidence in
  let confidence :=
    if date_is_recent env date then num_add confidence n0_1 else confidence in
  Math_min confidence n1.

(** The amount the HDFC pattern reads, before the generic extractor. *)
Definition own_amount (text : jsstring) : option number :=
  match exec re_amount text with
  | Some amountMatch =>
      let amountStr := replace_all (str ",") [] (grp amountMatch 1) in
      Some (Math_round (num_mul (parseFloat amountStr) n100))
  | None => None
  end.

Definition find_amount (text : jsstring) : option number :=
  let amount := own_amount text in
  if negb (onum_truthy amount) then
    match extractAmount text with
    | Some amountResult => Some (ar_amount amountResult)
    | None => amount
    end
  else amount.

(** The merchant and reference cascade (patterns 1 to 6). *)
Definition find_merchant (text : jsstring) : jsstring * option jsstring :=
  let merchant := Unknown in
  let reference : option jsstring := None in
  let '(merchant, reference) :=
    match exec re_upiToMerchant text with
    | Some m => (trim (grp m 2), Some (lit "UPI/" ++ grp m 1))
    | None => (merchant, reference)
    end in
  let '(merchant, reference) :=
    if str_eqb merchant Unknown then
      match exec re_vpa text with
      | Some m => (trim (grp m 2), Some (lit "UPI/" ++ grp m 1))
      | None => (merchant, reference)
      end
    else (merchant, reference) in
  let '(merchant, reference) :=
    if str_eqb merchant Unknown then
      match exec re_upiInfo text with
      | Some m => (trim (grp m 2), Some (lit "UPI/" ++ grp m 1))
      | None => (merchant, reference)
      end
    else (merchant, reference) in
  let merchant :=
    if str_eqb merchant Unknown then
      match exec re_transfer text with
      | Some m => trim (grp m 1)
      | None => merchant
      end
    else merchant in
  let reference :=
    match exec re_upiRef text with
    | Some m =>
        if negb (ostr_truthy reference) then Some (lit "UPI/" ++ grp m 1)
        else reference
    | None => reference
    end in
  let reference :=
    if negb (ostr_truthy reference) then
      match exec re_neft text with
      | Some m => Some (grp m 1 ++ lit "/" ++ grp m 2)
      | None => reference
      end
    else reference in
  (merchant, reference).

Definition is_declined (lowerText : jsstring) : bool :=
  includes lowerText (lit "was declined") || includes lowerText (lit "failed")
  || includes lowerText (lit "unsuccessful").

Definition transaction_type (lowerText : jsstring) : option TransactionType :=
  if includes lowerText (lit "debited")
     || includes lowerText (lit "has been debited") then Some DEBIT
  else if includes lowerText (lit "credited")
          || includes lowerText (lit "has been credited")
          || includes lowerText (lit "received") then Some CREDIT
  else None.

(** The transaction assembled once type and amount are known. *)
Definition build (env : Env) (text : jsstring) (emailDate : Date)
    (type : TransactionType) (amount : number) : ParsedTransaction :=
  let date := default emailDate (extractDate env text) in
  let merchant := cleanMerchantName (fst (find_merchant text)) in
  let reference := snd (find_merchant text) in
  mkTx amount type merchant date reference HDFC
    (calculateConfidence env amount merchant date).

Definition parseHDFCEmail (env : Env) (body subject : jsstring)
    (emailDate : Date) : ParserResult :=
  let text := extractEmailText env body in
  let lowerText := toLowerCase text in
  if is_declined lowerText
  then failure "Declined/failed transaction - skipping"
  else
    match transaction_type lowerText with
    | None => failure "Could not determine transaction type"
    | Some type =>
        match find_amount text with
        | None => failure "Could not extract amount"
        | Some amount =>
            if negb (num_truthy amount) then failure "Could not extract amount"
            else succeed (build env text emailDate type amount)
        end
    end.

End hdfc.

Module sib.

(** "/(?:to|from|at|by)\s+([A-Za-z0-9\s&.-]+?)(?:\s+on|\s+for|\s+via|\s+through|\s+ref|\n|$)/i" *)
Definition re_toFrom : regex :=
  seq [alt [stri "to"; stri "from"; stri "at"; stri "by"]; plus ws;
       Grp 1 (plus_lazy (Chr (any_of [alnum; is_space; one_of "&.-"])));
       alt [Seq (plus ws) (stri "on"); Seq (plus ws) (stri "for");
            Seq (plus ws) (stri "via"); Seq (plus ws) (stri "through");
            Seq (plus ws) (stri "ref"); Chr is_nl; Eol]].

(** "/UPI[:\s]+([^\n\r]+)/i" *)
Definition re_upi : regex :=
  seq [stri "UPI"; plus (Chr (cunion (is_char ":") is_space));
       Grp 1 (plus (Chr (cneg is_nl_cr)))].

(** sib.ts line 65: ref, reference, txn or transaction, separators, then
    the reference *)
Definition re_ref : regex :=
  seq [alt [Seq (stri "ref") (opt (stri "erence")); stri "txn";
            stri "transaction"];
       star (Chr (cunion (one_of ":#") is_space));
       Grp 1 (plus (Chr (ci (cunion is_upper is_digit))))].

(** sib.ts line 71: IMPS or NEFT, separators, and an optional reference *)
Definition re_imps : regex :=
  seq [Grp 1 (alt [stri "IMPS"; stri "NEFT"]);
       star (Chr (cunion (is_char ":") is_space));
       opt (Grp 2 (plus (Chr (ci (cunion is_upper is_digit)))))].

(** sib.ts line 105: a/c, white space, digits *)
Definition re_account : regex :=
  seq [stri "a"; str "/"; stri "c"; star ws; plus dig].

Definition cleanMerchantName (name : jsstring) : jsstring :=
  substring0 100
    (trim
       (replace_first re_account []
          (replace_first re_title []
             (replace_all (plus ws) (lit " ")
                (replace_all (plus (Chr (is_char "*"))) [] name))))).

Definition calculateConfidence (env : Env) (amount : number)
    (merchant : jsstring) (date : Date) : number :=
  let confidence := n0_5 in
  let confidence :=
    if num_gt amount num_zero then num_add confidence n0_2 else confidence in
  let confidence :=
    if negb (str_eqb merchant Unknown) then num_add confidence n0_2
    else confidence in
  let confidence :=
    if date_is_recent env date then num_add confidence n0_1 else confidence in
  Math_min confidence n1.

Definition find_merchant (text : jsstring) : jsstring * option jsstring :=
  let merchant := Unknown in
  let reference : option jsstring := None in
  let merchant :=
    match exec re_toFrom text with
    | Some m => trim (grp m 1)
    | None => merchant
    end in
  let '(merchant, reference) :=
    match exec re_upi text with
    | Some m =>
        let parts := split (chr "/") (grp m 1) in
        if Nat.ltb 1 (length parts) then
          (trim (default [] (last parts)),
           Some (lit "UPI/" ++ trim (default [] (head parts))))
        else (trim (grp m 1), Some (lit "UPI"))
    | None => (merchant, reference)
    end in
  let reference :=
    match exec re_ref text with
    | Some m =>
        if negb (ostr_truthy reference) then Some (grp m 1) else reference
    | None => reference
    end in
  let reference :=
    match exec re_imps text with
    | Some m =>
        if ostr_truthy (m_caps m 2%nat)
        then Some (grp m 1 ++ lit "/" ++ grp m 2)
        else Some (grp m 1)
    | None => reference
    end in
  (merchant, reference).

Definition transaction_type (lowerText : jsstring) : option TransactionType :=
  if includes lowerText (lit "debited") || includes lowerText (lit "debit")
     || includes lowerText (lit "withdrawn")
     || includes lowerText (lit "purchase") then Some DEBIT
  else if includes lowerText (lit "credited")
          || includes lowerText (lit "credit")
          || includes lowerText (lit "received")
          || includes lowerText (lit "deposit") then Some CREDIT
  else None.

(** The transaction assembled once type and amount are known. *)
Definition build (env : Env) (text : jsstring) (emailDate : Date)
    (type : TransactionType) (amount : number) : ParsedTransaction :=
  let date := default emailDate (extractDate env text) in
  let merchant := cleanMerchantName (fst (find_merchant text)) in
  let reference := snd (find_merchant text) in
  mkTx amount type merchant date reference SIB
    (calculateConfidence env amount merchant date).

Definition parseSIBEmail (env : Env) (body subject : jsstring)
    (emailDate : Date) : ParserResult :=
  let text := extractEmailText env body in
  let lowerText := toLowerCase text in
  match transaction_type lowerText with
  | None => failure "Could not determine transaction type"
  | Some type =>
      match extractAmount text with
      | None => failure "Could not extract amount"
      | Some amountResult =>
          succeed (build env text emailDate type (ar_amount amountResult))
      end
  end.

End sib.

Module generic.

Definition line_end (tails : list string) : regex :=
  alt (map (fun t => Seq (plus ws) (stri t)) tails ++ [Chr is_nl; Eol]).

Definition merchantPatterns : list regex :=
  [ (* "/UPI[:\-\s]+(?:[^\s\/]+\/)?([^\n\r\/]+?)(?:\s+on|\s+ref|\n|$)/i" *)
    seq [stri "UPI"; plus (Chr (cunion (one_of ":-") is_space));
         opt (Seq (plus (Chr (cneg (cunion is_space (is_char "/")))))
                  (str "/"));
         Grp 1 (plus_lazy (Chr (cneg (cunion is_nl_cr (is_char "/")))));
         line_end ["on"%string; "ref"%string]];
    (* "/VPA[:\s]+([^\n\r]+)/i" *)
    seq [stri "VPA"; plus (Chr (cunion (is_char ":") is_space));
         Grp 1 (plus (Chr (cneg is_nl_cr)))];
    (* "/(?:at|to|from|paid to|received from)\s+([A-Za-z0-9\s&.,'-]+?)(?:\s+on|\s+via|\s+ref|\s+for|\n|$)/i" *)
    seq [alt [stri "at"; stri "to"; stri "from"; stri "paid to";
              stri "received from"];
         plus ws;
         Grp 1 (plus_lazy (Chr (any_of [alnum; is_space; one_of "&.,'-"])));
         line_end ["on"%string; "via"%string; "ref"%string; "for"%string]];
    (* "/Info[:\s]+([^\n\r]+)/i" *)
    seq [stri "Info"; plus (Chr (cunion (is_char ":") is_space));
         Grp 1 (plus (Chr (cneg is_nl_cr)))];
    (* "/merchant[:\s]+([^\n\r]+)/i" *)
    seq [stri "merchant"; plus (Chr (cunion (is_char ":") is_space));
         Grp 1 (plus (Chr (cneg is_nl_cr)))];
    (* "/payee[:\s]+([^\n\r]+)/i" *)
    seq [stri "payee"; plus (Chr (cunion (is_char ":") is_space));
         Grp 1 (plus (Chr (cneg is_nl_cr)))] ].

Definition refPatterns : list regex :=
  [ (* generic.ts line 86: ref, reference, txn, transaction or rrn,
       separators, then six or more letters or digits *)
    seq [alt [Seq (stri "ref") (opt (stri "erence")); stri "txn";
              stri "transaction"; stri "rrn"];
         star (Chr (cunion (one_of ":#") is_space));
         Grp 1 (at_least 6 (Chr (ci (cunion is_upper is_digit))))];
    (* "/UPI[:\s]+([A-Z0-9]+)/i" *)
    seq [stri "UPI"; plus (Chr (cunion (is_char ":") is_space));
         Grp 1 (plus (Chr (ci (cunion is_upper is_digit))))];
    (* generic.ts line 88: IMPS, NEFT or RTGS, separators, the reference *)
    seq [Grp 1 (alt [stri "IMPS"; stri "NEFT"; stri "RTGS"]);
         star (Chr (cunion (is_char ":") is_space));
         Grp 2 (plus (Chr (ci (cunion is_upper is_digit))))] ].

(** generic.ts line 128: a/c, white space, asterisks or digits *)
Definition re_account : regex :=
  seq [stri "a"; str "/"; stri "c"; star ws;
       plus (Chr (cunion (is_char "*") is_digit))].

Definition cleanMerchantName (name : jsstring) : jsstring :=
  substring0 100
    (trim
       (replace_all (Chr (one_of "<>")) []
          (replace_all (Seq (plus (Chr (is_char "*"))) (plus dig)) []
             (replace_first re_account []
                (replace_first re_title []
                   (replace_all (plus ws) (lit " ")
                      (replace_all (plus (Chr (is_char "*"))) [] name))))))).

Definition bankKeywords : list jsstring :=
  [lit "account"; lit "balance"; lit "transaction"; lit "bank"].

Definition calculateConfidence (env : Env) (amount : number)
    (merchant : jsstring) (date : Date) (text : jsstring) : number :=
  let confidence := n0_4 in
  let confidence :=
    if num_gt amount num_zero then num_add confidence n0_15 else confidence in
  let confidence :=
    if negb (str_eqb merchant Unknown) && Nat.ltb 3 (length merchant)
    then num_add confidence n0_2 else confidence in
  let confidence :=
    if date_is_recent env date then num_add confidence n0_1 else confidence in
  let lowerText := toLowerCase text in
  let keywordCount :=
    length (List.filter (fun k => includes lowerText k) bankKeywords) in
  let confidence :=
    num_add confidence (num_mul (num_of_Z (Z.of_nat keywordCount)) n0_05) in
  Math_min confidence n1.

Definition debitKeywords : list jsstring :=
  [lit "debited"; lit "debit"; lit "withdrawn"; lit "spent"; lit "purchase";
   lit "payment of"; lit "paid"].

Definition creditKeywords : list jsstring :=
  [lit "credited"; lit "credit"; lit "received"; lit "deposited"; lit "refund"].

Fixpoint find_merchant (text : jsstring) (ps : list regex) : jsstring :=
  match ps with
  | [] => Unknown
  | pattern :: ps' =>
      match exec pattern text with
      | Some m =>
          if ostr_truthy (m_caps m 1%nat) then
            let extracted := trim (grp m 1) in
            if Nat.ltb 2 (length extracted) && Nat.ltb (length extracted) 100
            then extracted
            else find_merchant text ps'
          else find_merchant text ps'
      | None => find_merchant text ps'
      end
  end.

Fixpoint find_reference (text : jsstring) (ps : list regex)
    : option jsstring :=
  match ps with
  | [] => None
  | pattern :: ps' =>
      match exec pattern text with
      | Some m =>
          if ostr_truthy (m_caps m 2%nat)
          then Some (grp m 1 ++ lit "/" ++ grp m 2)
          else m_caps m 1%nat
      | None => find_reference text ps'
      end
  end.

Definition transaction_type (lowerText lowerSubject : jsstring)
    : option TransactionType :=
  let mentions keyword :=
    includes lowerText keyword || includes lowerSubject keyword in
  if existsb mentions debitKeywords then Some DEBIT
  else if existsb mentions creditKeywords then Some CREDIT
  else None.

(** The transaction assembled once type and amount are known. *)
Definition build (env : Env) (text : jsstring) (emailDate : Date)
    (bank : Bank) (type : TransactionType) (amount : number)
    : ParsedTransaction :=
  let date := default emailDate (extractDate env text) in
  let merchant := cleanMerchantName (find_merchant text merchantPatterns) in
  let reference := find_reference text refPatterns in
  mkTx amount type merchant date reference bank
    (calculateConfidence env amount merchant date text).

Definition parseGenericBankEmail (env : Env) (body subject : jsstring)
    (emailDate : Date) (bank : Bank) : ParserResult :=
  let text := extractEmailText env body in
  let lowerText := toLowerCase text in
  let lowerSubject := toLowerCase subject in
  match transaction_type lowerText lowerSubject with
  | None => failure "Could not determine transaction type"
  | Some type =>
      match or_else (extractAmount text) (extractAmount subject) with
      | None => failure "Could not extract amount"
      | Some amountResult =>
          succeed (build env text emailDate bank type (ar_amount amountResult))
      end
  end.

End generic.

(* ===================================================================== *)
(** ** The completion oracle *)
(* ===================================================================== *)

(** What a request to the oracle comes to, seen from inside the [try]
    block around it: an exception (a client error, or [JSON.parse]
    rejecting the content), with its message when it is an [Error]; an
    empty content; or the parsed JSON payload. *)
Inductive Completion (A : Type) :=
| Throws (message : option jsstring)
| EmptyContent
| Json (payload : A).
Arguments Throws {A} message.
Arguments EmptyContent {A}.
Arguments Json {A} payload.

(** Truthiness of [openaiApiKey?: string]. *)
Definition key_present (openaiApiKey : option jsstring) : bool :=
  ostr_truthy openaiApiKey.

(** Truthiness of [number | undefined]. *)
Definition onum_present (x : option number) : bool := onum_truthy x.

(* ===================================================================== *)
(** ** The LLM fallback parser (lib/parsers/llm-fallback.ts) *)
(* ===================================================================== *)

(** The oracle's reply, read at the types its interface declares: the
    source casts the parsed JSON to [LLMParseResult] without checking it.
    A field is [None] when the JSON leaves it out or gives [null].  A
    reply that gives a field a value of another JSON type is not
    represented; the properties below say nothing of the amount or the
    merchant of an oracle result, which depend on it. *)
Record LLMParseResult := mkLLMParse {
  lp_amount : option number;
  lp_type : option jsstring;
  lp_merchant : option jsstring;
  lp_date : option jsstring;
  lp_reference : option jsstring;
}.

Record BatchLLMParseResult := mkBatchLLMParse {
  bp_id : option jsstring;
  bp_fields : LLMParseResult;
}.

Record EmailToParse := mkEmailToParse {
  ep_id : jsstring;
  ep_body : jsstring;
  ep_subject : jsstring;
  ep_emailDate : Date;
  ep_bank : Bank;
}.

Definition llm_failure (msg : jsstring) (usedLLM : option bool) : ParserResult :=
  mkResult false None (Some msg) usedLLM None.

(** The transaction built from a reply whose required fields are present. *)
Definition llm_transaction (env : Env) (parsed : LLMParseResult)
    (amount : number) (type : jsstring) (merchant : jsstring)
    (emailDate : Date) (bank : Bank) : ParsedTransaction :=
  let amountInPaise := Math_round (num_mul amount n100) in
  let transactionDate :=
    match lp_date parsed with
    | Some d => if str_truthy d then env_native env d else emailDate
    | None => emailDate
    end in
  mkTx amountInPaise
       (if str_eqb type (lit "debit") then DEBIT else CREDIT)
       merchant transactionDate (lp_reference parsed) bank n0_7.

(** The required fields of a reply of the declared shape, when all three
    are truthy: [!parsed.amount || !parsed.type || !parsed.merchant]. *)
Definition required_fields (parsed : LLMParseResult)
    : option (number * jsstring * jsstring) :=
  match lp_amount parsed, lp_type parsed, lp_merchant parsed with
  | Some a, Some t, Some m =>
      if num_truthy a && str_truthy t && str_truthy m then Some (a, t, m)
      else None
  | _, _, _ => None
  end.

(** [parseLLMFallback]; the second component counts the oracle requests. *)
Definition parseLLMFallback (env : Env)
    (oracle : jsstring -> jsstring -> Completion LLMParseResult)
    (body subject : jsstring) (emailDate : Date) (bank : Bank)
    (openaiApiKey : option jsstring) : ParserResult * nat :=
  if negb (key_present openaiApiKey) then
    (llm_failure (lit "OpenAI API key not configured") None, O)
  else
    let text := extractEmailText env body in
    let res :=
      match oracle subject (substring0 2000 text) with
      | Throws (Some message) => llm_failure message None
      | Throws None => llm_failure (lit "LLM parsing failed") None
      | EmptyContent => llm_failure (lit "Empty LLM response") None
      | Json parsed =>
          match required_fields parsed with
          | None => llm_failure (lit "LLM could not extract required fields") None
          | Some (a, t, m) =>
              succeed (llm_transaction env parsed a t m emailDate bank)
          end
      end in
    (res, 1%nat).

Definition BATCH_SIZE_LLM : nat := 25.

(** The batches [emails.slice(i, i + size)] for [i = 0, size, 2 size, ...]. *)
Fixpoint batches_of {A} (fuel : nat) (size : nat) (l : list A) : list (list A) :=
  match fuel with
  | O => []
  | S fuel' =>
      match l with
      | [] => []
      | _ :: _ => take size l :: batches_of fuel' size (drop size l)
      end
  end.

Definition batches {A} (size : nat) (l : list A) : list (list A) :=
  batches_of (length l) size l.

Definition type_error_null : jsstring :=
  lit "Cannot read properties of null (reading 'id')".

(** The loop over [parsed.results]: an element of the array that is [null]
    (here [None]) throws at [result.id]; the entries set before it stay. *)
Fixpoint llm_process_results (env : Env) (batch : list EmailToParse)
    (items : list (option BatchLLMParseResult))
    (results : gmap jsstring ParserResult)
    : gmap jsstring ParserResult * option jsstring :=
  match items with
  | [] => (results, None)
  | None :: _ => (results, Some type_error_null)
  | Some result :: items' =>
      match bp_id result with
      | None => llm_process_results env batch items' results
      | Some rid =>
          match List.find (fun e => str_eqb (ep_id e) rid) batch with
          | None => llm_process_results env batch items' results
          | Some email =>
              match required_fields (bp_fields result) with
              | None =>
                  llm_process_results env batch items'
                    (<[rid := llm_failure
                                (lit "LLM could not extract required fields")
                                (Some true)]> results)
              | Some (a, t, m) =>
                  let tx := llm_transaction env (bp_fields result) a t m
                              (ep_emailDate email) (ep_bank email) in
                  llm_process_results env batch items'
                    (<[rid := mkResult true (Some tx) None (Some true) None]>
                       results)
              end
          end
      end
  end.

(** Marks the emails of a batch that have no entry yet as failed. *)
Fixpoint mark_missing (msg : jsstring) (batch : list EmailToParse)
    (results : gmap jsstring ParserResult) : gmap jsstring ParserResult :=
  match batch with
  | [] => results
  | email :: batch' =>
      mark_missing msg batch'
        (match results !! ep_id email with
         | Some _ => results
         | None => <[ep_id email := llm_failure msg (Some true)]> results
         end)
  end.

Definition BatchOracle (I O : Type) : Type :=
  nat -> list I -> Completion (list (option O)).

(** One iteration of the batch loop: the [try] block and its [catch]. *)
Definition llm_batch_step (env : Env)
    (reply : Completion (list (option BatchLLMParseResult)))
    (batch : list EmailToParse) (results : gmap jsstring ParserResult)
    : gmap jsstring ParserResult :=
  match reply with
  | Throws (Some message) => mark_missing message batch results
  | Throws None => mark_missing (lit "Batch LLM parsing failed") batch results
  | EmptyContent => mark_missing (lit "Empty LLM response") batch results
  | Json items =>
      match llm_process_results env batch items results with
      | (results', None) =>
          mark_missing (lit "Email not in LLM response") batch results'
      | (results', Some message) => mark_missing message batch results'
      end
  end.

Fixpoint llm_batch_loop (env : Env)
    (oracle : BatchOracle EmailToParse BatchLLMParseResult) (i : nat)
    (bs : list (list EmailToParse)) (results : gmap jsstring ParserResult)
    : gmap jsstring ParserResult :=
  match bs with
  | [] => results
  | batch :: bs' =>
      llm_batch_loop env oracle (S i) bs'
        (llm_batch_step env (oracle i batch) batch results)
  end.

(** The loop of the branch without a credential: every id is set. *)
Fixpoint set_all_unconfigured (emails : list EmailToParse)
    (results : gmap jsstring ParserResult) : gmap jsstring ParserResult :=
  match emails with
  | [] => results
  | email :: emails' =>
      set_all_unconfigured emails'
        (<[ep_id email := llm_failure (lit "OpenAI API key not configured")
                            (Some true)]> results)
  end.

(** [batchParseLLMFallback]; the second component lists the batches sent
    to the oracle, in order. *)
Definition batchParseLLMFallback (env : Env)
    (oracle : BatchOracle EmailToParse BatchLLMParseResult)
    (emails : list EmailToParse) (openaiApiKey : option jsstring)
    : gmap jsstring ParserResult * list (list EmailToParse) :=
  if negb (key_present openaiApiKey) || Nat.eqb (length emails) 0 then
    (set_all_unconfigured emails ∅, [])
  else
    let bs := batches BATCH_SIZE_LLM emails in
    (llm_batch_loop env oracle 0 bs ∅, bs).

(* ===================================================================== *)
(** ** The parse orchestrator (lib/parsers/index.ts) *)
(* ===================================================================== *)

Record ParseEmailOptions := mkOptions {
  op_body : jsstring;
  op_subject : jsstring;
  op_date : Date;
  op_bank : Bank;
}.

(** The [switch (bank)] of both entry points. *)
Definition run_bank_parser (env : Env) (o : ParseEmailOptions) : ParserResult :=
  match op_bank o with
  | HDFC => hdfc.parseHDFCEmail env (op_body o) (op_subject o) (op_date o)
  | SIB => sib.parseSIBEmail env (op_body o) (op_subject o) (op_date o)
  | bank =>
      generic.parseGenericBankEmail env (op_body o) (op_subject o) (op_date o) bank
  end.

(** [!result.success || (tx && tx.confidence < 0.7) || (tx && tx.merchant === 'Unknown')],
    as a truth value. *)
Definition needs_llm (result : ParserResult) : bool :=
  negb (pr_success result)
  || match pr_transaction result with
     | Some tx => num_lt (tx_confidence tx) n0_7
     | None => false
     end
  || match pr_transaction result with
     | Some tx => str_eqb (tx_merchant tx) Unknown
     | None => false
     end.

Definition with_usedLLM (result : ParserResult) (b : bool) : ParserResult :=
  mkResult (pr_success result) (pr_transaction result) (pr_error result)
    (Some b) (pr_needsLLMFallback result).

Definition parseEmailWithRegex (env : Env) (options : ParseEmailOptions)
    : ParserResult :=
  let result := run_bank_parser env options in
  let needsLLM := needs_llm result in
  mkResult (pr_success result) (pr_transaction result) (pr_error result)
    (Some false) (Some needsLLM).

(** The part of [parseTransactionEmail] after the bank parser has run,
    given what that parser returned.  The second component counts the
    requests made to the oracle. *)
Definition arbitrate (env : Env)
    (oracle : jsstring -> jsstring -> Completion LLMParseResult)
    (options : ParseEmailOptions) (openaiApiKey : option jsstring)
    (result : ParserResult) : ParserResult * nat :=
  let needsLLMFallback := needs_llm result in
  let good :=
    pr_success result
    && match pr_transaction result with
       | Some tx =>
           num_ge (tx_confidence tx) n0_7 && negb (str_eqb (tx_merchant tx) Unknown)
       | None => false
       end in
  if good then (with_usedLLM result false, O)
  else if key_present openaiApiKey && needsLLMFallback then
    let '(llmResult, calls) :=
      parseLLMFallback env oracle (op_body options) (op_subject options)
        (op_date options) (op_bank options) openaiApiKey in
    match pr_success llmResult, pr_transaction llmResult with
    | true, Some llmTx =>
        match pr_success result, pr_transaction result with
        | true, Some tx =>
            if negb (str_eqb (tx_merchant tx) Unknown)
               && num_gt (tx_confidence tx) (tx_confidence llmTx)
            then (with_usedLLM result false, calls)
            else (with_usedLLM llmResult true, calls)
        | _, _ => (with_usedLLM llmResult true, calls)
        end
    | _, _ => (with_usedLLM result false, calls)
    end
  else (with_usedLLM result false, O).

Definition parseTransactionEmail (env : Env)
    (oracle : jsstring -> jsstring -> Completion LLMParseResult)
    (options : ParseEmailOptions) (openaiApiKey : option jsstring)
    : ParserResult * nat :=
  arbitrate env oracle options openaiApiKey (run_bank_parser env options).

(* ===================================================================== *)
(** ** The categorization engine (lib/llm/categorize.ts) *)
(* ===================================================================== *)

Record Category := mkCategory { cat_id : jsstring; cat_name : jsstring }.

Record CategorizationResult := mkCat {
  cr_categoryId : option jsstring;
  cr_cleanMerchant : jsstring;
  cr_subcategory : option jsstring;
  cr_confidence : number;
}.

(** An item of the oracle's reply; JSON may leave any field out. *)
Record CatReply := mkCatReply {
  rp_id : option jsstring;
  rp_categoryId : option jsstring;
  rp_cleanMerchant : option jsstring;
  rp_subcategory : option jsstring;
  rp_confidence : option number;
}.

Record TxToCategorize := mkToCat {
  tc_id : jsstring;
  tc_merchant : jsstring;
  tc_amount : number;
  tc_type : TransactionType;
}.

(** [allCategories.find((c) => c.name === 'Other')?.id || null] *)
Definition other_id (allCategories : list Category) : option jsstring :=
  match List.find (fun c => str_eqb (cat_name c) (lit "Other")) allCategories with
  | Some c => if str_truthy (cat_id c) then Some (cat_id c) else None
  | None => None
  end.

(** [allCategories.find((c) => c.id === id)], as a truth value. *)
Definition valid_category (allCategories : list Category)
    (id : option jsstring) : bool :=
  match id with
  | Some i =>
      match List.find (fun c => str_eqb (cat_id c) i) allCategories with
      | Some _ => true
      | None => false
      end
  | None => false
  end.

Definition default_categorization (allCategories : list Category)
    (merchant : jsstring) : CategorizationResult :=
  mkCat (other_id allCategories) merchant None n0_3.

(** [x || null] for an optional string. *)
Definition or_null (x : option jsstring) : option jsstring :=
  if ostr_truthy x then x else None.

(** [x || d] for an optional number. *)
Definition num_or (x : option number) (d : number) : number :=
  match x with
  | Some v => if num_truthy v then v else d
  | None => d
  end.

(** [Math.min(x, 0.5)] for an optional number: a missing one is NaN. *)
Definition min_half (x : option number) : number :=
  Math_min (default S754_nan x) n0_5.

(** [categorizeTransaction]; the second component counts the requests. *)
Definition categorizeTransaction (allCategories : list Category)
    (oracle : jsstring -> number -> TransactionType -> Completion CatReply)
    (merchant : jsstring) (amount : number) (type : TransactionType)
    (openaiApiKey : option jsstring) : CategorizationResult * nat :=
  if negb (key_present openaiApiKey) then
    (default_categorization allCategories merchant, O)
  else
    (match oracle merchant amount type with
     | Throws _ | EmptyContent => default_categorization allCategories merchant
     | Json parsed =>
         let validCategory := valid_category allCategories (rp_categoryId parsed) in
         let categoryId :=
           if validCategory then rp_categoryId parsed
           else other_id allCategories in
         let confidence :=
           if validCategory then rp_confidence parsed
           else Some (min_half (rp_confidence parsed)) in
         mkCat categoryId
               (if ostr_truthy (rp_cleanMerchant parsed)
                then default [] (rp_cleanMerchant parsed) else merchant)
               (or_null (rp_subcategory parsed))
               (num_or confidence n0_7)
     end, 1%nat).

Definition BATCH_SIZE_CAT : nat := 100.

(** The entry [batchCategorize] stores for one item of the reply. *)
Definition categorize_item (allCategories : list Category)
    (batch : list TxToCategorize) (rid : jsstring) (result : CatReply)
    : CategorizationResult :=
  let validCategory := valid_category allCategories (rp_categoryId result) in
  mkCat (if validCategory then rp_categoryId result else other_id allCategories)
        (if ostr_truthy (rp_cleanMerchant result)
         then default [] (rp_cleanMerchant result)
         else
           match List.find (fun t => str_eqb (tc_id t) rid) batch with
           | Some t => if str_truthy (tc_merchant t) then tc_merchant t else Unknown
           | None => Unknown
           end)
        (or_null (rp_subcategory result))
        (if validCategory then num_or (rp_confidence result) n0_7 else n0_5).

(** The loop over [parsed.results].  A [null] element throws; an item
    whose id is not a string is stored under a key no transaction id
    equals, and is left out of the model. *)
Fixpoint cat_process_results (allCategories : list Category)
    (batch : list TxToCategorize) (items : list (option CatReply))
    (results : gmap jsstring CategorizationResult)
    : gmap jsstring CategorizationResult * bool :=
  match items with
  | [] => (results, false)
  | None :: _ => (results, true)
  | Some result :: items' =>
      match rp_id result with
      | None => cat_process_results allCategories batch items' results
      | Some rid =>
          cat_process_results allCategories batch items'
            (<[rid := categorize_item allCategories batch rid result]> results)
      end
  end.

Fixpoint cat_fill_missing (allCategories : list Category)
    (batch : list TxToCategorize)
    (results : gmap jsstring CategorizationResult)
    : gmap jsstring CategorizationResult :=
  match batch with
  | [] => results
  | tx :: batch' =>
      cat_fill_missing allCategories batch'
        (match results !! tc_id tx with
         | Some _ => results
         | None =>
             <[tc_id tx := default_categorization allCategories (tc_merchant tx)]>
               results
         end)
  end.

Definition cat_batch_step (allCategories : list Category)
    (reply : Completion (list (option CatReply)))
    (batch : list TxToCategorize)
    (results : gmap jsstring CategorizationResult)
    : gmap jsstring CategorizationResult :=
  match reply with
  | Throws _ | EmptyContent => cat_fill_missing allCategories batch results
  | Json items =>
      cat_fill_missing allCategories batch
        (fst (cat_process_results allCategories batch items results))
  end.

Fixpoint cat_batch_loop (allCategories : list Category)
    (oracle : BatchOracle TxToCategorize CatReply) (i : nat)
    (bs : list (list TxToCategorize))
    (results : gmap jsstring CategorizationResult)
    : gmap jsstring CategorizationResult :=
  match bs with
  | [] => results
  | batch :: bs' =>
      cat_batch_loop allCategories oracle (S i) bs'
        (cat_batch_step allCategories (oracle i batch) batch results)
  end.

Fixpoint cat_set_defaults (allCategories : list Category)
    (transactions : list TxToCategorize)
    (results : gmap jsstring CategorizationResult)
    : gmap jsstring CategorizationResult :=
  match transactions with
  | [] => results
  | tx :: transactions' =>
      cat_set_defaults allCategories transactions'
        (<[tc_id tx := default_categorization allCategories (tc_merchant tx)]>
           results)
  end.

Definition batchCategorize (allCategories : list Category)
    (oracle : BatchOracle TxToCategorize CatReply)
    (transactions : list TxToCategorize) (openaiApiKey : option jsstring)
    : gmap jsstring CategorizationResult :=
  if negb (key_present openaiApiKey) || Nat.eqb (length transactions) 0 then
    cat_set_defaults allCategories transactions ∅
  else
    cat_batch_loop allCategories oracle 0
      (batches BATCH_SIZE_CAT transactions) ∅.

(* ===================================================================== *)
(** ** The sync merge controller (app/api/sync/route.ts) *)
(* ===================================================================== *)

Record EmailData := mkEmail {
  em_messageId : jsstring;
  em_sender : jsstring;
  em_subject : jsstring;
  em_body : jsstring;
  em_date : Date;
  em_bank : Bank;
}.

(** A row of the [transactions] table. *)
Record Transaction := mkTransaction {
  t_id : jsstring;
  t_userId : jsstring;
  t_amount : number;
  t_type : TransactionType;
  t_rawMerchant : jsstring;
  t_cleanMerchant : jsstring;
  t_categoryId : option jsstring;
  t_subcategory : option jsstring;
  t_transactionDate : Date;
  t_sourceBank : Bank;
  t_sourceRef : option jsstring;
  t_emailMessageId : option jsstring;
  t_rawEmailSubject : option jsstring;
  t_confidence : number;
  t_isVerified : bool;
}.

Record ParsedEmail := mkParsedEmail {
  pe_id : jsstring;
  pe_emailMessageId : jsstring;
  pe_emailSubject : jsstring;
  pe_parsed : ParsedTransaction;
}.

Record NeedingLLM := mkNeedingLLM {
  nl_id : jsstring;
  nl_email : EmailData;
  nl_regexResult : option ParsedTransaction;
}.

(** The collaborators of one sync run: the two oracles, the category
    catalog, the successive values of [uuidv4()], and which store accesses
    throw: the lookup of a message id, the content-duplicate query, the
    insertion of a row into the rows already stored. *)
Record World := mkWorld {
  w_llm : BatchOracle EmailToParse BatchLLMParseResult;
  w_cat : BatchOracle TxToCategorize CatReply;
  w_categories : list Category;
  w_uuid : nat -> jsstring;
  w_lookup_throws : EmailData -> bool;
  w_query_throws : ParsedEmail -> bool;
  w_insert_throws : list Transaction -> Transaction -> bool;
}.

(** [isEmailProcessed(userId, messageId)] (lib/gmail/fetch.ts) *)
Definition isEmailProcessed (db : list Transaction) (userId messageId : jsstring)
    : bool :=
  existsb (fun t => str_eqb (t_userId t) userId
                    && bool_decide (t_emailMessageId t = Some messageId)) db.

(** Equality of two stored timestamps (whole seconds). *)
Definition same_timestamp (a b : Date) : bool :=
  match getTime a, getTime b with
  | Some x, Some y => x / 1000 =? y / 1000
  | _, _ => false
  end.

(** The content-duplicate query of step 3. *)
Definition existingByContent (db : list Transaction) (userId : jsstring)
    (parsed : ParsedTransaction) : bool :=
  existsb (fun t => str_eqb (t_userId t) userId
                    && SFeqb (t_amount t) (tx_amount parsed)
                    && str_eqb (t_rawMerchant t) (tx_merchant parsed)
                    && same_timestamp (t_transactionDate t) (tx_date parsed)) db.

(** The counters and lists of the run. *)
Record SyncState := mkSync {
  newTransactions : nat;
  duplicates : nat;
  errors : nat;
  regexParsed : nat;
  llmParsed : nat;
  parsedEmails : list ParsedEmail;
  emailsNeedingLLM : list NeedingLLM;
  uuids_used : nat;
  parser_calls : list EmailData;
  store : list Transaction;
}.

Definition initial_state (db : list Transaction) : SyncState :=
  mkSync 0 0 0 0 0 [] [] 0 [] db.

Definition options_of (email : EmailData) : ParseEmailOptions :=
  mkOptions (em_body email) (em_subject email) (em_date email) (em_bank email).

Definition count_error (st : SyncState) : SyncState :=
  mkSync (newTransactions st) (duplicates st) (S (errors st)) (regexParsed st)
    (llmParsed st) (parsedEmails st) (emailsNeedingLLM st) (uuids_used st)
    (parser_calls st) (store st).

Definition count_duplicate (st : SyncState) : SyncState :=
  mkSync (newTransactions st) (S (duplicates st)) (errors st) (regexParsed st)
    (llmParsed st) (parsedEmails st) (emailsNeedingLLM st) (uuids_used st)
    (parser_calls st) (store st).

(** Pass 1 on one email. *)
Definition pass1_step (env : Env) (w : World) (userId : jsstring)
    (st : SyncState) (email : EmailData) : SyncState :=
  if w_lookup_throws w email then count_error st
  else if isEmailProcessed (store st) userId (em_messageId email) then
    count_duplicate st
  else
    let regexResult := parseEmailWithRegex env (options_of email) in
    let id := w_uuid w (uuids_used st) in
    match pr_success regexResult, pr_transaction regexResult,
          pr_needsLLMFallback regexResult with
    | true, Some tx, (Some false | None) =>
        mkSync (newTransactions st) (duplicates st) (errors st)
          (S (regexParsed st)) (llmParsed st)
          (parsedEmails st ++
             [mkParsedEmail id (em_messageId email) (em_subject email) tx])
          (emailsNeedingLLM st) (S (uuids_used st))
          (parser_calls st ++ [email]) (store st)
    | _, _, _ =>
        mkSync (newTransactions st) (duplicates st) (errors st)
          (regexParsed st) (llmParsed st) (parsedEmails st)
          (emailsNeedingLLM st ++
             [mkNeedingLLM id email (pr_transaction regexResult)])
          (S (uuids_used st)) (parser_calls st ++ [email]) (store st)
    end.

Definition pass1 (env : Env) (w : World) (userId : jsstring)
    (emails : list EmailData) (st : SyncState) : SyncState :=
  fold_left (pass1_step env w userId) emails st.

Definition to_parse (item : NeedingLLM) : EmailToParse :=
  mkEmailToParse (nl_id item) (em_body (nl_email item))
    (em_subject (nl_email item)) (em_date (nl_email item))
    (em_bank (nl_email item)).

Definition parsed_email_of (item : NeedingLLM) (tx : ParsedTransaction)
    : ParsedEmail :=
  mkParsedEmail (nl_id item) (em_messageId (nl_email item))
    (em_subject (nl_email item)) tx.

(** Pass 2 on one email, given the oracle's results ([None] when there is
    no credential). *)
Definition pass2_step (llmResults : option (gmap jsstring ParserResult))
    (st : SyncState) (item : NeedingLLM) : SyncState :=
  let llmTx :=
    match llmResults with
    | Some results =>
        match results !! nl_id item with
        | Some llmResult =>
            if pr_success llmResult then pr_transaction llmResult else None
        | None => None
        end
    | None => None
    end in
  match llmTx, nl_regexResult item with
  | Some tx, _ =>
      mkSync (newTransactions st) (duplicates st) (errors st) (regexParsed st)
        (S (llmParsed st)) (parsedEmails st ++ [parsed_email_of item tx])
        (emailsNeedingLLM st) (uuids_used st) (parser_calls st) (store st)
  | None, Some tx =>
      mkSync (newTransactions st) (duplicates st) (errors st)
        (S (regexParsed st)) (llmParsed st)
        (parsedEmails st ++ [parsed_email_of item tx])
        (emailsNeedingLLM st) (uuids_used st) (parser_calls st) (store st)
  | None, None => count_error st
  end.

Definition pass2 (env : Env) (w : World) (openaiApiKey : option jsstring)
    (st : SyncState) : SyncState :=
  match emailsNeedingLLM st with
  | [] => st
  | _ :: _ =>
      if key_present openaiApiKey then
        let llmResults :=
          fst (batchParseLLMFallback env (w_llm w)
                 (map to_parse (emailsNeedingLLM st)) openaiApiKey) in
        fold_left (pass2_step (Some llmResults)) (emailsNeedingLLM st) st
      else fold_left (pass2_step None) (emailsNeedingLLM st) st
  end.

(** The categorization attached to a candidate in step 3. *)
Definition categorization_of
    (categorizationResults : gmap jsstring CategorizationResult)
    (email : ParsedEmail) : CategorizationResult :=
  match categorizationResults !! pe_id email with
  | Some c => c
  | None => mkCat None (tx_merchant (pe_parsed email)) None n0_3
  end.

Definition row_of (userId : jsstring) (email : ParsedEmail)
    (categorization : CategorizationResult) : Transaction :=
  mkTransaction (pe_id email) userId (tx_amount (pe_parsed email))
    (tx_type (pe_parsed email)) (tx_merchant (pe_parsed email))
    (cr_cleanMerchant categorization) (cr_categoryId categorization)
    (cr_subcategory categorization) (tx_date (pe_parsed email))
    (tx_bank (pe_parsed email)) (tx_reference (pe_parsed email))
    (Some (pe_emailMessageId email)) (Some (pe_emailSubject email))
    (Math_min (tx_confidence (pe_parsed email)) (cr_confidence categorization))
    false.

(** Step 3 on one candidate: the [try] block and its [catch]. *)
Definition persist_step (w : World) (userId : jsstring)
    (categorizationResults : gmap jsstring CategorizationResult)
    (st : SyncState) (email : ParsedEmail) : SyncState :=
  let categorization := categorization_of categorizationResults email in
  if w_query_throws w email then count_error st
  else if existingByContent (store st) userId (pe_parsed email) then
    count_duplicate st
  else
    let row := row_of userId email categorization in
    if w_insert_throws w (store st) row then count_error st
    else
      mkSync (S (newTransactions st)) (duplicates st) (errors st)
        (regexParsed st) (llmParsed st) (parsedEmails st)
        (emailsNeedingLLM st) (uuids_used st) (parser_calls st)
        (store st ++ [row]).

Definition to_categorize (e : ParsedEmail) : TxToCategorize :=
  mkToCat (pe_id e) (tx_merchant (pe_parsed e)) (tx_amount (pe_parsed e))
    (tx_type (pe_parsed e)).

Definition categorize_all (w : World) (openaiApiKey : option jsstring)
    (st : SyncState) : gmap jsstring CategorizationResult :=
  batchCategorize (w_categories w) (w_cat w)
    (map to_categorize (parsedEmails st)) openaiApiKey.

Definition persist (w : World) (userId : jsstring)
    (openaiApiKey : option jsstring) (st : SyncState) : SyncState :=
  fold_left (persist_step w userId (categorize_all w openaiApiKey st))
    (parsedEmails st) st.

(** The body of the run, from the fetched emails to the final state.
    What precedes it (the session, the settings, the mail fetch) and the
    catalog query and watermark update around it abort the whole run when
    they throw, and no counts are returned then; exceptions inside the
    loops are those of the store, which the loops catch and count. *)
Definition run_sync (env : Env) (w : World) (userId : jsstring)
    (openaiApiKey : option jsstring) (db : list Transaction)
    (emails : list EmailData) : SyncState :=
  persist w userId openaiApiKey
    (pass2 env w openaiApiKey
       (pass1 env w userId emails (initial_state db))).

(** The counts of the JSON response. *)
Record SyncResponse := mkResponse {
  r_newTransactions : nat;
  r_duplicates : nat;
  r_errors : nat;
  r_totalProcessed : nat;
  r_regex : nat;
  r_llm : nat;
}.

Definition POST (env : Env) (w : World) (userId : jsstring)
    (openaiApiKey : option jsstring) (db : list Transaction)
    (emails : list EmailData) : SyncResponse :=
  let st := run_sync env w userId openaiApiKey db emails in
  mkResponse (newTransactions st) (duplicates st) (errors st) (length emails)
    (regexParsed st) (llmParsed st).

(* ===================================================================== *)
(** ** Bank senders (types/index.ts, lib/gmail/query.ts) *)
(* ===================================================================== *)

(** [BANK_SENDERS], in the order [Object.entries] enumerates it. *)
Definition BANK_SENDERS : list (Bank * list jsstring) :=
  [ (HDFC, [lit "alerts@hdfcbank.net"; lit "alerts@hdfcbank.com"]);
    (SIB, [lit "alerts@sib.co.in"; lit "noreply@sib.co.in";
           lit "alerts@southindianbank.com"]);
    (ICICI, [lit "alerts@icicibank.com"; lit "creditcard@icicibank.com"]);
    (AXIS, [lit "alerts@axisbank.com"]);
    (KOTAK, [lit "alerts@kotak.com"]);
    (YES, [lit "alerts@yesbank.in"]);
    (UNKNOWN, []) ].

(** [getAllBankSenders()] *)
Definition getAllBankSenders : list jsstring :=
  List.filter str_truthy (concat (map snd BANK_SENDERS)).

(** The loop of [detectBankFromSender] over the entries. *)
Fixpoint detect_loop (email : jsstring) (entries : list (Bank * list jsstring))
    : Bank :=
  match entries with
  | [] => UNKNOWN
  | (bank, senders) :: entries' =>
      if existsb (fun s => includes email (toLowerCase s)) senders then bank
      else detect_loop email entries'
  end.

Definition detectBankFromSender (sender : jsstring) : Bank :=
  let email := toLowerCase sender in
  detect_loop email BANK_SENDERS.

(* ===================================================================== *)
(** ** The stored credential (app/api/settings/route.ts) *)
(* ===================================================================== *)

(** A field of a JSON request body: absent, [null], a string, or another
    value, of which only the truthiness matters here. *)
Inductive JsonField :=
| JAbsent
| JNull
| JString (s : jsstring)
| JOther (truthy : bool).

Definition bullets (n : nat) : jsstring := repeat 8226%N n.

(** [s.slice(-n)] *)
Definition slice_last (n : nat) (s : jsstring) : jsstring :=
  drop (length s - n) s.

(** The [openaiApiKey] field of the response of [GET]. *)
Definition masked_key (stored : option jsstring) : option jsstring :=
  match stored with
  | Some key =>
      if str_truthy key then Some (bullets 8 ++ slice_last 4 key) else None
  | None => None
  end.

(** What [PUT] does with the [openaiApiKey] field of its body: it throws
    (a truthy value that is not a string has no [startsWith]), or it
    leaves the column out of the update, or it puts a new key in it. *)
Inductive KeyUpdate :=
| UpdateThrows
| KeepKey
| SetKey (key : jsstring).

Definition key_update (field : JsonField) : KeyUpdate :=
  match field with
  | JAbsent => KeepKey
  | JNull => KeepKey
  | JString s =>
      if str_truthy s && negb (starts_with (bullets 4) s) then SetKey s
      else KeepKey
  | JOther truthy => if truthy then UpdateThrows else KeepKey
  end.

(** The [openaiApiKey] column of the user's row after [PUT], when the
    store accesses succeed: [None] when there is no row, [Some None] for a
    row without a key.  A request that throws changes nothing. *)
Definition key_after_PUT (row : option (option jsstring)) (field : JsonField)
    : option (option jsstring) :=
  match key_update field, row with
  | UpdateThrows, _ => row
  | KeepKey, None => Some None
  | KeepKey, Some stored => Some stored
  | SetKey key, _ => Some (Some key)
  end.

(** The field a client sends back when it returns what [GET] showed. *)
Definition field_of (shown : option jsstring) : JsonField :=
  match shown with Some s => JString s | None => JNull end.

(* ===================================================================== *)
(** ** Concrete inputs used by the examples *)
(* ===================================================================== *)

(** 10 January 2026, 00:00, as [Date.now()]. *)
Definition now_2026_01_10 : Z := days_from_civil 2026 1 10 * ms_per_day.

(** An environment in which the clock reads 10 January 2026, html-to-text
    is never needed (the bodies below are plain text), date-fns is the
    model above and the built-in date parser recognizes nothing. *)
Definition example_env : Env :=
  mkEnv now_2026_01_10 (fun s => s) (datefns_parse 2026) (fun _ => InvalidDate).

Definition zepto_body : jsstring :=
  lit "Rs.169.00 debited from your account to pinelabs.10372375@pineaxis ZEPTO MARKETPLACE PRIVATE LIMITED on 04-01-26".

Definition first_three_formats : list jsstring :=
  [lit "dd-MMM-yyyy"; lit "dd-MMM-yy"; lit "dd/MM/yyyy"].

Definition last_six_formats : list jsstring :=
  [lit "dd/MM/yy"; lit "dd-MM-yy"; lit "yyyy-MM-dd"; lit "MMM dd, yyyy";
   lit "dd MMM yyyy"; lit "dd MMM yy"].

(** A body the HDFC parser reads an amount and a type from, but no
    merchant. *)
Definition no_merchant_body : jsstring := lit "Rs.100.00 debited".

Definition no_merchant_options : ParseEmailOptions :=
  mkOptions no_merchant_body [] InvalidDate HDFC.

Definition shop_reply : LLMParseResult :=
  mkLLMParse (Some (num_of_Z 100)) (Some (lit "debit")) (Some (lit "Shop"))
    None None.

Definition shop_oracle : jsstring -> jsstring -> Completion LLMParseResult :=
  fun _ _ => Json shop_reply.

Definition some_key : option jsstring := Some (lit "sk-test").

(** An email of a bank without a parser of its own, which the generic
    parser reads with merchant "Acme" and confidence 0.9. *)
Definition acme_options : ParseEmailOptions :=
  mkOptions (lit "Your account was debited Rs. 500 at Acme on 04-01-26") []
    InvalidDate ICICI.


(** The set of ids of a list of emails to parse. *)
Definition email_ids (emails : list EmailToParse) : gset jsstring :=
  list_to_set (map ep_id emails).

Definition not_configured : ParserResult :=
  llm_failure (lit "OpenAI API key not configured") (Some true).

Definition two_emails : list EmailToParse :=
  [ mkEmailToParse (lit "id-1") no_merchant_body [] InvalidDate HDFC;
    mkEmailToParse (lit "id-2") no_merchant_body [] InvalidDate SIB ].

Definition silent_oracle : BatchOracle EmailToParse BatchLLMParseResult :=
  fun _ _ => Json [].

(** The state of a run after the two parsing passes. *)
Definition parsed_state (env : Env) (w : World) (userId : jsstring)
    (openaiApiKey : option jsstring) (db : list Transaction)
    (emails : list EmailData) : SyncState :=
  pass2 env w openaiApiKey (pass1 env w userId emails (initial_state db)).

(** The emails of a run that pass 1 finds already persisted. *)
Definition message_duplicates (w : World) (db : list Transaction)
    (userId : jsstring) (emails : list EmailData) : list EmailData :=
  List.filter (fun e => negb (w_lookup_throws w e)
                        && isEmailProcessed db userId (em_messageId e)) emails.

(** The number of emails of a state that pass 1 has settled or queued. *)
Definition settled (st : SyncState) : nat :=
  (duplicates st + errors st + length (parsedEmails st)
   + length (emailsNeedingLLM st))%nat.

Definition quiet_world : World :=
  mkWorld silent_oracle (fun _ _ => Json []) [] (fun _ => lit "uuid")
    (fun _ => false) (fun _ => false) (fun _ _ => false).

Definition stored_row : Transaction :=
  mkTransaction (lit "row-1") (lit "user-1") (num_of_Z 100) DEBIT (lit "Shop")
    (lit "Shop") None None InvalidDate HDFC None (Some (lit "msg-1")) None n0_7
    false.


(** [0 <= x && x <= 1] *)
Definition in_unit_interval (x : number) : bool :=
  num_le num_zero x && num_le x n1.

Definition sample_catalog : list Category :=
  [ mkCategory (lit "c-food") (lit "Food");
    mkCategory (lit "c-other") (lit "Other") ].

Definition sample_transactions : list TxToCategorize :=
  [ mkToCat (lit "t1") (lit "ZEPTO") (num_of_Z 16900) DEBIT ].

(** A reply for transaction "t1" with a given category id and confidence. *)
Definition reply_for_t1 (categoryId : string) (confidence : number) : CatReply :=
  mkCatReply (Some (lit "t1")) (Some (lit categoryId)) (Some (lit "Zepto")) None
    (Some confidence).

Definition batch_reply (categoryId : string) (confidence : number)
    : BatchOracle TxToCategorize CatReply :=
  fun _ _ => Json [Some (reply_for_t1 categoryId confidence)].

Definition single_reply (categoryId : string) (confidence : number)
    : jsstring -> number -> TransactionType -> Completion CatReply :=
  fun _ _ _ => Json (reply_for_t1 categoryId confidence).

(** An email with a decimal amount, in a form both the HDFC pattern and the
    generic amount patterns match. *)
Definition decimal_amount_body : jsstring :=
  lit "Rs. 1,234.56 debited from your account to JOHN on 04-01-26".

Definition confidences_in_unit (results : gmap jsstring CategorizationResult)
    : Prop :=
  map_Forall (fun _ c => in_unit_interval (cr_confidence c) = true) results.

(** What steps 1b and 3 keep and what they count. *)
Definition tally (st : SyncState) : nat :=
  (newTransactions st + duplicates st + errors st)%nat.

(** Every class of [r] holds only units that satisfy [P]. *)
Fixpoint chars_in (P : N -> Prop) (r : regex) : Prop :=
  match r with
  | Chr p => forall c, p c = true -> P c
  | Seq a b | Alt a b => chars_in P a /\ chars_in P b
  | Rep _ _ _ a | Grp _ a => chars_in P a
  | Eps | Bol | Eol | WordB => True
  end.

(** Every occurrence of group [i] in [r] matches only units that satisfy
    [P]. *)
Fixpoint group_chars_in (P : N -> Prop) (i : nat) (r : regex) : Prop :=
  match r with
  | Grp j a => (j = i -> chars_in P a) /\ group_chars_in P i a
  | Seq a b | Alt a b => group_chars_in P i a /\ group_chars_in P i b
  | Rep _ _ _ a => group_chars_in P i a
  | Chr _ | Eps | Bol | Eol | WordB => True
  end.

Definition cap_ok (P : N -> Prop) (i : nat) (c : caps) : Prop :=
  forall s, c i = Some s -> Forall P s.

(** What a matcher owes its continuation: it calls it further along the
    subject, having consumed only units of its classes and captured in
    group [i] only units of that group's classes. *)
Definition matcher_spec (P : N -> Prop) (i : nat) (Q G : Prop)
    (step : pos -> caps -> cont -> option (pos * caps)) : Prop :=
  forall st c k res,
    step st c k = Some res ->
    exists pre st' c',
      rest st = pre ++ rest st' /\
      k st' c' = Some res /\
      (Q -> Forall P pre) /\
      (G -> cap_ok P i c -> cap_ok P i c').

(** NaN, or a number whose sign bit is [sx]. *)
Definition sign_is (sx : bool) (x : number) : Prop :=
  match x with
  | S754_nan => True
  | S754_zero s | S754_infinity s | S754_finite s _ _ => s = sx
  end.

Definition not_minus (c : N) : Prop := c <> 45%N.

Definition zepto_options : ParseEmailOptions :=
  mkOptions zepto_body [] InvalidDate HDFC.

(** A matcher looks at its continuation only at positions no further
    from the end of the subject than its own. *)
Definition matcher_local
    (step : pos -> caps -> cont -> option (pos * caps)) : Prop :=
  forall st c k1 k2,
    (forall st' c', (length (rest st') <= length (rest st))%nat ->
                    k1 st' c' = k2 st' c') ->
    step st c k1 = step st c k2.

(** *** Predicates and inputs of the further properties *)


(** The set of ids of a list of transactions to categorize. *)
Definition tx_ids (transactions : list TxToCategorize) : gset jsstring :=
  list_to_set (map tc_id transactions).

(** A category id that post-validation lets through: null, or the id of a
    category of the catalog. *)
Definition in_catalog (allCategories : list Category) (id : option jsstring)
    : Prop :=
  match id with
  | None => True
  | Some i => exists cat, cat ∈ allCategories /\ cat_id cat = i
  end.

(** An oracle whose every request fails (throws, or answers nothing). *)
Definition oracle_down {I O} (oracle : BatchOracle I O) : Prop :=
  forall i batch,
    match oracle i batch with Json _ => False | _ => True end.

(** What an outcome of the batched fallback looks like, for the emails it
    was asked about: always tagged [usedLLM]; a success carries no error
    and a transaction of confidence 0.7 with the bank of an input email of
    that id; a failure carries an error and no transaction. *)
Definition llm_outcome_ok (emails : list EmailToParse) (id : jsstring)
    (r : ParserResult) : Prop :=
  pr_usedLLM r = Some true /\
  if pr_success r then
    exists tx email,
      pr_transaction r = Some tx /\ pr_error r = None /\
      email ∈ emails /\ ep_id email = id /\
      tx_bank tx = ep_bank email /\
      tx_confidence tx = n0_7
  else pr_transaction r = None /\ is_Some (pr_error r).

(** An oracle that reads the transaction of [shop_reply] in the email
    "id-1" and says nothing of any other. *)
Definition shop_batch_oracle : BatchOracle EmailToParse BatchLLMParseResult :=
  fun _ _ => Json [Some (mkBatchLLMParse (Some (lit "id-1")) shop_reply)].

(** Two result maps that agree on a set of ids. *)
Definition agree_on (ids : gset jsstring) (r1 r2 : gmap jsstring ParserResult)
    : Prop :=
  forall id, id ∈ ids -> r1 !! id = r2 !! id.

(** Thirty emails with distinct ids, enough for two batches. *)
Definition thirty_emails : list EmailToParse :=
  map (fun i => mkEmailToParse [N.of_nat i] no_merchant_body [] InvalidDate HDFC)
    (List.seq 0 30).

(** An oracle whose second request throws "503" and whose other requests
    answer nothing about any email. *)
Definition second_request_throws
    : BatchOracle EmailToParse BatchLLMParseResult :=
  fun i _ => if Nat.eqb i 1 then Throws (Some (lit "503")) else Json [].

(** A [ParserResult] is a tagged union: a success with a transaction and no
    error, or a failure with an error and no transaction. *)
Definition well_tagged (r : ParserResult) : Prop :=
  (pr_success r = true /\ is_Some (pr_transaction r) /\ pr_error r = None) \/
  (pr_success r = false /\ pr_transaction r = None /\ is_Some (pr_error r)).

(** The content-duplicate query of step 3, asked about a row. *)
Definition row_is_content_duplicate (db : list Transaction) (userId : jsstring)
    (t : Transaction) : bool :=
  existsb (fun u => str_eqb (t_userId u) userId
                    && SFeqb (t_amount u) (t_amount t)
                    && str_eqb (t_rawMerchant u) (t_rawMerchant t)
                    && same_timestamp (t_transactionDate u) (t_transactionDate t))
    db.

(** Rows appended one after the other to [base], none of which the
    content-duplicate query found among the rows stored before it. *)
Fixpoint fresh_rows (userId : jsstring) (base inserted : list Transaction)
    : Prop :=
  match inserted with
  | [] => True
  | t :: rest =>
      row_is_content_duplicate base userId t = false /\
      fresh_rows userId (base ++ [t]) rest
  end.

(** A message id and subject taken from a fetched email that was not
    persisted when the run started. *)
Definition from_fetched (db : list Transaction) (userId : jsstring)
    (emails : list EmailData) (messageId subject : jsstring) : Prop :=
  exists email,
    email ∈ emails /\ em_messageId email = messageId /\
    em_subject email = subject /\
    isEmailProcessed db userId messageId = false.

(** The ids handed out so far, in the two lists of pass 1. *)
Definition ids_in_use (st : SyncState) : list jsstring :=
  map pe_id (parsedEmails st) ++ map nl_id (emailsNeedingLLM st).

(** Two emails with the same amount, merchant and date. *)
Definition twin_emails : list EmailData :=
  [ mkEmail (lit "msg-2") [] [] zepto_body InvalidDate HDFC;
    mkEmail (lit "msg-3") [] [] zepto_body InvalidDate HDFC ].

(** Two emails of different transactions. *)
Definition distinct_emails : list EmailData :=
  [ mkEmail (lit "msg-4") [] [] zepto_body InvalidDate HDFC;
    mkEmail (lit "msg-5") [] [] (op_body acme_options) InvalidDate ICICI ].

(** Where a stored row comes from: the user of the run, not yet verified,
    message id and subject of a fetched email not persisted before. *)
Definition row_from_run (db : list Transaction) (userId : jsstring)
    (emails : list EmailData) (t : Transaction) : Prop :=
  t_userId t = userId /\ t_isVerified t = false /\
  exists messageId subject,
    t_emailMessageId t = Some messageId /\
    t_rawEmailSubject t = Some subject /\
    from_fetched db userId emails messageId subject.

(** A source of ids that never repeats itself. *)
Definition counter_uuid (i : nat) : jsstring := [N.of_nat i].

Definition counting_world : World :=
  mkWorld silent_oracle (fun _ _ => Json []) [] counter_uuid
    (fun _ => false) (fun _ => false) (fun _ _ => false).

(** A candidate that carries what the deterministic parser read in a
    fetched email whose message id is not persisted in [db]. *)
Definition candidate_of (env : Env) (db : list Transaction) (userId : jsstring)
    (emails : list EmailData) (pe : ParsedEmail) : Prop :=
  exists e,
    e ∈ emails /\
    isEmailProcessed db userId (em_messageId e) = false /\
    pe_emailMessageId pe = em_messageId e /\
    pr_transaction (parseEmailWithRegex env (options_of e)) = Some (pe_parsed pe).

(** A queued email, with the deterministic result kept beside it. *)
Definition queued_of (env : Env) (db : list Transaction) (userId : jsstring)
    (emails : list EmailData) (item : NeedingLLM) : Prop :=
  nl_email item ∈ emails /\
  isEmailProcessed db userId (em_messageId (nl_email item)) = false /\
  nl_regexResult item
  = pr_transaction (parseEmailWithRegex env (options_of (nl_email item))).

(** No access to the store throws. *)
Definition store_never_throws (w : World) : Prop :=
  (forall e, w_lookup_throws w e = false) /\
  (forall e, w_query_throws w e = false) /\
  (forall rows row, w_insert_throws w rows row = false).

(** With the formats of [DATE_FORMATS], the format parser never yields a
    negative year. *)
Definition years_nonneg (env : Env) : Prop :=
  forall s,
    Forall (fun fmt => 0 <= getFullYear (env_parse env s fmt)) DATE_FORMATS.

(** A date the built-in constructor produced. *)
Definition from_native (env : Env) (d : Date) : Prop :=
  exists s, d = env_native env s.

(** A body in which "<" is followed by one or more units other than ">"
    and then by ">". *)
Definition tag_shaped (body : jsstring) : Prop :=
  exists before inside after,
    body = before ++ 60%N :: inside ++ 62%N :: after /\
    inside <> [] /\ Forall (fun c => c <> 62%N) inside.

(** No white space at either end. *)
Definition trimmed (s : jsstring) : Prop :=
  (forall c t, s = c :: t -> is_space c = false) /\
  (forall c, last s = Some c -> is_space c = false).

Definition no_tab (s : jsstring) : Prop := Forall (fun c => c <> 9%N) s.

(* ===================================================================== *)
(** * Properties *)
(* ===================================================================== *)

(** ** C8: the HDFC example of the specification *)

(** C8: parsing the body "Rs.169.00 debited from your account to
    pinelabs.10372375@pineaxis ZEPTO MARKETPLACE PRIVATE LIMITED on
    04-01-26" with the HDFC parser succeeds, with amount 16900 paise, type
    debit, merchant "ZEPTO MARKETPLACE PRIVATE LIMITED" and reference
    "UPI/pinelabs.10372375@pineaxis"; this holds whatever the environment,
    the subject and the email's own date are. *)
Theorem hdfc_zepto_example (env : Env) (subject : jsstring) (emailDate : Date) :
  let r := hdfc.parseHDFCEmail env zepto_body subject emailDate in
  pr_success r = true /\
  exists tx,
    pr_transaction r = Some tx /\
    num_to_Z (tx_amount tx) = Some 16900 /\
    tx_type tx = DEBIT /\
    tx_merchant tx = lit "ZEPTO MARKETPLACE PRIVATE LIMITED" /\
    tx_reference tx = Some (lit "UPI/pinelabs.10372375@pineaxis").
Proof.
  assert (Htext : extractEmailText env zepto_body = zepto_body).
  { unfold extractEmailText.
    replace (test _ zepto_body) with false by (vm_compute; reflexivity).
    vm_compute; reflexivity. }
  cbv zeta. unfold hdfc.parseHDFCEmail. rewrite Htext.
  replace (hdfc.is_declined (toLowerCase zepto_body)) with false
    by (vm_compute; reflexivity).
  replace (hdfc.transaction_type (toLowerCase zepto_body)) with (Some DEBIT)
    by (vm_compute; reflexivity).
  replace (hdfc.find_amount zepto_body)
    with (Some (Math_round (num_mul (parseFloat (lit "169.00")) n100)))
    by (vm_compute; reflexivity).
  replace (num_truthy (Math_round (num_mul (parseFloat (lit "169.00")) n100)))
    with true by (vm_compute; reflexivity).
  cbn [negb pr_success pr_transaction succeed].
  split; [reflexivity|].
  eexists; split; [reflexivity|].
  unfold hdfc.build; cbn [tx_amount tx_type tx_merchant tx_reference].
  repeat split; vm_compute; reflexivity.
Qed.


(** ** C9: year normalization in [parseDate] *)

Lemma parse_formats_skip (env : Env) (cleaned : jsstring)
    (pre rest_ : list jsstring) :
  Forall (fun f => isValid (env_parse env cleaned f) = false) pre ->
  parse_formats env cleaned (pre ++ rest_) = parse_formats env cleaned rest_.
Proof.
  induction 1 as [|f pre Hf _ IH]; [reflexivity|].
  cbn [app parse_formats]. rewrite Hf. exact IH.
Qed.

Lemma getFullYear_setFullYear (dt : Date) (y : Z) :
  isValid dt = true -> getFullYear (setFullYear dt y) = y.
Proof.
  destruct dt as [|y0 mo d ms]; [discriminate|]. intros _. unfold setFullYear.
  destruct ((mo =? 2) && (d =? 29) && negb (is_leap y)); reflexivity.
Qed.

(** C9: when a format of [DATE_FORMATS] is the first to yield a valid
    date, [parseDate] returns that date with its year fixed: a year below
    100 gets +2000, a year from 1900 to 1999 gets +100, a year below 1900
    gets +2000 (and a year from 2000 on is kept).  With date-fns as
    modelled, "05-01-25" parses to 5 January 2025. *)
Theorem parseDate_two_digit_years :
  (forall (env : Env) (dateStr : jsstring) (pre post : list jsstring)
          (fmt : jsstring),
      str_truthy dateStr = true ->
      DATE_FORMATS = pre ++ fmt :: post ->
      Forall (fun f => isValid (env_parse env (trim dateStr) f) = false) pre ->
      isValid (env_parse env (trim dateStr) fmt) = true ->
      let parsed := env_parse env (trim dateStr) fmt in
      let year := getFullYear parsed in
      exists d,
        parseDate env dateStr = Some d /\
        (year < 100 -> getFullYear d = year + 2000) /\
        (1900 <= year < 2000 -> getFullYear d = year + 100) /\
        (year < 1900 -> getFullYear d = year + 2000) /\
        (2000 <= year -> d = parsed)) /\
  (forall (now refYear : Z) (html : jsstring -> jsstring)
          (native : jsstring -> Date),
      parseDate (mkEnv now html (datefns_parse refYear) native) (lit "05-01-25")
      = Some (ValidDate 2025 1 5 0)).
Proof.
  split.
  - intros env dateStr pre post fmt Hne Hfmts Hpre Hvalid parsed year.
    exists (fix_year parsed). split.
    + unfold parseDate. rewrite Hne. cbn [negb]. rewrite Hfmts.
      rewrite parse_formats_skip by exact Hpre.
      cbn [parse_formats]. rewrite Hvalid. reflexivity.
    + unfold fix_year. fold year.
      repeat split; intros Hy.
      * destruct (Z.ltb_spec year 100); [|lia].
        rewrite getFullYear_setFullYear by exact Hvalid. lia.
      * destruct (Z.ltb_spec year 100); [lia|].
        destruct (Z.leb_spec 1900 year); [|lia].
        destruct (Z.ltb_spec year 2000); [|lia].
        apply getFullYear_setFullYear; exact Hvalid.
      * destruct (Z.ltb_spec year 100).
        { rewrite getFullYear_setFullYear by exact Hvalid. lia. }
        destruct (Z.leb_spec 1900 year); [lia|]. cbn [andb].
        destruct (Z.ltb_spec year 1900); [|lia].
        apply getFullYear_setFullYear; exact Hvalid.
      * destruct (Z.ltb_spec year 100); [lia|].
        destruct (Z.leb_spec 1900 year); [|lia].
        destruct (Z.ltb_spec year 2000); [lia|]. cbn [andb].
        destruct (Z.ltb_spec year 1900); [lia|]. reflexivity.
  - intros now refYear html native. vm_compute. reflexivity.
Qed.

Lemma parseDate_two_digit_years_witness :
  exists d,
    parseDate example_env (lit "05-01-25") = Some d /\
    getFullYear d = 25 + 2000.
Proof.
  destruct (proj1 parseDate_two_digit_years example_env (lit "05-01-25")
              first_three_formats last_six_formats (lit "dd-MM-yyyy"))
    as (d & Hd & H100 & _).
  - reflexivity.
  - reflexivity.
  - repeat constructor.
  - reflexivity.
  - exists d. split; [exact Hd|]. apply H100. vm_compute. reflexivity.
Defined.

(** ** C1: every input id gets exactly one outcome *)

Lemma email_ids_cons (e : EmailToParse) (es : list EmailToParse) :
  email_ids (e :: es) = {[ep_id e]} ∪ email_ids es.
Proof. reflexivity. Qed.

Lemma email_ids_app (l1 l2 : list EmailToParse) :
  email_ids (l1 ++ l2) = email_ids l1 ∪ email_ids l2.
Proof. unfold email_ids. rewrite map_app. apply list_to_set_app_L. Qed.

Lemma email_ids_elem (e : EmailToParse) (es : list EmailToParse) :
  e ∈ es -> ep_id e ∈ email_ids es.
Proof.
  intros H. unfold email_ids. apply elem_of_list_to_set.
  apply list_elem_of_fmap. exists e. split; [reflexivity|exact H].
Qed.

Lemma batches_of_concat {A} (fuel size : nat) (l : list A) :
  (0 < size)%nat -> (length l <= fuel)%nat ->
  concat (batches_of fuel size l) = l.
Proof.
  intros Hsize. revert l.
  induction fuel as [|fuel IH]; intros l Hlen.
  - destruct l; [reflexivity|simpl in Hlen; lia].
  - destruct l as [|x l]; [reflexivity|].
    cbn [batches_of concat]. rewrite IH.
    + apply take_drop.
    + rewrite length_drop. simpl in *. lia.
Qed.

Lemma batches_concat {A} (size : nat) (l : list A) :
  (0 < size)%nat -> concat (batches size l) = l.
Proof. intros H. apply batches_of_concat; [exact H|lia]. Qed.

Lemma mark_missing_dom (msg : jsstring) (batch : list EmailToParse)
    (results : gmap jsstring ParserResult) :
  dom (mark_missing msg batch results) = dom results ∪ email_ids batch.
Proof.
  revert results. induction batch as [|e batch IH]; intros results.
  - cbn [mark_missing]. unfold email_ids. simpl. set_solver.
  - cbn [mark_missing]. rewrite IH, email_ids_cons.
    destruct (results !! ep_id e) eqn:E.
    + apply elem_of_dom_2 in E. set_solver.
    + rewrite dom_insert_L. set_solver.
Qed.

Lemma find_email_id (batch : list EmailToParse) (rid : jsstring)
    (email : EmailToParse) :
  List.find (fun e => str_eqb (ep_id e) rid) batch = Some email ->
  rid ∈ email_ids batch.
Proof.
  intros H. apply find_some in H. destruct H as [Hin Heq].
  unfold str_eqb in Heq. apply bool_decide_eq_true in Heq. subst rid.
  apply email_ids_elem. apply list_elem_of_In. exact Hin.
Qed.

Lemma llm_process_results_dom (env : Env) (batch : list EmailToParse)
    (items : list (option BatchLLMParseResult))
    (results : gmap jsstring ParserResult) :
  dom results ⊆ dom (fst (llm_process_results env batch items results)) /\
  dom (fst (llm_process_results env batch items results))
    ⊆ dom results ∪ email_ids batch.
Proof.
  revert results. induction items as [|item items IH]; intros results.
  - cbn. set_solver.
  - cbn [llm_process_results]. destruct item as [result|]; [|cbn; set_solver].
    destruct (bp_id result) as [rid|]; [|apply IH].
    destruct (List.find _ batch) as [email|] eqn:Hfind; [|apply IH].
    apply find_email_id in Hfind.
    destruct (required_fields (bp_fields result)) as [[[a t] m]|].
    + match goal with |- context [llm_process_results _ _ _ ?r] =>
        destruct (IH r) as [H1 H2] end.
      rewrite dom_insert_L in H1, H2. set_solver.
    + match goal with |- context [llm_process_results _ _ _ ?r] =>
        destruct (IH r) as [H1 H2] end.
      rewrite dom_insert_L in H1, H2. set_solver.
Qed.

Lemma llm_batch_step_dom (env : Env)
    (reply : Completion (list (option BatchLLMParseResult)))
    (batch : list EmailToParse) (results : gmap jsstring ParserResult) :
  dom (llm_batch_step env reply batch results) = dom results ∪ email_ids batch.
Proof.
  unfold llm_batch_step. destruct reply as [[message|]| |items];
    try apply mark_missing_dom.
  pose proof (llm_process_results_dom env batch items results) as [H1 H2].
  destruct (llm_process_results env batch items results) as [results' [message|]];
    cbn [fst] in H1, H2; rewrite mark_missing_dom; set_solver.
Qed.

Lemma llm_batch_loop_dom (env : Env)
    (oracle : BatchOracle EmailToParse BatchLLMParseResult) (i : nat)
    (bs : list (list EmailToParse)) (results : gmap jsstring ParserResult) :
  dom (llm_batch_loop env oracle i bs results)
  = dom results ∪ email_ids (concat bs).
Proof.
  revert i results. induction bs as [|batch bs IH]; intros i results.
  - cbn. unfold email_ids. simpl. set_solver.
  - cbn [llm_batch_loop concat]. rewrite IH, llm_batch_step_dom, email_ids_app.
    set_solver.
Qed.

Lemma set_all_unconfigured_dom (emails : list EmailToParse)
    (results : gmap jsstring ParserResult) :
  dom (set_all_unconfigured emails results) = dom results ∪ email_ids emails.
Proof.
  revert results. induction emails as [|e emails IH]; intros results.
  - cbn. unfold email_ids. simpl. set_solver.
  - cbn [set_all_unconfigured]. rewrite IH, dom_insert_L, email_ids_cons.
    set_solver.
Qed.

Lemma set_all_unconfigured_other (emails : list EmailToParse)
    (results : gmap jsstring ParserResult) (id : jsstring) :
  id ∉ email_ids emails ->
  set_all_unconfigured emails results !! id = results !! id.
Proof.
  revert results. induction emails as [|e emails IH]; intros results Hid.
  - reflexivity.
  - cbn [set_all_unconfigured]. rewrite email_ids_cons in Hid.
    rewrite IH by set_solver. apply lookup_insert_ne. set_solver.
Qed.

Lemma set_all_unconfigured_lookup (emails : list EmailToParse)
    (results : gmap jsstring ParserResult) (id : jsstring) :
  id ∈ email_ids emails ->
  set_all_unconfigured emails results !! id = Some not_configured.
Proof.
  revert results. induction emails as [|e emails IH]; intros results Hid.
  - unfold email_ids in Hid. simpl in Hid. set_solver.
  - cbn [set_all_unconfigured].
    destruct (decide (id ∈ email_ids emails)) as [Hin|Hout].
    + apply IH. exact Hin.
    + rewrite set_all_unconfigured_other by exact Hout.
      rewrite email_ids_cons in Hid.
      assert (id = ep_id e) as -> by set_solver.
      apply lookup_insert_eq.
Qed.

(** C1: whatever the oracle does (a request that throws, an empty
    content, a reply that omits ids, names foreign ids or holds a null
    element), the map returned by [batchParseLLMFallback] has exactly the
    ids of the input emails as keys, hence one outcome for each of them and
    none for any other id; without a credential every input id is mapped
    to the "OpenAI API key not configured" failure and no request is
    made. *)
Theorem batchParseLLMFallback_total (env : Env)
    (oracle : BatchOracle EmailToParse BatchLLMParseResult)
    (emails : list EmailToParse) (openaiApiKey : option jsstring) :
  dom (fst (batchParseLLMFallback env oracle emails openaiApiKey))
  = email_ids emails /\
  (key_present openaiApiKey = false ->
   snd (batchParseLLMFallback env oracle emails openaiApiKey) = [] /\
   forall email, email ∈ emails ->
     fst (batchParseLLMFallback env oracle emails openaiApiKey) !! ep_id email
     = Some not_configured).
Proof.
  split.
  - unfold batchParseLLMFallback.
    destruct (negb (key_present openaiApiKey) || Nat.eqb (length emails) 0).
    + cbn [fst]. rewrite set_all_unconfigured_dom, dom_empty_L. set_solver.
    + cbn [fst]. rewrite llm_batch_loop_dom, dom_empty_L.
      rewrite batches_concat by (unfold BATCH_SIZE_LLM; lia). set_solver.
  - intros Hkey. unfold batchParseLLMFallback. rewrite Hkey. cbn [negb orb fst snd].
    split; [reflexivity|]. intros email Hin.
    apply set_all_unconfigured_lookup, email_ids_elem, Hin.
Qed.

Lemma batchParseLLMFallback_total_witness :
  snd (batchParseLLMFallback example_env silent_oracle two_emails None) = [] /\
  forall email, email ∈ two_emails ->
    fst (batchParseLLMFallback example_env silent_oracle two_emails None)
      !! ep_id email = Some not_configured.
Proof.
  apply (batchParseLLMFallback_total example_env silent_oracle two_emails None).
  reflexivity.
Defined.

(** ** C2: the counts of a sync run *)

Lemma pass1_step_spec (env : Env) (w : World) (userId : jsstring)
    (st : SyncState) (email : EmailData) :
  let st' := pass1_step env w userId st email in
  let skipped :=
    w_lookup_throws w email
    || isEmailProcessed (store st) userId (em_messageId email) in
  store st' = store st /\
  newTransactions st' = newTransactions st /\
  settled st' = S (settled st) /\
  parser_calls st' = parser_calls st ++ (if skipped then [] else [email]) /\
  duplicates st' =
    (duplicates st +
     (if negb (w_lookup_throws w email)
         && isEmailProcessed (store st) userId (em_messageId email)
      then 1 else 0))%nat.
Proof.
  unfold pass1_step, settled.
  destruct (w_lookup_throws w email); cbn [orb negb andb].
  { cbn. rewrite app_nil_r. repeat split; lia. }
  destruct (isEmailProcessed (store st) userId (em_messageId email)).
  { cbn. rewrite app_nil_r. repeat split; lia. }
  repeat case_match; cbn; rewrite ?length_app; cbn; repeat split; lia.
Qed.

Lemma pass1_spec (env : Env) (w : World) (userId : jsstring)
    (emails : list EmailData) (st : SyncState) :
  let st' := pass1 env w userId emails st in
  store st' = store st /\
  newTransactions st' = newTransactions st /\
  settled st' = (settled st + length emails)%nat /\
  (forall e, e ∈ parser_calls st' ->
     e ∈ parser_calls st \/
     (e ∈ emails /\ isEmailProcessed (store st) userId (em_messageId e) = false)) /\
  duplicates st' =
    (duplicates st + length (message_duplicates w (store st) userId emails))%nat.
Proof.
  revert st. induction emails as [|email emails IH]; intros st.
  - cbn. repeat split; try lia. intros e He. left. exact He.
  - unfold pass1 in *. cbn [fold_left].
    destruct (pass1_step_spec env w userId st email)
      as (Hs & Hn & Hset & Hcalls & Hdup).
    destruct (IH (pass1_step env w userId st email))
      as (Hs' & Hn' & Hset' & Hcalls' & Hdup').
    cbv zeta in *. rewrite Hs in *.
    repeat split.
    + rewrite Hs'. reflexivity.
    + rewrite Hn', Hn. reflexivity.
    + rewrite Hset', Hset. cbn [length]. lia.
    + intros e He. apply Hcalls' in He. destruct He as [He|[He Hp]].
      * rewrite Hcalls in He. apply elem_of_app in He. destruct He as [He|He].
        { left. exact He. }
        right.
        destruct (w_lookup_throws w email); cbn [orb] in He;
          [apply elem_of_nil in He; contradiction|].
        destruct (isEmailProcessed (store st) userId (em_messageId email)) eqn:E;
          [apply elem_of_nil in He; contradiction|].
        apply list_elem_of_singleton in He. subst e.
        split; [apply list_elem_of_here|exact E].
      * right. split; [apply list_elem_of_further; exact He|exact Hp].
    + rewrite Hdup', Hdup. unfold message_duplicates. cbn [List.filter].
      destruct (negb (w_lookup_throws w email)
                && isEmailProcessed (store st) userId (em_messageId email));
        cbn [length]; lia.
Qed.

Lemma pass2_step_spec (llmResults : option (gmap jsstring ParserResult))
    (st : SyncState) (item : NeedingLLM) :
  let st' := pass2_step llmResults st item in
  store st' = store st /\
  parser_calls st' = parser_calls st /\
  duplicates st' = duplicates st /\
  emailsNeedingLLM st' = emailsNeedingLLM st /\
  (tally st' + length (parsedEmails st') = S (tally st + length (parsedEmails st)))%nat.
Proof.
  unfold pass2_step, tally.
  repeat case_match; cbn; rewrite ?length_app; cbn; repeat split; lia.
Qed.

Lemma pass2_fold_spec (llmResults : option (gmap jsstring ParserResult))
    (items : list NeedingLLM) (st : SyncState) :
  let st' := fold_left (pass2_step llmResults) items st in
  store st' = store st /\
  parser_calls st' = parser_calls st /\
  duplicates st' = duplicates st /\
  emailsNeedingLLM st' = emailsNeedingLLM st /\
  (tally st' + length (parsedEmails st')
   = tally st + length (parsedEmails st) + length items)%nat.
Proof.
  revert st. induction items as [|item items IH]; intros st.
  - cbn. repeat split; lia.
  - cbn [fold_left].
    destruct (pass2_step_spec llmResults st item) as (H1 & H2 & H3 & H4 & H5).
    destruct (IH (pass2_step llmResults st item)) as (H1' & H2' & H3' & H4' & H5').
    cbv zeta in *.
    rewrite H1', H2', H3', H4', H1, H2, H3, H4. repeat split.
    rewrite H5'. cbn [length]. lia.
Qed.

Lemma pass2_spec (env : Env) (w : World) (openaiApiKey : option jsstring)
    (st : SyncState) :
  let st' := pass2 env w openaiApiKey st in
  store st' = store st /\
  parser_calls st' = parser_calls st /\
  duplicates st' = duplicates st /\
  (tally st' + length (parsedEmails st')
   = tally st + length (parsedEmails st) + length (emailsNeedingLLM st))%nat.
Proof.
  unfold pass2. destruct (emailsNeedingLLM st) as [|item items] eqn:E.
  - cbn. repeat split; lia.
  - rewrite <- E.
    destruct (key_present openaiApiKey);
      match goal with |- context [fold_left (pass2_step ?r) _ _] =>
        destruct (pass2_fold_spec r (emailsNeedingLLM st) st)
          as (H1 & H2 & H3 & _ & H5) end;
      repeat split; assumption.
Qed.

Lemma persist_step_spec (w : World) (userId : jsstring)
    (cats : gmap jsstring CategorizationResult) (st : SyncState)
    (email : ParsedEmail) :
  let st' := persist_step w userId cats st email in
  parser_calls st' = parser_calls st /\
  (duplicates st <= duplicates st')%nat /\
  tally st' = S (tally st) /\
  (store st' = store st \/
   store st' = store st ++ [row_of userId email (categorization_of cats email)]).
Proof.
  unfold persist_step, tally.
  repeat case_match; cbn; repeat split; try lia; auto.
Qed.

Lemma persist_fold_spec (w : World) (userId : jsstring)
    (cats : gmap jsstring CategorizationResult)
    (candidates : list ParsedEmail) (st : SyncState) :
  let st' := fold_left (persist_step w userId cats) candidates st in
  parser_calls st' = parser_calls st /\
  (duplicates st <= duplicates st')%nat /\
  tally st' = (tally st + length candidates)%nat /\
  exists inserted,
    store st' = store st ++ inserted /\
    forall t, t ∈ inserted ->
      exists e, e ∈ candidates /\
                t = row_of userId e (categorization_of cats e).
Proof.
  revert st. induction candidates as [|email candidates IH]; intros st.
  - cbn. repeat split; try lia. exists []. rewrite app_nil_r.
    split; [reflexivity|]. intros t Ht. apply elem_of_nil in Ht. contradiction.
  - cbn [fold_left].
    destruct (persist_step_spec w userId cats st email) as (H1 & H2 & H3 & H4).
    destruct (IH (persist_step w userId cats st email))
      as (H1' & H2' & H3' & inserted & Hst & Hrows).
    cbv zeta in *. repeat split.
    + rewrite H1', H1. reflexivity.
    + lia.
    + rewrite H3', H3. cbn [length]. lia.
    + destruct H4 as [H4|H4]; rewrite H4 in Hst.
      * exists inserted. split; [exact Hst|].
        intros t Ht. destruct (Hrows t Ht) as (e & He & Heq).
        exists e. split; [apply list_elem_of_further; exact He|exact Heq].
      * exists (row_of userId email (categorization_of cats email) :: inserted).
        split; [rewrite Hst, <- app_assoc; reflexivity|].
        intros t Ht. apply elem_of_cons in Ht. destruct Ht as [->|Ht].
        { exists email. split; [apply list_elem_of_here|reflexivity]. }
        destruct (Hrows t Ht) as (e & He & Heq).
        exists e. split; [apply list_elem_of_further; exact He|exact Heq].
Qed.

Lemma parsed_state_spec (env : Env) (w : World) (userId : jsstring)
    (openaiApiKey : option jsstring) (db : list Transaction)
    (emails : list EmailData) :
  let st := parsed_state env w userId openaiApiKey db emails in
  store st = db /\
  (tally st + length (parsedEmails st) = length emails)%nat /\
  duplicates st = length (message_duplicates w db userId emails) /\
  (forall e, e ∈ parser_calls st ->
     e ∈ emails /\ isEmailProcessed db userId (em_messageId e) = false).
Proof.
  unfold parsed_state.
  destruct (pass1_spec env w userId emails (initial_state db))
    as (Hs & Hn & Hset & Hcalls & Hdup).
  destruct (pass2_spec env w openaiApiKey
              (pass1 env w userId emails (initial_state db)))
    as (Hs' & Hcalls' & Hdup' & Htally).
  cbv zeta in *. cbn [initial_state store parser_calls duplicates
                      newTransactions] in *.
  repeat split.
  - rewrite Hs', Hs. reflexivity.
  - rewrite Htally. unfold tally. unfold settled in Hset. cbn in Hset.
    rewrite Hn. lia.
  - rewrite Hdup', Hdup. reflexivity.
  - rewrite Hcalls' in H. apply Hcalls in H.
    destruct H as [H|H]; [apply elem_of_nil in H; contradiction|apply H].
  - rewrite Hcalls' in H. apply Hcalls in H.
    destruct H as [H|H]; [apply elem_of_nil in H; contradiction|apply H].
Qed.



(** ** C6: the confidence of a persisted transaction *)

(** C6: every row a run adds to the store is the row of one of the run's
    candidates, and its confidence is
    [min(parse.confidence, categorization.confidence)] for the parse result
    and the categorization attached to that candidate. *)
Theorem persisted_confidence (env : Env) (w : World) (userId : jsstring)
    (openaiApiKey : option jsstring) (db : list Transaction)
    (emails : list EmailData) :
  let st := parsed_state env w userId openaiApiKey db emails in
  let cats := categorize_all w openaiApiKey st in
  exists inserted,
    store (run_sync env w userId openaiApiKey db emails) = db ++ inserted /\
    forall t, t ∈ inserted ->
      exists e,
        e ∈ parsedEmails st /\
        t_id t = pe_id e /\
        t_emailMessageId t = Some (pe_emailMessageId e) /\
        t_confidence t =
          Math_min (tx_confidence (pe_parsed e))
                   (cr_confidence (categorization_of cats e)).
Proof.
  cbv zeta. unfold run_sync, persist.
  fold (parsed_state env w userId openaiApiKey db emails).
  destruct (parsed_state_spec env w userId openaiApiKey db emails)
    as (Hstore & _).
  set (st := parsed_state env w userId openaiApiKey db emails) in *.
  destruct (persist_fold_spec w userId (categorize_all w openaiApiKey st)
              (parsedEmails st) st) as (_ & _ & _ & inserted & Hst & Hrows).
  cbv zeta in *. exists inserted. split.
  - rewrite Hst, Hstore. reflexivity.
  - intros t Ht. destruct (Hrows t Ht) as (e & He & ->).
    exists e. repeat split. exact He.
Qed.

(** ** C5: the range of confidences *)

Lemma hdfc_confidence_in_unit (env : Env) (amount : number)
    (merchant : jsstring) (date : Date) :
  in_unit_interval (hdfc.calculateConfidence env amount merchant date) = true.
Proof.
  unfold hdfc.calculateConfidence.
  destruct (num_gt amount num_zero), (negb (str_eqb merchant Unknown)),
    (date_is_recent env date); vm_compute; reflexivity.
Qed.

Lemma sib_confidence_in_unit (env : Env) (amount : number)
    (merchant : jsstring) (date : Date) :
  in_unit_interval (sib.calculateConfidence env amount merchant date) = true.
Proof.
  unfold sib.calculateConfidence.
  destruct (num_gt amount num_zero), (negb (str_eqb merchant Unknown)),
    (date_is_recent env date); vm_compute; reflexivity.
Qed.

Lemma generic_confidence_in_unit (env : Env) (amount : number)
    (merchant : jsstring) (date : Date) (text : jsstring) :
  in_unit_interval (generic.calculateConfidence env amount merchant date text)
  = true.
Proof.
  unfold generic.calculateConfidence, generic.bankKeywords.
  cbn [List.filter].
  destruct (num_gt amount num_zero),
    (negb (str_eqb merchant Unknown) && Nat.ltb 3 (length merchant)),
    (date_is_recent env date),
    (includes (toLowerCase text) (lit "account")),
    (includes (toLowerCase text) (lit "balance")),
    (includes (toLowerCase text) (lit "transaction")),
    (includes (toLowerCase text) (lit "bank"));
    vm_compute; reflexivity.
Qed.

(** What a successful parse of each bank parser is made of. *)
Lemma parseHDFCEmail_success (env : Env) (body subject : jsstring)
    (emailDate : Date) (tx : ParsedTransaction) :
  pr_transaction (hdfc.parseHDFCEmail env body subject emailDate) = Some tx ->
  exists type amount,
    hdfc.find_amount (extractEmailText env body) = Some amount /\
    num_truthy amount = true /\
    tx = hdfc.build env (extractEmailText env body) emailDate type amount /\
    hdfc.parseHDFCEmail env body subject emailDate = succeed tx.
Proof.
  unfold hdfc.parseHDFCEmail. cbv zeta.
  destruct (hdfc.is_declined _); [discriminate|].
  destruct (hdfc.transaction_type _) as [type|]; [|discriminate].
  destruct (hdfc.find_amount _) as [amount|]; [|discriminate].
  destruct (num_truthy amount) eqn:Ht; [|discriminate].
  cbn. intros [= <-]. exists type, amount. auto.
Qed.

Lemma parseSIBEmail_success (env : Env) (body subject : jsstring)
    (emailDate : Date) (tx : ParsedTransaction) :
  pr_transaction (sib.parseSIBEmail env body subject emailDate) = Some tx ->
  exists type amountResult,
    extractAmount (extractEmailText env body) = Some amountResult /\
    tx = sib.build env (extractEmailText env body) emailDate type
           (ar_amount amountResult) /\
    sib.parseSIBEmail env body subject emailDate = succeed tx.
Proof.
  unfold sib.parseSIBEmail. cbv zeta.
  destruct (sib.transaction_type _) as [type|]; [|discriminate].
  destruct (extractAmount _) as [amountResult|]; [|discriminate].
  cbn. intros [= <-]. exists type, amountResult. auto.
Qed.

Lemma parseGenericBankEmail_success (env : Env) (body subject : jsstring)
    (emailDate : Date) (bank : Bank) (tx : ParsedTransaction) :
  pr_transaction (generic.parseGenericBankEmail env body subject emailDate bank)
  = Some tx ->
  exists type amountResult,
    or_else (extractAmount (extractEmailText env body)) (extractAmount subject)
    = Some amountResult /\
    tx = generic.build env (extractEmailText env body) emailDate bank type
           (ar_amount amountResult).
Proof.
  unfold generic.parseGenericBankEmail. cbv zeta.
  destruct (generic.transaction_type _ _) as [type|]; [|discriminate].
  destruct (or_else _ _) as [amountResult|]; [|discriminate].
  cbn. intros [= <-]. exists type, amountResult. auto.
Qed.

Lemma bank_parser_confidence_in_unit (env : Env) (options : ParseEmailOptions)
    (tx : ParsedTransaction) :
  pr_transaction (run_bank_parser env options) = Some tx ->
  in_unit_interval (tx_confidence tx) = true.
Proof.
  unfold run_bank_parser. intros H.
  destruct (op_bank options);
    try (apply parseGenericBankEmail_success in H;
         destruct H as (type & a & _ & ->); apply generic_confidence_in_unit).
  - apply parseHDFCEmail_success in H.
    destruct H as (type & a & _ & _ & -> & _).
    apply hdfc_confidence_in_unit.
  - apply parseSIBEmail_success in H. destruct H as (type & a & _ & -> & _).
    apply sib_confidence_in_unit.
Qed.

Lemma num_or_in_unit (x : option number) (d : number) :
  (forall c, x = Some c -> num_truthy c = true -> in_unit_interval c = true) ->
  in_unit_interval d = true ->
  in_unit_interval (num_or x d) = true.
Proof.
  intros Hx Hd. unfold num_or. destruct x as [v|]; [|exact Hd].
  destruct (num_truthy v) eqn:E; [apply Hx; [reflexivity|exact E]|exact Hd].
Qed.

Lemma n0_5_value : n0_5 = S754_finite false 4503599627370496 (-53).
Proof. vm_compute. reflexivity. Qed.

Lemma min_half_in_unit (c : number) :
  in_unit_interval c = true -> in_unit_interval (min_half (Some c)) = true.
Proof.
  unfold min_half. rewrite n0_5_value. intros H.
  destruct c as [s|s| |s m e]; cbn [default from_option id Math_min].
  - destruct s; vm_compute; reflexivity.
  - destruct s; vm_compute in H; discriminate.
  - vm_compute in H; discriminate.
  - match goal with |- context [if ?b then _ else _] => destruct b end;
      [exact H|vm_compute; reflexivity].
Qed.

Lemma default_categorization_in_unit (cats : list Category) (m : jsstring) :
  in_unit_interval (cr_confidence (default_categorization cats m)) = true.
Proof. vm_compute. reflexivity. Qed.

Lemma categorize_item_in_unit (cats : list Category)
    (batch : list TxToCategorize) (rid : jsstring) (result : CatReply) :
  (forall c, rp_confidence result = Some c -> in_unit_interval c = true) ->
  in_unit_interval (cr_confidence (categorize_item cats batch rid result)) = true.
Proof.
  intros H. unfold categorize_item. cbn [cr_confidence].
  destruct (valid_category cats (rp_categoryId result)).
  - apply num_or_in_unit; [|vm_compute; reflexivity].
    intros c Hc _. apply H. exact Hc.
  - vm_compute. reflexivity.
Qed.

Lemma cat_process_results_in_unit (cats : list Category)
    (batch : list TxToCategorize) (items : list (option CatReply))
    (results : gmap jsstring CategorizationResult) :
  (forall item c, Some item ∈ items -> rp_confidence item = Some c ->
                  in_unit_interval c = true) ->
  confidences_in_unit results ->
  confidences_in_unit (fst (cat_process_results cats batch items results)).
Proof.
  revert results. induction items as [|item items IH]; intros results Hi Hr.
  - exact Hr.
  - cbn [cat_process_results]. destruct item as [result|]; [|exact Hr].
    assert (Hrest : forall item c, Some item ∈ items ->
              rp_confidence item = Some c -> in_unit_interval c = true).
    { intros it c Hin. apply Hi. apply list_elem_of_further. exact Hin. }
    destruct (rp_id result) as [rid|]; [|apply IH; assumption].
    apply IH; [exact Hrest|].
    apply map_Forall_insert_2; [|exact Hr].
    apply categorize_item_in_unit. intros c. apply Hi. apply list_elem_of_here.
Qed.

Lemma cat_fill_missing_in_unit (cats : list Category)
    (batch : list TxToCategorize)
    (results : gmap jsstring CategorizationResult) :
  confidences_in_unit results ->
  confidences_in_unit (cat_fill_missing cats batch results).
Proof.
  revert results. induction batch as [|tx batch IH]; intros results Hr.
  - exact Hr.
  - cbn [cat_fill_missing]. apply IH.
    destruct (results !! tc_id tx); [exact Hr|].
    apply map_Forall_insert_2; [|exact Hr].
    apply default_categorization_in_unit.
Qed.

Lemma cat_set_defaults_in_unit (cats : list Category)
    (transactions : list TxToCategorize)
    (results : gmap jsstring CategorizationResult) :
  confidences_in_unit results ->
  confidences_in_unit (cat_set_defaults cats transactions results).
Proof.
  revert results. induction transactions as [|tx txs IH]; intros results Hr.
  - exact Hr.
  - cbn [cat_set_defaults]. apply IH.
    apply map_Forall_insert_2; [|exact Hr].
    apply default_categorization_in_unit.
Qed.

Lemma cat_batch_loop_in_unit (cats : list Category)
    (oracle : BatchOracle TxToCategorize CatReply) (i : nat)
    (bs : list (list TxToCategorize))
    (results : gmap jsstring CategorizationResult) :
  (forall j batch items item c,
      oracle j batch = Json items -> Some item ∈ items ->
      rp_confidence item = Some c -> in_unit_interval c = true) ->
  confidences_in_unit results ->
  confidences_in_unit (cat_batch_loop cats oracle i bs results).
Proof.
  intros Ho. revert i results.
  induction bs as [|batch bs IH]; intros i results Hr.
  - exact Hr.
  - cbn [cat_batch_loop]. apply IH. unfold cat_batch_step.
    destruct (oracle i batch) as [message| |items] eqn:E;
      try (apply cat_fill_missing_in_unit; exact Hr).
    apply cat_fill_missing_in_unit, cat_process_results_in_unit; [|exact Hr].
    intros item c. apply (Ho i batch items). exact E.
Qed.

(** C5, counterexample: an oracle that answers a valid category with
    confidence 1.5 makes [batchCategorize] return confidence 1.5. *)
Lemma categorization_confidence_above_one :
  exists c,
    batchCategorize sample_catalog (batch_reply "c-food" (decimal 15 1))
      sample_transactions some_key !! lit "t1" = Some c /\
    cr_confidence c = decimal 15 1 /\
    in_unit_interval (cr_confidence c) = false.
Proof.
  eexists. split; [vm_compute; reflexivity|].
  split; vm_compute; reflexivity.
Qed.

(** C5, as amended: the confidence of every successful parse of a bank
    parser lies in [0, 1]; every confidence returned by the categorization
    engine (batch or single) lies in [0, 1] provided each confidence the
    oracle replies with does. *)
Theorem confidences_within_unit_interval :
  (forall (env : Env) (options : ParseEmailOptions) (tx : ParsedTransaction),
      pr_transaction (run_bank_parser env options) = Some tx ->
      in_unit_interval (tx_confidence tx) = true) /\
  (forall (cats : list Category) (oracle : BatchOracle TxToCategorize CatReply)
          (transactions : list TxToCategorize) (openaiApiKey : option jsstring),
      (forall j batch items item c,
          oracle j batch = Json items -> Some item ∈ items ->
          rp_confidence item = Some c -> in_unit_interval c = true) ->
      forall id c,
        batchCategorize cats oracle transactions openaiApiKey !! id = Some c ->
        in_unit_interval (cr_confidence c) = true) /\
  (forall (cats : list Category)
          (oracle : jsstring -> number -> TransactionType -> Completion CatReply)
          (merchant : jsstring) (amount : number) (type : TransactionType)
          (openaiApiKey : option jsstring),
      (forall r c, oracle merchant amount type = Json r ->
                   rp_confidence r = Some c -> in_unit_interval c = true) ->
      in_unit_interval
        (cr_confidence
           (fst (categorizeTransaction cats oracle merchant amount type
                   openaiApiKey))) = true).
Proof.
  split; [exact bank_parser_confidence_in_unit|]. split.
  - intros cats oracle transactions key Ho id c Hlook.
    assert (H : confidences_in_unit
                  (batchCategorize cats oracle transactions key)).
    { unfold batchCategorize.
      destruct (negb (key_present key) || Nat.eqb (length transactions) 0).
      - apply cat_set_defaults_in_unit, map_Forall_empty.
      - apply cat_batch_loop_in_unit; [exact Ho|apply map_Forall_empty]. }
    exact (H id c Hlook).
  - intros cats oracle merchant amount type key Ho.
    unfold categorizeTransaction.
    destruct (negb (key_present key)); cbn [fst];
      [apply default_categorization_in_unit|].
    destruct (oracle merchant amount type) as [message| |parsed] eqn:E;
      try apply default_categorization_in_unit.
    cbn [cr_confidence]. apply num_or_in_unit; [|vm_compute; reflexivity].
    intros c. destruct (valid_category cats (rp_categoryId parsed)).
    + intros Hc _. apply (Ho parsed c eq_refl Hc).
    + intros [= <-]. destruct (rp_confidence parsed) as [c0|] eqn:Ec.
      * intros _. apply min_half_in_unit. apply (Ho parsed c0 eq_refl Ec).
      * vm_compute. discriminate.
Qed.

(** ** C10: the confidence floor of the HDFC and SIB parsers *)

(** *** What the matcher consumes and captures *)

Lemma consumed_prefix (st st' : pos) (pre : jsstring) :
  rest st = pre ++ rest st' -> consumed st st' = pre.
Proof.
  intros H. unfold consumed. rewrite H, length_app, Nat.add_sub.
  apply take_app_length.
Qed.

Lemma or_else_Some {A} (x y : option A) (r : A) :
  or_else x y = Some r -> x = Some r \/ y = Some r.
Proof. destruct x; cbn; auto. Qed.

Lemma cap_ok_clear (P : N -> Prop) (i : nat) (gs : list nat) (c : caps) :
  cap_ok P i c -> cap_ok P i (clear_caps gs c).
Proof.
  intros H s. unfold clear_caps. destruct (existsb _ gs); [discriminate|apply H].
Qed.

Lemma matcher_spec_stop (P : N -> Prop) (i : nat) (Q G : Prop)
    (st : pos) (c : caps) (k : cont) (res : pos * caps) :
  k st c = Some res ->
  exists pre st' c',
    rest st = pre ++ rest st' /\ k st' c' = Some res /\
    (Q -> Forall P pre) /\ (G -> cap_ok P i c -> cap_ok P i c').
Proof.
  intros H. exists [], st, c. repeat split; auto.
Qed.

Lemma rep_loop_spec (P : N -> Prop) (i : nat) (Q G : Prop)
    (step : pos -> caps -> cont -> option (pos * caps))
    (gs : list nat) (greedy : bool) :
  matcher_spec P i Q G step ->
  forall fuel lo hi, matcher_spec P i Q G (rep_loop step gs greedy fuel lo hi).
Proof.
  intros Hstep. induction fuel as [|fuel IH]; intros lo hi st c k res H.
  - discriminate.
  - cbn [rep_loop] in H.
    set (iterate :=
           match hi with
           | Some O => None
           | _ =>
               step st (clear_caps gs c) (fun st' c' =>
                 if Nat.eqb lo 0 && Nat.eqb (length (rest st')) (length (rest st))
                 then None
                 else rep_loop step gs greedy fuel (Nat.pred lo)
                        (option_map Nat.pred hi) st' c' k)
           end) in H.
    assert (Hiter : iterate = Some res ->
              exists pre st' c',
                rest st = pre ++ rest st' /\ k st' c' = Some res /\
                (Q -> Forall P pre) /\ (G -> cap_ok P i c -> cap_ok P i c')).
    { subst iterate. intros Hi.
      assert (Hrun : step st (clear_caps gs c) (fun st' c' =>
                 if Nat.eqb lo 0 && Nat.eqb (length (rest st')) (length (rest st))
                 then None
                 else rep_loop step gs greedy fuel (Nat.pred lo)
                        (option_map Nat.pred hi) st' c' k) = Some res).
      { destruct hi as [[|h]|]; [discriminate|exact Hi|exact Hi]. }
      apply Hstep in Hrun.
      destruct Hrun as (pre1 & st1 & c1 & Hr1 & Hk1 & HQ1 & HG1).
      destruct (Nat.eqb lo 0 && Nat.eqb (length (rest st1)) (length (rest st)));
        [discriminate|].
      apply IH in Hk1.
      destruct Hk1 as (pre2 & st2 & c2 & Hr2 & Hk2 & HQ2 & HG2).
      exists (pre1 ++ pre2), st2, c2. repeat split.
      - rewrite Hr1, Hr2, app_assoc. reflexivity.
      - exact Hk2.
      - intros HQ. apply Forall_app. auto.
      - intros HG Hc. apply HG2; [exact HG|].
        apply HG1; [exact HG|]. apply cap_ok_clear. exact Hc. }
    destruct (Nat.ltb 0 lo); [auto|].
    destruct greedy; apply or_else_Some in H; destruct H as [H|H]; auto;
      eapply matcher_spec_stop; exact H.
Qed.

Lemma rmatch_spec (P : N -> Prop) (i : nat) (r : regex) :
  matcher_spec P i (chars_in P r) (group_chars_in P i r) (rmatch r).
Proof.
  induction r as [|p|a IHa b IHb|a IHa b IHb|g lo hi a IHa|j a IHa| | |];
    intros st c k res H; cbn [rmatch] in H.
  - eapply matcher_spec_stop; exact H.
  - destruct (rest st) as [|x t] eqn:E; [discriminate|].
    destruct (p x) eqn:Hp; [|discriminate].
    exists [x], (mkpos (Some x) t), c. split; [reflexivity|].
    split; [exact H|]. split; [|auto].
    intros HQ. constructor; [apply HQ; exact Hp|constructor].
  - apply IHa in H. destruct H as (pre1 & st1 & c1 & Hr1 & Hk1 & HQ1 & HG1).
    apply IHb in Hk1. destruct Hk1 as (pre2 & st2 & c2 & Hr2 & Hk2 & HQ2 & HG2).
    exists (pre1 ++ pre2), st2, c2. repeat split.
    + rewrite Hr1, Hr2, app_assoc. reflexivity.
    + exact Hk2.
    + intros [Qa Qb]. apply Forall_app. auto.
    + intros [Ga Gb] Hc. auto.
  - apply or_else_Some in H. destruct H as [H|H].
    + apply IHa in H. destruct H as (pre & st' & c' & Hr & Hk & HQ & HG).
      exists pre, st', c'. repeat split; auto.
      * intros [Qa _]. auto.
      * intros [Ga _]. auto.
    + apply IHb in H. destruct H as (pre & st' & c' & Hr & Hk & HQ & HG).
      exists pre, st', c'. repeat split; auto.
      * intros [_ Qb]. auto.
      * intros [_ Gb]. auto.
  - exact (rep_loop_spec P i _ _ (rmatch a) (groups_of a) g IHa _ lo hi
             st c k res H).
  - apply IHa in H. destruct H as (pre & st' & c' & Hr & Hk & HQ & HG).
    exists pre, st', (set_cap j (consumed st st') c'). repeat split; auto.
    intros [Gj Ga] Hc s. unfold set_cap.
    destruct (Nat.eqb i j) eqn:E.
    + intros [= <-]. rewrite (consumed_prefix st st' pre Hr).
      apply HQ. apply Gj. apply Nat.eqb_eq in E. congruence.
    + apply HG; assumption.
  - destruct (prev st); [discriminate|]. eapply matcher_spec_stop; exact H.
  - assert (Hk : k st c = Some res)
      by (destruct (rest st); [exact H|discriminate]).
    eapply matcher_spec_stop; exact Hk.
  - destruct (at_word_boundary st); [|discriminate].
    eapply matcher_spec_stop; exact H.
Qed.

Lemma search_from_caps (P : N -> Prop) (i : nat) (r : regex) :
  group_chars_in P i r ->
  forall s idx pv m,
    search_from r idx pv s = Some m -> cap_ok P i (m_caps m).
Proof.
  intros HG. induction s as [|x t IH]; intros idx pv m H; cbn [search_from] in H.
  - destruct (match_here r (mkpos pv [])) as [[st' c']|] eqn:E; [|discriminate].
    injection H as <-. cbn [m_caps]. unfold match_here in E.
    apply (rmatch_spec P i r) in E.
    destruct E as (pre & st1 & c1 & _ & Hk & _ & Hcap).
    injection Hk as <- <-. apply Hcap; [exact HG|]. intros s. discriminate.
  - destruct (match_here r (mkpos pv (x :: t))) as [[st' c']|] eqn:E.
    + injection H as <-. cbn [m_caps]. unfold match_here in E.
      apply (rmatch_spec P i r) in E.
      destruct E as (pre & st1 & c1 & _ & Hk & _ & Hcap).
      injection Hk as <- <-. apply Hcap; [exact HG|]. intros s. discriminate.
    + eapply IH. exact H.
Qed.

Lemma exec_group (P : N -> Prop) (i : nat) (r : regex) (s : jsstring)
    (m : MatchResult) :
  group_chars_in P i r -> exec r s = Some m -> Forall P (grp m i).
Proof.
  intros HG H. unfold exec in H.
  pose proof (search_from_caps P i r HG s 0%nat None m H) as Hc.
  unfold grp. destruct (m_caps m i) as [g|] eqn:E; cbn.
  - apply Hc. exact E.
  - constructor.
Qed.

Lemma replace_loop_Forall (P : N -> Prop) (r : regex) (by_ : jsstring)
    (fuel : nat) :
  Forall P by_ ->
  forall pv s, Forall P s -> Forall P (replace_loop r by_ fuel pv s).
Proof.
  intros Hby. induction fuel as [|fuel IH]; intros pv s Hs; [exact Hs|].
  cbn [replace_loop]. destruct (search_from r 0 pv s) as [m|]; [|exact Hs].
  destruct (m_full m) as [|y ys].
  - destruct (drop (m_index m) s) as [|x t] eqn:E.
    + apply Forall_app. split; [apply Forall_take; exact Hs|exact Hby].
    + assert (Hd : Forall P (x :: t)) by (rewrite <- E; apply Forall_drop; exact Hs).
      apply Forall_app. split; [apply Forall_take; exact Hs|].
      apply Forall_app. split; [exact Hby|].
      inversion Hd; subst. constructor; [assumption|]. apply IH. assumption.
  - apply Forall_app. split; [apply Forall_take; exact Hs|].
    apply Forall_app. split; [exact Hby|].
    apply IH. apply Forall_drop. exact Hs.
Qed.

Lemma replace_all_Forall (P : N -> Prop) (r : regex) (s : jsstring) :
  Forall P s -> Forall P (replace_all r [] s).
Proof. intros H. apply replace_loop_Forall; [constructor|exact H]. Qed.

(** *** The fuel of the matcher is never exhausted *)

Lemma rep_loop_ext (step : pos -> caps -> cont -> option (pos * caps))
    (gs : list nat) (greedy : bool) :
  matcher_local step ->
  forall fuel lo hi, matcher_local (rep_loop step gs greedy fuel lo hi).
Proof.
  intros Hstep. induction fuel as [|fuel IH]; intros lo hi st c k1 k2 Hk;
    [reflexivity|].
  cbn [rep_loop].
  assert (Hiter :
    step st (clear_caps gs c) (fun st' c' =>
      if Nat.eqb lo 0 && Nat.eqb (length (rest st')) (length (rest st))
      then None
      else rep_loop step gs greedy fuel (Nat.pred lo) (option_map Nat.pred hi)
             st' c' k1)
    = step st (clear_caps gs c) (fun st' c' =>
      if Nat.eqb lo 0 && Nat.eqb (length (rest st')) (length (rest st))
      then None
      else rep_loop step gs greedy fuel (Nat.pred lo) (option_map Nat.pred hi)
             st' c' k2)).
  { apply Hstep. intros st' c' Hlen.
    destruct (Nat.eqb lo 0 && Nat.eqb (length (rest st')) (length (rest st)));
      [reflexivity|].
    apply IH. intros st'' c'' Hlen'. apply Hk. lia. }
  rewrite (Hk st c) by lia.
  destruct hi as [[|h]|]; rewrite ?Hiter; reflexivity.
Qed.

Lemma rmatch_local (r : regex) : matcher_local (rmatch r).
Proof.
  induction r as [|p|a IHa b IHb|a IHa b IHb|g lo hi a IHa|j a IHa| | |];
    intros st c k1 k2 Hk; cbn [rmatch].
  - apply Hk. lia.
  - destruct (rest st) as [|x t] eqn:E; [reflexivity|].
    destruct (p x); [|reflexivity]. apply Hk. cbn. lia.
  - apply IHa. intros st' c' Hlen. apply IHb. intros st'' c'' Hlen'.
    apply Hk. lia.
  - rewrite (IHa st c k1 k2 Hk), (IHb st c k1 k2 Hk). reflexivity.
  - apply rep_loop_ext; assumption.
  - apply IHa. intros st' c' Hlen. apply Hk. exact Hlen.
  - destruct (prev st); [reflexivity|]. apply Hk. lia.
  - assert (H := Hk st c (Nat.le_refl _)). destruct (rest st); [exact H|reflexivity].
  - destruct (at_word_boundary st); [|reflexivity]. apply Hk. lia.
Qed.

(** Any two amounts of fuel above [lo] plus the number of remaining units
    give the same result: the loop never stops for lack of fuel. *)
Lemma rep_loop_fuel (step : pos -> caps -> cont -> option (pos * caps))
    (gs : list nat) (greedy : bool) :
  matcher_local step ->
  forall fuel1 fuel2 lo hi st c k,
    (lo + length (rest st) < fuel1)%nat ->
    (lo + length (rest st) < fuel2)%nat ->
    rep_loop step gs greedy fuel1 lo hi st c k
    = rep_loop step gs greedy fuel2 lo hi st c k.
Proof.
  intros Hstep. induction fuel1 as [|fuel1 IH];
    intros fuel2 lo hi st c k H1 H2; [lia|].
  destruct fuel2 as [|fuel2]; [lia|]. cbn [rep_loop].
  assert (Hiter :
    step st (clear_caps gs c) (fun st' c' =>
      if Nat.eqb lo 0 && Nat.eqb (length (rest st')) (length (rest st))
      then None
      else rep_loop step gs greedy fuel1 (Nat.pred lo) (option_map Nat.pred hi)
             st' c' k)
    = step st (clear_caps gs c) (fun st' c' =>
      if Nat.eqb lo 0 && Nat.eqb (length (rest st')) (length (rest st))
      then None
      else rep_loop step gs greedy fuel2 (Nat.pred lo) (option_map Nat.pred hi)
             st' c' k)).
  { apply Hstep. intros st' c' Hlen.
    destruct (Nat.eqb lo 0) eqn:Elo; cbn [andb].
    - apply Nat.eqb_eq in Elo. subst lo.
      destruct (Nat.eqb (length (rest st')) (length (rest st))) eqn:El;
        [reflexivity|].
      apply Nat.eqb_neq in El. apply IH; cbn; lia.
    - apply Nat.eqb_neq in Elo. apply IH; lia. }
  destruct hi as [[|h]|]; rewrite ?Hiter; reflexivity.
Qed.

(** [Rep] in [rmatch], with any larger amount of fuel. *)
Lemma rmatch_rep_fuel (g : bool) (lo : nat) (hi : option nat) (a : regex)
    (st : pos) (c : caps) (k : cont) (fuel : nat) :
  (lo + length (rest st) < fuel)%nat ->
  rmatch (Rep g lo hi a) st c k
  = rep_loop (rmatch a) (groups_of a) g fuel lo hi st c k.
Proof.
  intros H. cbn [rmatch]. apply rep_loop_fuel; [apply rmatch_local|lia|exact H].
Qed.

Lemma match_here_prefix (r : regex) (st st' : pos) (c' : caps) :
  match_here r st = Some (st', c') ->
  rest st = consumed st st' ++ rest st'.
Proof.
  unfold match_here. intros H.
  apply (rmatch_spec (fun _ => True) 0 r) in H.
  destruct H as (pre & st1 & c1 & Hr & Hk & _). injection Hk as <- <-.
  rewrite (consumed_prefix st st1 pre Hr). exact Hr.
Qed.

Lemma search_from_bounds (r : regex) (s : jsstring) :
  forall idx pv m,
    search_from r idx pv s = Some m ->
    (idx <= m_index m)%nat /\
    (m_index m - idx + length (m_full m) <= length s)%nat.
Proof.
  induction s as [|x t IH]; intros idx pv m H; cbn [search_from] in H.
  - destruct (match_here r (mkpos pv [])) as [[st' c']|] eqn:E; [|discriminate].
    injection H as <-. cbn [m_index m_full].
    apply match_here_prefix in E. cbn [rest] in E.
    apply (f_equal (@length N)) in E. rewrite length_app in E. cbn in *. lia.
  - destruct (match_here r (mkpos pv (x :: t))) as [[st' c']|] eqn:E.
    + injection H as <-. cbn [m_index m_full].
      apply match_here_prefix in E. cbn [rest] in E.
      apply (f_equal (@length N)) in E. rewrite length_app in E. cbn in *. lia.
    + apply IH in H. cbn [length]. lia.
Qed.

(** Any two amounts of fuel above the length of the subject give the same
    result: [replace_all] never stops for lack of fuel. *)
Lemma replace_loop_fuel (r : regex) (by_ : jsstring) :
  forall fuel1 fuel2 pv s,
    (length s < fuel1)%nat -> (length s < fuel2)%nat ->
    replace_loop r by_ fuel1 pv s = replace_loop r by_ fuel2 pv s.
Proof.
  induction fuel1 as [|fuel1 IH]; intros fuel2 pv s H1 H2; [lia|].
  destruct fuel2 as [|fuel2]; [lia|]. cbn [replace_loop].
  destruct (search_from r 0 pv s) as [m|] eqn:E; [|reflexivity].
  apply search_from_bounds in E. destruct E as [_ Hb].
  rewrite Nat.sub_0_r in Hb.
  destruct (m_full m) as [|y ys] eqn:Ef.
  - destruct (drop (m_index m) s) as [|x t] eqn:Ed; [reflexivity|].
    assert (Hl : (length t < length s)%nat).
    { apply (f_equal (@length N)) in Ed. rewrite length_drop in Ed.
      cbn in Ed. lia. }
    rewrite (IH fuel2 (Some x) t) by lia. reflexivity.
  - cbn [length] in Hb.
    rewrite (IH fuel2 _ (drop (m_index m + S (length ys)) s));
      [reflexivity| |]; rewrite length_drop; lia.
Qed.

(** *** Signs of numbers *)

Lemma binary_round_aux_sign (sx : bool) (mx ex : Z) (lx : location) :
  sign_is sx (binary_round_aux prec emax sx mx ex lx).
Proof.
  unfold binary_round_aux.
  destruct (shr_fexp prec emax mx ex lx) as [mrs' e'].
  destruct (shr_fexp prec emax _ e' loc_Exact) as [mrs'' e''].
  destruct (shr_m mrs''); [reflexivity| |exact I].
  destruct (Z.leb e'' (Z.sub emax prec)); reflexivity.
Qed.

Lemma binary_round_sign (sx : bool) (mx : positive) (ex : Z) :
  sign_is sx (binary_round prec emax sx mx ex).
Proof.
  unfold binary_round. destruct (shl_align mx ex _) as [mz ez].
  apply binary_round_aux_sign.
Qed.

Lemma num_of_Z_nonneg (z : Z) : 0 <= z -> sign_is false (num_of_Z z).
Proof.
  intros H. unfold num_of_Z, binary_normalize. destruct z as [|p|p].
  - reflexivity.
  - apply binary_round_sign.
  - lia.
Qed.

Lemma num_of_decimal_nonneg (m e : Z) :
  0 <= m -> sign_is false (num_of_decimal false m e).
Proof.
  intros Hm. unfold num_of_decimal. destruct m as [|p|p]; [reflexivity| |lia].
  destruct (0 <=? e) eqn:He.
  - apply Z.leb_le in He.
    assert (Hpos : 0 <= Z.pos p * 10 ^ e)
      by (apply Z.mul_nonneg_nonneg; [lia|apply Z.pow_nonneg; lia]).
    unfold binary_normalize. destruct (Z.pos p * 10 ^ e) as [|q|q].
    + reflexivity.
    + apply binary_round_sign.
    + lia.
  - unfold num_ratio, SFdiv.
    destruct (SFdiv_core_binary prec emax _ 0 _ 0) as [[mz ez] lz].
    apply binary_round_aux_sign.
Qed.

Lemma take_digits_digits (s : jsstring) :
  Forall (fun c => is_digit c = true) (fst (take_digits s)).
Proof.
  induction s as [|c s IH]; cbn [take_digits]; [constructor|].
  destruct (is_digit c) eqn:E; [|constructor].
  destruct (take_digits s) as [d r]. cbn [fst] in *. constructor; assumption.
Qed.

Lemma digits_fold_nonneg (ds : jsstring) (acc : Z) :
  Forall (fun c => is_digit c = true) ds -> 0 <= acc ->
  0 <= fold_left (fun a c => 10 * a + digit_val c) ds acc.
Proof.
  revert acc. induction ds as [|c ds IH]; intros acc Hds Hacc; [exact Hacc|].
  inversion Hds as [|? ? Hc Hrest]; subst. cbn [fold_left]. apply IH; [exact Hrest|].
  unfold digit_val, is_digit, in_range in *.
  apply andb_true_iff in Hc. destruct Hc as [Hlo _].
  apply N.leb_le in Hlo. lia.
Qed.

Lemma digits_val_nonneg (ds : jsstring) :
  Forall (fun c => is_digit c = true) ds -> 0 <= digits_val ds.
Proof. intros H. apply digits_fold_nonneg; [exact H|lia]. Qed.

Lemma parse_unsigned_nonneg (s : jsstring) :
  sign_is false (parse_unsigned false s).
Proof.
  unfold parse_unsigned.
  destruct (starts_with (lit "Infinity") s); [reflexivity|].
  pose proof (take_digits_digits s) as Hip.
  destruct (take_digits s) as [ip r1]. cbn [fst] in Hip.
  assert (Hfp : forall fp r2,
            match r1 with
            | c :: r => if (c =? 46)%N then take_digits r else ([], r1)
            | [] => ([], r1)
            end = (fp, r2) ->
            Forall (fun c => is_digit c = true) fp).
  { intros fp r2 E. destruct r1 as [|c r].
    - injection E as <- _. constructor.
    - destruct (c =? 46)%N.
      + pose proof (take_digits_digits r) as H. rewrite E in H. exact H.
      + injection E as <- _. constructor. }
  destruct (match r1 with
            | c :: r => if (c =? 46)%N then take_digits r else ([], r1)
            | [] => ([], r1)
            end) as [fp r2].
  specialize (Hfp fp r2 eq_refl).
  assert (Hm : 0 <= digits_val (ip ++ fp))
    by (apply digits_val_nonneg, Forall_app; auto).
  destruct ip, fp; try exact I; apply num_of_decimal_nonneg; exact Hm.
Qed.

Lemma trim_start_Forall (P : N -> Prop) (s : jsstring) :
  Forall P s -> Forall P (trim_start s).
Proof.
  induction 1 as [|c s Hc Hs IH]; cbn [trim_start]; [constructor|].
  destruct (is_space c); [exact IH|constructor; assumption].
Qed.

Lemma parseFloat_nonneg (s : jsstring) :
  Forall not_minus s -> sign_is false (parseFloat s).
Proof.
  intros H. apply trim_start_Forall in H. unfold parseFloat. cbv zeta.
  destruct (trim_start s) as [|c r]; [apply parse_unsigned_nonneg|].
  inversion H as [|? ? Hc _]; subst.
  destruct (c =? 45)%N eqn:E.
  - apply N.eqb_eq in E. contradiction.
  - destruct (c =? 43)%N; apply parse_unsigned_nonneg.
Qed.

Lemma n100_value : n100 = S754_finite false 7036874417766400 (-46).
Proof. vm_compute. reflexivity. Qed.

Lemma times_100_nonneg (x : number) :
  sign_is false x -> sign_is false (num_mul x n100).
Proof.
  rewrite n100_value. unfold num_mul.
  destruct x as [s|s| |s m e]; cbn [SFmul sign_is]; intros H; subst;
    try reflexivity.
  apply binary_round_aux_sign.
Qed.

Lemma Math_round_nonneg (x : number) :
  sign_is false x -> sign_is false (Math_round x).
Proof.
  destruct x as [s|s| |s m e]; cbn [Math_round sign_is]; intros H; subst;
    try reflexivity.
  destruct (0 <=? e); [reflexivity|].
  assert (Hn : 0 <= Z.shiftr (Z.pos m~0 + 2 ^ (- e)) (1 - e)).
  { apply Z.shiftr_nonneg. pose proof (Z.pow_nonneg 2 (- e)). lia. }
  destruct (Z.shiftr (Z.pos m~0 + 2 ^ (- e)) (1 - e)) as [|p|p] eqn:E.
  - reflexivity.
  - apply num_of_Z_nonneg. lia.
  - lia.
Qed.

Lemma truthy_nonneg_positive (a : number) :
  num_truthy a = true -> sign_is false a -> num_gt a num_zero = true.
Proof.
  destruct a as [s|s| |s m e]; cbn; intros Ht Hs; subst;
    try discriminate; reflexivity.
Qed.

(** *** Amounts are positive *)

Lemma hdfc_amount_group : group_chars_in not_minus 1 hdfc.re_amount.
Proof.
  cbn. repeat split; try exact I; intros; unfold not_minus; intros Heq;
    match goal with H : _ = true |- _ =>
      rewrite Heq in H; vm_compute in H; discriminate
    end.
Qed.

Lemma own_amount_nonneg (text : jsstring) (a : number) :
  hdfc.own_amount text = Some a -> sign_is false a.
Proof.
  unfold hdfc.own_amount.
  destruct (exec hdfc.re_amount text) as [m|] eqn:E; [|discriminate].
  intros [= <-].
  apply Math_round_nonneg, times_100_nonneg, parseFloat_nonneg.
  apply replace_all_Forall.
  exact (exec_group not_minus 1 hdfc.re_amount text m hdfc_amount_group E).
Qed.

Lemma extractAmount_loop_positive (text : jsstring) (ps : list regex)
    (r : AmountResult) :
  extractAmount_loop text ps = Some r -> num_gt (ar_amount r) num_zero = true.
Proof.
  induction ps as [|pattern ps IH]; cbn [extractAmount_loop]; [discriminate|].
  destruct (exec pattern text) as [m|]; [|exact IH].
  destruct (parseAmount (grp m 1)) as [a|]; [|exact IH].
  destruct (num_gt a num_zero) eqn:E; [|exact IH].
  intros [= <-]. exact E.
Qed.

Lemma find_amount_positive (text : jsstring) (a : number) :
  hdfc.find_amount text = Some a -> num_truthy a = true ->
  num_gt a num_zero = true.
Proof.
  unfold hdfc.find_amount. intros H Ht.
  destruct (negb (onum_truthy (hdfc.own_amount text))).
  - destruct (extractAmount text) as [r|] eqn:E.
    + injection H as <-. exact (extractAmount_loop_positive _ _ _ E).
    + apply truthy_nonneg_positive; [exact Ht|].
      apply (own_amount_nonneg text). exact H.
  - apply truthy_nonneg_positive; [exact Ht|].
    apply (own_amount_nonneg text). exact H.
Qed.

Lemma hdfc_confidence_floor (env : Env) (amount : number)
    (merchant : jsstring) (date : Date) :
  num_gt amount num_zero = true ->
  num_ge (hdfc.calculateConfidence env amount merchant date) n0_7 = true /\
  num_lt (hdfc.calculateConfidence env amount merchant date) n0_7 = false.
Proof.
  intros H. unfold hdfc.calculateConfidence. rewrite H.
  destruct (negb (str_eqb merchant Unknown)), (date_is_recent env date);
    split; vm_compute; reflexivity.
Qed.

Lemma sib_confidence_floor (env : Env) (amount : number)
    (merchant : jsstring) (date : Date) :
  num_gt amount num_zero = true ->
  num_ge (sib.calculateConfidence env amount merchant date) n0_7 = true /\
  num_lt (sib.calculateConfidence env amount merchant date) n0_7 = false.
Proof.
  intros H. unfold sib.calculateConfidence. rewrite H.
  destruct (negb (str_eqb merchant Unknown)), (date_is_recent env date);
    split; vm_compute; reflexivity.
Qed.

Lemma hdfc_sib_parse_facts (env : Env) (options : ParseEmailOptions)
    (tx : ParsedTransaction) :
  op_bank options = HDFC \/ op_bank options = SIB ->
  pr_transaction (run_bank_parser env options) = Some tx ->
  num_gt (tx_amount tx) num_zero = true /\
  num_ge (tx_confidence tx) n0_7 = true /\
  num_lt (tx_confidence tx) n0_7 = false /\
  run_bank_parser env options = succeed tx.
Proof.
  intros Hbank Htx.
  unfold run_bank_parser in *. destruct Hbank as [Hb|Hb]; rewrite Hb in *.
  - apply parseHDFCEmail_success in Htx.
    destruct Htx as (type & a & Ha & Ht & -> & Hr).
    pose proof (find_amount_positive _ _ Ha Ht) as Hpos.
    destruct (hdfc_confidence_floor env a
                (hdfc.cleanMerchantName
                   (fst (hdfc.find_merchant (extractEmailText env (op_body options)))))
                (default (op_date options)
                   (extractDate env (extractEmailText env (op_body options))))
                Hpos) as [H1 H2].
    repeat split; assumption.
  - apply parseSIBEmail_success in Htx.
    destruct Htx as (type & r & Hr & -> & Hres).
    pose proof (extractAmount_loop_positive _ _ _ Hr) as Hpos.
    destruct (sib_confidence_floor env (ar_amount r)
                (sib.cleanMerchantName
                   (fst (sib.find_merchant (extractEmailText env (op_body options)))))
                (default (op_date options)
                   (extractDate env (extractEmailText env (op_body options))))
                Hpos) as [H1 H2].
    repeat split; assumption.
Qed.

(** C10: when the HDFC or the SIB parser succeeds, the confidence it
    computes is at least 0.7 (never below it), because the amount of a
    successful parse is strictly positive and the amount increment always
    applies; so in the regex-only pass such a parse is flagged
    [needsLLMFallback] exactly when its merchant is "Unknown". *)
Theorem hdfc_sib_confidence_floor (env : Env) (options : ParseEmailOptions)
    (tx : ParsedTransaction) :
  op_bank options = HDFC \/ op_bank options = SIB ->
  pr_transaction (run_bank_parser env options) = Some tx ->
  num_gt (tx_amount tx) num_zero = true /\
  num_ge (tx_confidence tx) n0_7 = true /\
  num_lt (tx_confidence tx) n0_7 = false /\
  pr_transaction (parseEmailWithRegex env options) = Some tx /\
  pr_success (parseEmailWithRegex env options) = true /\
  pr_needsLLMFallback (parseEmailWithRegex env options)
  = Some (str_eqb (tx_merchant tx) Unknown).
Proof.
  intros Hbank Htx.
  destruct (hdfc_sib_parse_facts env options tx Hbank Htx)
    as (Hpos & Hge & Hlt & Hrun).
  assert (Hrx : parseEmailWithRegex env options
                = mkResult true (Some tx) None (Some false)
                    (Some (str_eqb (tx_merchant tx) Unknown))).
  { unfold parseEmailWithRegex, needs_llm. rewrite Hrun.
    cbn [pr_success pr_transaction pr_error succeed negb orb].
    rewrite Hlt. reflexivity. }
  rewrite Hrx. cbn [pr_success pr_transaction pr_needsLLMFallback].
  split; [exact Hpos|]. split; [exact Hge|]. split; [exact Hlt|].
  split; [reflexivity|]. split; reflexivity.
Qed.

Lemma hdfc_sib_confidence_floor_witness :
  exists tx,
    pr_transaction (run_bank_parser example_env zepto_options) = Some tx /\
    num_ge (tx_confidence tx) n0_7 = true /\
    pr_needsLLMFallback (parseEmailWithRegex example_env zepto_options)
    = Some (str_eqb (tx_merchant tx) Unknown).
Proof.
  eexists. split; [vm_compute; reflexivity|].
  match goal with |- context [tx_confidence ?t] =>
    destruct (hdfc_sib_confidence_floor example_env zepto_options t)
      as (_ & Hge & _ & _ & _ & Hneeds)
  end.
  - left. reflexivity.
  - vm_compute. reflexivity.
  - split; [exact Hge|exact Hneeds].
Defined.

(** ** Witnesses and evaluations *)

Lemma confidences_within_unit_interval_witness :
  (exists tx,
      pr_transaction (run_bank_parser example_env zepto_options) = Some tx /\
      in_unit_interval (tx_confidence tx) = true) /\
  (exists c,
      batchCategorize sample_catalog (batch_reply "c-food" (decimal 9 1))
        sample_transactions some_key !! lit "t1" = Some c /\
      in_unit_interval (cr_confidence c) = true) /\
  in_unit_interval
    (cr_confidence
       (fst (categorizeTransaction sample_catalog
               (single_reply "nope" (decimal 2 1)) (lit "ZEPTO")
               (num_of_Z 16900) DEBIT some_key))) = true.
Proof.
  destruct confidences_within_unit_interval as (Hparse & Hbatch & Hsingle).
  split; [|split].
  - eexists. split; [vm_compute; reflexivity|].
    apply (Hparse example_env zepto_options). vm_compute. reflexivity.
  - eexists. split; [vm_compute; reflexivity|].
    apply (Hbatch sample_catalog (batch_reply "c-food" (decimal 9 1))
             sample_transactions some_key) with (id := lit "t1").
    + intros j batch items item c [= <-] Hin Hc.
      apply list_elem_of_singleton in Hin. injection Hin as ->.
      injection Hc as <-. vm_compute. reflexivity.
    + vm_compute. reflexivity.
  - apply Hsingle. intros r c [= <-] [= <-]. vm_compute. reflexivity.
Defined.

(** A run that persists one row: the store gains the row of the only
    candidate, with the smaller of its two confidences. *)
Lemma persisted_confidence_witness :
  exists inserted,
    store (run_sync example_env quiet_world (lit "user-1") None [stored_row]
             [mkEmail (lit "msg-2") [] [] zepto_body InvalidDate HDFC])
    = [stored_row] ++ inserted /\
    length inserted = 1%nat /\
    forall t, t ∈ inserted ->
      exists e,
        e ∈ parsedEmails
              (parsed_state example_env quiet_world (lit "user-1") None
                 [stored_row]
                 [mkEmail (lit "msg-2") [] [] zepto_body InvalidDate HDFC]) /\
        t_confidence t =
          Math_min (tx_confidence (pe_parsed e))
            (cr_confidence
               (categorization_of
                  (categorize_all quiet_world None
                     (parsed_state example_env quiet_world (lit "user-1") None
                        [stored_row]
                        [mkEmail (lit "msg-2") [] [] zepto_body InvalidDate
                           HDFC])) e)).
Proof.
  destruct (persisted_confidence example_env quiet_world (lit "user-1") None
              [stored_row]
              [mkEmail (lit "msg-2") [] [] zepto_body InvalidDate HDFC])
    as (inserted & Hstore & Hrows).
  exists inserted. split; [exact Hstore|]. split.
  - assert (Hl : length
                   (store (run_sync example_env quiet_world (lit "user-1") None
                             [stored_row]
                             [mkEmail (lit "msg-2") [] [] zepto_body InvalidDate
                                HDFC])) = 2%nat)
      by (vm_compute; reflexivity).
    rewrite Hstore, length_app in Hl. cbn [length] in Hl. lia.
  - intros t Ht. destruct (Hrows t Ht) as (e & He & _ & _ & Hc).
    exists e. split; [exact He|exact Hc].
Defined.

(** ** C7: what the engine does with an unknown category id *)

(** C7, evaluated: for a reply whose category id is not in the catalog,
    [batchCategorize] coerces the category to "Other" and returns
    confidence 0.5 although the oracle's confidence was 0.2, and
    [categorizeTransaction] returns 0.2 for the same reply but 0.7 when the
    oracle's confidence is 0. *)
Lemma unknown_category_confidence_evaluated :
  (exists c,
      batchCategorize sample_catalog (batch_reply "nope" (decimal 2 1))
        sample_transactions some_key !! lit "t1" = Some c /\
      cr_categoryId c = Some (lit "c-other") /\
      cr_confidence c = n0_5) /\
  cr_confidence
    (fst (categorizeTransaction sample_catalog
            (single_reply "nope" (decimal 2 1)) (lit "ZEPTO") (num_of_Z 16900)
            DEBIT some_key)) = decimal 2 1 /\
  cr_confidence
    (fst (categorizeTransaction sample_catalog (single_reply "nope" num_zero)
            (lit "ZEPTO") (num_of_Z 16900) DEBIT some_key)) = n0_7 /\
  num_lt (decimal 2 1) n0_5 = true /\
  num_gt n0_7 n0_5 = true.
Proof.
  split.
  - eexists. split; [vm_compute; reflexivity|]. split; vm_compute; reflexivity.
  - repeat split; vm_compute; reflexivity.
Qed.

(** ** C4: amounts *)

(** The amount of every successful parse of a bank parser is strictly
    positive. *)
Lemma bank_parser_amount_positive (env : Env) (options : ParseEmailOptions)
    (tx : ParsedTransaction) :
  pr_transaction (run_bank_parser env options) = Some tx ->
  num_gt (tx_amount tx) num_zero = true.
Proof.
  intros H.
  assert (Hgen : forall bank,
            pr_transaction
              (generic.parseGenericBankEmail env (op_body options)
                 (op_subject options) (op_date options) bank) = Some tx ->
            num_gt (tx_amount tx) num_zero = true).
  { intros bank Hg. apply parseGenericBankEmail_success in Hg.
    destruct Hg as (type & r & Hr & ->). cbn [generic.build tx_amount].
    apply or_else_Some in Hr.
    destruct Hr as [Hr|Hr]; exact (extractAmount_loop_positive _ _ _ Hr). }
  unfold run_bank_parser in H. destruct (op_bank options) eqn:Hb;
    try (apply (Hgen _ H)).
  - apply (hdfc_sib_parse_facts env options tx); [left; exact Hb|].
    unfold run_bank_parser. rewrite Hb. exact H.
  - apply (hdfc_sib_parse_facts env options tx); [right; exact Hb|].
    unfold run_bank_parser. rewrite Hb. exact H.
Qed.

(** ** C3: arbitration in [parseTransactionEmail] *)

(** What the fallback returns when it succeeds: a transaction of
    confidence 0.7, and only with a credential. *)
Lemma parseLLMFallback_success (env : Env)
    (oracle : jsstring -> jsstring -> Completion LLMParseResult)
    (body subject : jsstring) (emailDate : Date) (bank : Bank)
    (openaiApiKey : option jsstring) (llmTx : ParsedTransaction) :
  pr_transaction
    (fst (parseLLMFallback env oracle body subject emailDate bank openaiApiKey))
  = Some llmTx ->
  tx_confidence llmTx = n0_7 /\ key_present openaiApiKey = true.
Proof.
  unfold parseLLMFallback.
  destruct (key_present openaiApiKey); cbn [negb fst]; [|discriminate].
  destruct (oracle subject _) as [[message|]| |parsed]; try discriminate.
  destruct (required_fields parsed) as [[[a t] m]|]; [|discriminate].
  cbn. intros [= <-]. split; reflexivity.
Qed.

(** A bank parser never returns the confidence 0.7 itself with a resolved
    merchant: the confidence is then above 0.7 or below it. *)
Lemma resolved_confidence_off_floor (env : Env) (options : ParseEmailOptions)
    (tx : ParsedTransaction) :
  pr_transaction (run_bank_parser env options) = Some tx ->
  str_eqb (tx_merchant tx) Unknown = false ->
  num_ge (tx_confidence tx) n0_7 = num_gt (tx_confidence tx) n0_7 /\
  num_lt (tx_confidence tx) n0_7 = negb (num_gt (tx_confidence tx) n0_7).
Proof.
  intros Htx.
  assert (Hgen : forall bank,
            pr_transaction
              (generic.parseGenericBankEmail env (op_body options)
                 (op_subject options) (op_date options) bank) = Some tx ->
            str_eqb (tx_merchant tx) Unknown = false ->
            num_ge (tx_confidence tx) n0_7 = num_gt (tx_confidence tx) n0_7 /\
            num_lt (tx_confidence tx) n0_7
            = negb (num_gt (tx_confidence tx) n0_7)).
  { intros bank Hg. apply parseGenericBankEmail_success in Hg.
    destruct Hg as (type & r & Hr & ->).
    cbn [generic.build tx_merchant tx_confidence]. intros Hm.
    assert (Hpos : num_gt (ar_amount r) num_zero = true).
    { apply or_else_Some in Hr.
      destruct Hr as [Hr|Hr]; exact (extractAmount_loop_positive _ _ _ Hr). }
    unfold generic.calculateConfidence, generic.bankKeywords.
    rewrite Hpos, Hm. cbn [List.filter negb andb].
    match goal with |- context [Nat.ltb 3 ?n] => destruct (Nat.ltb 3 n) end;
    match goal with |- context [date_is_recent ?e ?d] =>
      destruct (date_is_recent e d) end;
    match goal with |- context [includes ?t (lit "account")] =>
      destruct (includes t (lit "account")), (includes t (lit "balance")),
        (includes t (lit "transaction")), (includes t (lit "bank")) end;
    split; vm_compute; reflexivity. }
  unfold run_bank_parser in Htx. destruct (op_bank options);
    try (apply (Hgen _ Htx)).
  - apply parseHDFCEmail_success in Htx.
    destruct Htx as (type & a & Ha & Ht & -> & _).
    pose proof (find_amount_positive _ _ Ha Ht) as Hpos.
    cbn [hdfc.build tx_merchant tx_confidence]. intros Hm.
    unfold hdfc.calculateConfidence. rewrite Hpos, Hm. cbn [negb].
    match goal with |- context [date_is_recent ?e ?d] =>
      destruct (date_is_recent e d) end;
    split; vm_compute; reflexivity.
  - apply parseSIBEmail_success in Htx.
    destruct Htx as (type & r & Hr & -> & _).
    pose proof (extractAmount_loop_positive _ _ _ Hr) as Hpos.
    cbn [sib.build tx_merchant tx_confidence]. intros Hm.
    unfold sib.calculateConfidence. rewrite Hpos, Hm. cbn [negb].
    match goal with |- context [date_is_recent ?e ?d] =>
      destruct (date_is_recent e d) end;
    split; vm_compute; reflexivity.
Qed.

(** C3: in [parseTransactionEmail], when the bank parser succeeds on an
    email and the LLM fallback succeeds on the same email, the
    deterministic result is returned exactly when its confidence is
    strictly greater than the LLM result's and its merchant is not
    "Unknown", and the LLM result otherwise.  (The fallback is only
    requested when the deterministic confidence is below 0.7 or the
    merchant is "Unknown"; its results have confidence 0.7 and no bank
    parser returns 0.7 itself with a resolved merchant, so the early
    return of a good deterministic result agrees with the comparison.)  A
    deterministic result with confidence 0.9 and merchant "Acme" is kept,
    without a request to the fallback. *)
Theorem arbitration_tie_break :
  (forall (env : Env) (oracle : jsstring -> jsstring -> Completion LLMParseResult)
          (options : ParseEmailOptions) (openaiApiKey : option jsstring)
          (det llm : ParserResult) (tx llmTx : ParsedTransaction),
      run_bank_parser env options = det ->
      pr_success det = true ->
      pr_transaction det = Some tx ->
      fst (parseLLMFallback env oracle (op_body options) (op_subject options)
             (op_date options) (op_bank options) openaiApiKey) = llm ->
      pr_success llm = true ->
      pr_transaction llm = Some llmTx ->
      fst (parseTransactionEmail env oracle options openaiApiKey) =
        if num_gt (tx_confidence tx) (tx_confidence llmTx)
           && negb (str_eqb (tx_merchant tx) Unknown)
        then with_usedLLM det false
        else with_usedLLM llm true) /\
  (forall (env : Env) (oracle : jsstring -> jsstring -> Completion LLMParseResult)
          (options : ParseEmailOptions) (openaiApiKey : option jsstring)
          (det : ParserResult) (tx : ParsedTransaction),
      run_bank_parser env options = det ->
      pr_success det = true ->
      pr_transaction det = Some tx ->
      tx_confidence tx = decimal 9 1 ->
      tx_merchant tx = lit "Acme" ->
      parseTransactionEmail env oracle options openaiApiKey
      = (with_usedLLM det false, 0%nat)).
Proof.
  split.
  - intros env oracle options key det llm tx llmTx Hdet Hs Htx Hllm Hls Hltx.
    subst det.
    assert (Hfacts : tx_confidence llmTx = n0_7 /\ key_present key = true).
    { eapply parseLLMFallback_success. rewrite Hllm. exact Hltx. }
    destruct Hfacts as [Hconf Hkey]. rewrite Hconf.
    unfold parseTransactionEmail, arbitrate, needs_llm.
    rewrite Hs, Htx, Hkey. cbn [andb negb orb].
    destruct (parseLLMFallback env oracle (op_body options) (op_subject options)
                (op_date options) (op_bank options) key) as [llm' calls].
    cbn [fst] in Hllm. subst llm'. rewrite Hls, Hltx, Hconf.
    destruct (str_eqb (tx_merchant tx) Unknown) eqn:Hm.
    + rewrite !andb_false_r, orb_true_r. reflexivity.
    + destruct (resolved_confidence_off_floor env options tx Htx Hm)
        as [Hge Hlt].
      rewrite Hge, Hlt. cbn [negb].
      destruct (num_gt (tx_confidence tx) n0_7); reflexivity.
  - intros env oracle options key det tx Hdet Hs Htx Hconf Hm.
    unfold parseTransactionEmail. rewrite Hdet.
    unfold arbitrate. rewrite Hs, Htx, Hconf, Hm. reflexivity.
Qed.

Lemma arbitration_tie_break_witness :
  (fst (parseTransactionEmail example_env shop_oracle no_merchant_options
          some_key)
   = with_usedLLM
       (fst (parseLLMFallback example_env shop_oracle no_merchant_body []
               InvalidDate HDFC some_key)) true) /\
  (fst (parseTransactionEmail example_env shop_oracle acme_options some_key)
   = with_usedLLM (run_bank_parser example_env acme_options) false) /\
  parseTransactionEmail example_env shop_oracle acme_options some_key
  = (with_usedLLM (run_bank_parser example_env acme_options) false, 0%nat).
Proof.
  split; [|split].
  - refine (eq_trans
              (proj1 arbitration_tie_break example_env shop_oracle
                 no_merchant_options some_key _ _ _ _ eq_refl _ _ eq_refl _ _)
              _);
      vm_compute; reflexivity.
  - refine (eq_trans
              (proj1 arbitration_tie_break example_env shop_oracle
                 acme_options some_key _ _ _ _ eq_refl _ _ eq_refl _ _)
              _);
      vm_compute; reflexivity.
  - refine (proj2 arbitration_tie_break example_env shop_oracle acme_options
              some_key _ _ eq_refl _ _ _ _);
      vm_compute; reflexivity.
Defined.

(** C4, evaluated: on "Rs. 1,234.56 debited ..." the first amount pattern
    matches "1,234.56", whose value in paise is 123456; the HDFC parser,
    which strips the commas itself, returns 123456, while the SIB and
    generic parsers, which go through [parseAmount], return 12345600:
    [parseAmount] also strips the decimal point. *)
Lemma decimal_amount_evaluated :
  option_map (fun m => grp m 1)
    (exec (seq [stri "Rs"; opt (str "."); star ws; Grp 1 amount_tail])
       decimal_amount_body) = Some (lit "1,234.56") /\
  num_to_Z (Math_round (num_mul (parseFloat (lit "1234.56")) n100))
  = Some 123456 /\
  option_map num_to_Z (parseAmount (lit "1,234.56")) = Some (Some 12345600) /\
  option_map (fun tx => num_to_Z (tx_amount tx))
    (pr_transaction
       (hdfc.parseHDFCEmail example_env decimal_amount_body [] InvalidDate))
  = Some (Some 123456) /\
  option_map (fun tx => num_to_Z (tx_amount tx))
    (pr_transaction
       (sib.parseSIBEmail example_env decimal_amount_body [] InvalidDate))
  = Some (Some 12345600) /\
  option_map (fun tx => num_to_Z (tx_amount tx))
    (pr_transaction
       (generic.parseGenericBankEmail example_env decimal_amount_body []
          InvalidDate ICICI))
  = Some (Some 12345600).
Proof. repeat split; vm_compute; reflexivity. Qed.

(* ===================================================================== *)
(** * Further properties *)
(* ===================================================================== *)

(** ** Further properties of the categorization engine *)

Lemma tx_ids_cons (t : TxToCategorize) (ts : list TxToCategorize) :
  tx_ids (t :: ts) = {[tc_id t]} ∪ tx_ids ts.
Proof. reflexivity. Qed.

Lemma tx_ids_app (l1 l2 : list TxToCategorize) :
  tx_ids (l1 ++ l2) = tx_ids l1 ∪ tx_ids l2.
Proof. unfold tx_ids. rewrite map_app. apply list_to_set_app_L. Qed.

Lemma tx_ids_elem (t : TxToCategorize) (ts : list TxToCategorize) :
  t ∈ ts -> tc_id t ∈ tx_ids ts.
Proof.
  intros H. unfold tx_ids. apply elem_of_list_to_set.
  apply list_elem_of_fmap. exists t. split; [reflexivity|exact H].
Qed.

Lemma cat_fill_missing_dom (cats : list Category) (batch : list TxToCategorize)
    (results : gmap jsstring CategorizationResult) :
  dom (cat_fill_missing cats batch results) = dom results ∪ tx_ids batch.
Proof.
  revert results. induction batch as [|t batch IH]; intros results.
  - cbn. unfold tx_ids. simpl. set_solver.
  - cbn [cat_fill_missing]. rewrite IH, tx_ids_cons.
    destruct (results !! tc_id t) eqn:E.
    + apply elem_of_dom_2 in E. set_solver.
    + rewrite dom_insert_L. set_solver.
Qed.

Lemma cat_process_results_dom (cats : list Category)
    (batch : list TxToCategorize) (items : list (option CatReply))
    (results : gmap jsstring CategorizationResult) :
  dom results ⊆ dom (fst (cat_process_results cats batch items results)).
Proof.
  revert results. induction items as [|item items IH]; intros results.
  - reflexivity.
  - cbn [cat_process_results]. destruct item as [result|]; [|reflexivity].
    destruct (rp_id result) as [rid|]; [|apply IH].
    etransitivity; [|apply IH]. rewrite dom_insert_L. set_solver.
Qed.

Lemma cat_batch_step_dom (cats : list Category)
    (reply : Completion (list (option CatReply)))
    (batch : list TxToCategorize)
    (results : gmap jsstring CategorizationResult) :
  dom results ∪ tx_ids batch ⊆ dom (cat_batch_step cats reply batch results).
Proof.
  unfold cat_batch_step.
  destruct reply as [message| |items]; rewrite cat_fill_missing_dom;
    try reflexivity.
  pose proof (cat_process_results_dom cats batch items results). set_solver.
Qed.

Lemma cat_batch_loop_dom (cats : list Category)
    (oracle : BatchOracle TxToCategorize CatReply) (i : nat)
    (bs : list (list TxToCategorize))
    (results : gmap jsstring CategorizationResult) :
  dom results ∪ tx_ids (concat bs)
    ⊆ dom (cat_batch_loop cats oracle i bs results).
Proof.
  revert i results. induction bs as [|batch bs IH]; intros i results.
  - cbn. unfold tx_ids. simpl. set_solver.
  - cbn [cat_batch_loop concat]. rewrite tx_ids_app.
    etransitivity; [|apply IH].
    pose proof (cat_batch_step_dom cats (oracle i batch) batch results).
    set_solver.
Qed.

Lemma cat_set_defaults_dom (cats : list Category)
    (transactions : list TxToCategorize)
    (results : gmap jsstring CategorizationResult) :
  dom (cat_set_defaults cats transactions results)
  = dom results ∪ tx_ids transactions.
Proof.
  revert results. induction transactions as [|t ts IH]; intros results.
  - cbn. unfold tx_ids. simpl. set_solver.
  - cbn [cat_set_defaults]. rewrite IH, dom_insert_L, tx_ids_cons. set_solver.
Qed.

(** X1: whatever the oracle does, [batchCategorize] returns a
    categorization for every input transaction id. *)
Theorem batchCategorize_covers_input (cats : list Category)
    (oracle : BatchOracle TxToCategorize CatReply)
    (transactions : list TxToCategorize) (openaiApiKey : option jsstring)
    (tx : TxToCategorize) :
  tx ∈ transactions ->
  is_Some (batchCategorize cats oracle transactions openaiApiKey !! tc_id tx).
Proof.
  intros Hin. apply elem_of_dom. apply tx_ids_elem in Hin.
  unfold batchCategorize.
  destruct (negb (key_present openaiApiKey) || Nat.eqb (length transactions) 0).
  - rewrite cat_set_defaults_dom. set_solver.
  - pose proof (cat_batch_loop_dom cats oracle 0
                  (batches BATCH_SIZE_CAT transactions) ∅) as H.
    rewrite batches_concat in H by (unfold BATCH_SIZE_CAT; lia). set_solver.
Qed.

Lemma batchCategorize_covers_input_witness :
  is_Some (batchCategorize sample_catalog (fun _ _ => Throws None)
             sample_transactions some_key !! lit "t1").
Proof.
  apply (batchCategorize_covers_input sample_catalog (fun _ _ => Throws None)
           sample_transactions some_key
           (mkToCat (lit "t1") (lit "ZEPTO") (num_of_Z 16900) DEBIT)).
  apply list_elem_of_here.
Defined.

Lemma other_id_in_catalog (cats : list Category) :
  in_catalog cats (other_id cats).
Proof.
  unfold other_id.
  destruct (List.find _ cats) as [c|] eqn:E; [|exact I].
  destruct (str_truthy (cat_id c)); [|exact I].
  apply find_some in E. destruct E as [Hin _].
  exists c. split; [apply list_elem_of_In; exact Hin|reflexivity].
Qed.

Lemma valid_category_in_catalog (cats : list Category) (id : option jsstring) :
  valid_category cats id = true -> in_catalog cats id.
Proof.
  unfold valid_category. destruct id as [i|]; [|discriminate].
  destruct (List.find _ cats) as [c|] eqn:E; [|discriminate]. intros _.
  apply find_some in E. destruct E as [Hin Heq].
  apply bool_decide_eq_true in Heq.
  exists c. split; [apply list_elem_of_In; exact Hin|exact Heq].
Qed.

Lemma categorize_item_in_catalog (cats : list Category)
    (batch : list TxToCategorize) (rid : jsstring) (result : CatReply) :
  in_catalog cats (cr_categoryId (categorize_item cats batch rid result)).
Proof.
  unfold categorize_item. cbn [cr_categoryId].
  destruct (valid_category cats (rp_categoryId result)) eqn:E.
  - apply valid_category_in_catalog. exact E.
  - apply other_id_in_catalog.
Qed.

Lemma cat_process_results_in_catalog (cats : list Category)
    (batch : list TxToCategorize) (items : list (option CatReply))
    (results : gmap jsstring CategorizationResult) :
  map_Forall (fun _ c => in_catalog cats (cr_categoryId c)) results ->
  map_Forall (fun _ c => in_catalog cats (cr_categoryId c))
    (fst (cat_process_results cats batch items results)).
Proof.
  revert results. induction items as [|item items IH]; intros results Hr.
  - exact Hr.
  - cbn [cat_process_results]. destruct item as [result|]; [|exact Hr].
    destruct (rp_id result) as [rid|]; [|apply IH; exact Hr].
    apply IH. apply map_Forall_insert_2; [|exact Hr].
    apply categorize_item_in_catalog.
Qed.

Lemma cat_fill_missing_in_catalog (cats : list Category)
    (batch : list TxToCategorize)
    (results : gmap jsstring CategorizationResult) :
  map_Forall (fun _ c => in_catalog cats (cr_categoryId c)) results ->
  map_Forall (fun _ c => in_catalog cats (cr_categoryId c))
    (cat_fill_missing cats batch results).
Proof.
  revert results. induction batch as [|t batch IH]; intros results Hr.
  - exact Hr.
  - cbn [cat_fill_missing]. apply IH.
    destruct (results !! tc_id t); [exact Hr|].
    apply map_Forall_insert_2; [|exact Hr]. apply other_id_in_catalog.
Qed.

Lemma cat_batch_loop_in_catalog (cats : list Category)
    (oracle : BatchOracle TxToCategorize CatReply) (i : nat)
    (bs : list (list TxToCategorize))
    (results : gmap jsstring CategorizationResult) :
  map_Forall (fun _ c => in_catalog cats (cr_categoryId c)) results ->
  map_Forall (fun _ c => in_catalog cats (cr_categoryId c))
    (cat_batch_loop cats oracle i bs results).
Proof.
  revert i results. induction bs as [|batch bs IH]; intros i results Hr.
  - exact Hr.
  - cbn [cat_batch_loop]. apply IH. unfold cat_batch_step.
    destruct (oracle i batch) as [message| |items];
      try (apply cat_fill_missing_in_catalog; exact Hr).
    apply cat_fill_missing_in_catalog, cat_process_results_in_catalog, Hr.
Qed.

Lemma cat_set_defaults_in_catalog (cats : list Category)
    (transactions : list TxToCategorize)
    (results : gmap jsstring CategorizationResult) :
  map_Forall (fun _ c => in_catalog cats (cr_categoryId c)) results ->
  map_Forall (fun _ c => in_catalog cats (cr_categoryId c))
    (cat_set_defaults cats transactions results).
Proof.
  revert results. induction transactions as [|t ts IH]; intros results Hr.
  - exact Hr.
  - cbn [cat_set_defaults]. apply IH.
    apply map_Forall_insert_2; [|exact Hr]. apply other_id_in_catalog.
Qed.

(** X2: whatever the oracle replies, every category id returned by
    [batchCategorize] and by [categorizeTransaction] is null or the id of a
    category of the live catalog. *)
Theorem categorization_stays_in_catalog :
  (forall (cats : list Category) (oracle : BatchOracle TxToCategorize CatReply)
          (transactions : list TxToCategorize)
          (openaiApiKey : option jsstring) (id : jsstring)
          (c : CategorizationResult),
      batchCategorize cats oracle transactions openaiApiKey !! id = Some c ->
      in_catalog cats (cr_categoryId c)) /\
  (forall (cats : list Category)
          (oracle : jsstring -> number -> TransactionType -> Completion CatReply)
          (merchant : jsstring) (amount : number) (type : TransactionType)
          (openaiApiKey : option jsstring),
      in_catalog cats
        (cr_categoryId
           (fst (categorizeTransaction cats oracle merchant amount type
                   openaiApiKey)))).
Proof.
  split.
  - intros cats oracle transactions key id c Hlook.
    assert (H : map_Forall (fun _ c => in_catalog cats (cr_categoryId c))
                  (batchCategorize cats oracle transactions key)).
    { unfold batchCategorize.
      destruct (negb (key_present key) || Nat.eqb (length transactions) 0).
      - apply cat_set_defaults_in_catalog, map_Forall_empty.
      - apply cat_batch_loop_in_catalog, map_Forall_empty. }
    exact (H id c Hlook).
  - intros cats oracle merchant amount type key. unfold categorizeTransaction.
    destruct (negb (key_present key)); cbn [fst];
      [apply other_id_in_catalog|].
    destruct (oracle merchant amount type) as [message| |parsed];
      try apply other_id_in_catalog.
    cbn [cr_categoryId].
    destruct (valid_category cats (rp_categoryId parsed)) eqn:E.
    + apply valid_category_in_catalog. exact E.
    + apply other_id_in_catalog.
Qed.

Lemma categorization_stays_in_catalog_witness :
  exists c,
    batchCategorize sample_catalog (batch_reply "nope" (decimal 2 1))
      sample_transactions some_key !! lit "t1" = Some c /\
    in_catalog sample_catalog (cr_categoryId c).
Proof.
  eexists. split; [vm_compute; reflexivity|].
  apply (proj1 categorization_stays_in_catalog sample_catalog
           (batch_reply "nope" (decimal 2 1)) sample_transactions some_key
           (lit "t1")).
  vm_compute. reflexivity.
Defined.

Lemma cat_fill_missing_defaults (cats : list Category)
    (all batch : list TxToCategorize)
    (results : gmap jsstring CategorizationResult) :
  (forall t, t ∈ batch -> t ∈ all) ->
  map_Forall (fun id c => exists t, t ∈ all /\ tc_id t = id /\
                c = default_categorization cats (tc_merchant t)) results ->
  map_Forall (fun id c => exists t, t ∈ all /\ tc_id t = id /\
                c = default_categorization cats (tc_merchant t))
    (cat_fill_missing cats batch results).
Proof.
  revert results. induction batch as [|t batch IH]; intros results Hsub Hr.
  - exact Hr.
  - cbn [cat_fill_missing]. apply IH.
    + intros u Hu. apply Hsub. apply list_elem_of_further. exact Hu.
    + destruct (results !! tc_id t); [exact Hr|].
      apply map_Forall_insert_2; [|exact Hr].
      exists t. split; [apply Hsub, list_elem_of_here|]. split; reflexivity.
Qed.

Lemma cat_set_defaults_defaults (cats : list Category)
    (all transactions : list TxToCategorize)
    (results : gmap jsstring CategorizationResult) :
  (forall t, t ∈ transactions -> t ∈ all) ->
  map_Forall (fun id c => exists t, t ∈ all /\ tc_id t = id /\
                c = default_categorization cats (tc_merchant t)) results ->
  map_Forall (fun id c => exists t, t ∈ all /\ tc_id t = id /\
                c = default_categorization cats (tc_merchant t))
    (cat_set_defaults cats transactions results).
Proof.
  revert results. induction transactions as [|t ts IH]; intros results Hsub Hr.
  - exact Hr.
  - cbn [cat_set_defaults]. apply IH.
    + intros u Hu. apply Hsub. apply list_elem_of_further. exact Hu.
    + apply map_Forall_insert_2; [|exact Hr].
      exists t. split; [apply Hsub, list_elem_of_here|]. split; reflexivity.
Qed.

Lemma in_concat_batches {A} (bs : list (list A)) (b : list A) (x : A) :
  b ∈ bs -> x ∈ b -> x ∈ concat bs.
Proof.
  intros Hb Hx. apply list_elem_of_In. apply in_concat.
  exists b. split; apply list_elem_of_In; assumption.
Qed.

Lemma cat_batch_loop_defaults (cats : list Category)
    (oracle : BatchOracle TxToCategorize CatReply)
    (all : list TxToCategorize) (i : nat) (bs : list (list TxToCategorize))
    (results : gmap jsstring CategorizationResult) :
  oracle_down oracle ->
  (forall b t, b ∈ bs -> t ∈ b -> t ∈ all) ->
  map_Forall (fun id c => exists t, t ∈ all /\ tc_id t = id /\
                c = default_categorization cats (tc_merchant t)) results ->
  map_Forall (fun id c => exists t, t ∈ all /\ tc_id t = id /\
                c = default_categorization cats (tc_merchant t))
    (cat_batch_loop cats oracle i bs results).
Proof.
  intros Hdown. revert i results.
  induction bs as [|batch bs IH]; intros i results Hsub Hr.
  - exact Hr.
  - cbn [cat_batch_loop]. apply IH.
    + intros b t Hb. apply Hsub. apply list_elem_of_further. exact Hb.
    + unfold cat_batch_step. pose proof (Hdown i batch) as Hf.
      destruct (oracle i batch) as [message| |items]; [| |contradiction];
        apply cat_fill_missing_defaults; try exact Hr;
        intros t Ht; apply (Hsub batch t); [apply list_elem_of_here|exact Ht
                                           |apply list_elem_of_here|exact Ht].
Qed.

(** X3: without a credential, or when every request to the oracle fails,
    each categorization returned by [batchCategorize] is the safe default
    of an input transaction with that id: the catalog's "Other" id (or
    null), that transaction's merchant unchanged, no subcategory,
    confidence 0.3. *)
Theorem batchCategorize_safe_default (cats : list Category)
    (oracle : BatchOracle TxToCategorize CatReply)
    (transactions : list TxToCategorize) (openaiApiKey : option jsstring)
    (id : jsstring) (c : CategorizationResult) :
  key_present openaiApiKey = false \/ oracle_down oracle ->
  batchCategorize cats oracle transactions openaiApiKey !! id = Some c ->
  exists tx,
    tx ∈ transactions /\ tc_id tx = id /\
    c = mkCat (other_id cats) (tc_merchant tx) None n0_3.
Proof.
  intros Hcase Hlook.
  assert (H : map_Forall
                (fun id c => exists t, t ∈ transactions /\ tc_id t = id /\
                   c = default_categorization cats (tc_merchant t))
                (batchCategorize cats oracle transactions openaiApiKey)).
  { unfold batchCategorize.
    destruct (negb (key_present openaiApiKey)
              || Nat.eqb (length transactions) 0) eqn:E.
    - apply cat_set_defaults_defaults; [auto|apply map_Forall_empty].
    - destruct Hcase as [Hk|Hdown]; [rewrite Hk in E; discriminate|].
      apply cat_batch_loop_defaults; [exact Hdown| |apply map_Forall_empty].
      intros b t Hb Ht.
      rewrite <- (batches_concat BATCH_SIZE_CAT transactions)
        by (unfold BATCH_SIZE_CAT; lia).
      exact (in_concat_batches _ b t Hb Ht). }
  exact (H id c Hlook).
Qed.

Lemma batchCategorize_safe_default_witness :
  exists tx,
    tx ∈ sample_transactions /\ tc_id tx = lit "t1" /\
    mkCat (Some (lit "c-other")) (lit "ZEPTO") None n0_3
    = mkCat (other_id sample_catalog) (tc_merchant tx) None n0_3.
Proof.
  apply (batchCategorize_safe_default sample_catalog
           (batch_reply "c-food" (decimal 9 1)) sample_transactions None
           (lit "t1")).
  - left. reflexivity.
  - vm_compute. reflexivity.
Defined.

(** ** Further properties of the batched fallback *)

Lemma llm_failure_ok (emails : list EmailToParse) (id msg : jsstring) :
  llm_outcome_ok emails id (llm_failure msg (Some true)).
Proof. split; [reflexivity|]. cbn. split; [reflexivity|eauto]. Qed.

Lemma find_email (batch : list EmailToParse) (rid : jsstring)
    (email : EmailToParse) :
  List.find (fun e => str_eqb (ep_id e) rid) batch = Some email ->
  email ∈ batch /\ ep_id email = rid.
Proof.
  intros H. apply find_some in H. destruct H as [Hin Heq].
  apply bool_decide_eq_true in Heq.
  split; [apply list_elem_of_In; exact Hin|exact Heq].
Qed.

Lemma llm_process_results_ok (env : Env) (emails batch : list EmailToParse)
    (items : list (option BatchLLMParseResult))
    (results : gmap jsstring ParserResult) :
  (forall e, e ∈ batch -> e ∈ emails) ->
  map_Forall (llm_outcome_ok emails) results ->
  map_Forall (llm_outcome_ok emails)
    (fst (llm_process_results env batch items results)).
Proof.
  intros Hsub. revert results.
  induction items as [|item items IH]; intros results Hr.
  - exact Hr.
  - cbn [llm_process_results]. destruct item as [result|]; [|exact Hr].
    destruct (bp_id result) as [rid|]; [|apply IH; exact Hr].
    destruct (List.find _ batch) as [email|] eqn:Hfind; [|apply IH; exact Hr].
    apply find_email in Hfind. destruct Hfind as [Hin Hid].
    destruct (required_fields (bp_fields result)) as [[[a t] m]|] eqn:Hreq.
    + apply IH. apply map_Forall_insert_2; [|exact Hr].
      split; [reflexivity|]. cbn [pr_success].
      eexists _, email. cbn [pr_transaction pr_error].
      repeat split; auto.
    + apply IH. apply map_Forall_insert_2; [|exact Hr]. apply llm_failure_ok.
Qed.

Lemma mark_missing_ok (emails : list EmailToParse) (msg : jsstring)
    (batch : list EmailToParse) (results : gmap jsstring ParserResult) :
  map_Forall (llm_outcome_ok emails) results ->
  map_Forall (llm_outcome_ok emails) (mark_missing msg batch results).
Proof.
  revert results. induction batch as [|e batch IH]; intros results Hr.
  - exact Hr.
  - cbn [mark_missing]. apply IH. destruct (results !! ep_id e); [exact Hr|].
    apply map_Forall_insert_2; [|exact Hr]. apply llm_failure_ok.
Qed.

Lemma llm_batch_step_ok (env : Env) (emails : list EmailToParse)
    (reply : Completion (list (option BatchLLMParseResult)))
    (batch : list EmailToParse) (results : gmap jsstring ParserResult) :
  (forall e, e ∈ batch -> e ∈ emails) ->
  map_Forall (llm_outcome_ok emails) results ->
  map_Forall (llm_outcome_ok emails) (llm_batch_step env reply batch results).
Proof.
  intros Hsub Hr. unfold llm_batch_step.
  destruct reply as [[message|]| |items]; try (apply mark_missing_ok; exact Hr).
  pose proof (llm_process_results_ok env emails batch items results Hsub Hr) as H.
  destruct (llm_process_results env batch items results) as [results' [message|]];
    apply mark_missing_ok; exact H.
Qed.

Lemma llm_batch_loop_ok (env : Env) (emails : list EmailToParse)
    (oracle : BatchOracle EmailToParse BatchLLMParseResult) (i : nat)
    (bs : list (list EmailToParse)) (results : gmap jsstring ParserResult) :
  (forall b e, b ∈ bs -> e ∈ b -> e ∈ emails) ->
  map_Forall (llm_outcome_ok emails) results ->
  map_Forall (llm_outcome_ok emails) (llm_batch_loop env oracle i bs results).
Proof.
  revert i results. induction bs as [|batch bs IH]; intros i results Hsub Hr.
  - exact Hr.
  - cbn [llm_batch_loop]. apply IH.
    + intros b e Hb. apply Hsub. apply list_elem_of_further. exact Hb.
    + apply llm_batch_step_ok; [|exact Hr].
      intros e. apply Hsub. apply list_elem_of_here.
Qed.

Lemma set_all_unconfigured_ok (emails all : list EmailToParse)
    (results : gmap jsstring ParserResult) :
  map_Forall (llm_outcome_ok all) results ->
  map_Forall (llm_outcome_ok all) (set_all_unconfigured emails results).
Proof.
  revert results. induction emails as [|e emails IH]; intros results Hr.
  - exact Hr.
  - cbn [set_all_unconfigured]. apply IH.
    apply map_Forall_insert_2; [|exact Hr]. apply llm_failure_ok.
Qed.

(** X4: for every reply of the oracle, every outcome returned by
    [batchParseLLMFallback] is tagged [usedLLM]; a successful one carries
    no error and a transaction with confidence 0.7 and the bank of the
    input email of that id; a failed one carries an error message and no
    transaction. *)
Theorem batchParseLLMFallback_outcomes (env : Env)
    (oracle : BatchOracle EmailToParse BatchLLMParseResult)
    (emails : list EmailToParse) (openaiApiKey : option jsstring)
    (id : jsstring) (r : ParserResult) :
  fst (batchParseLLMFallback env oracle emails openaiApiKey) !! id = Some r ->
  llm_outcome_ok emails id r.
Proof.
  intros Hlook.
  assert (H : map_Forall (llm_outcome_ok emails)
                (fst (batchParseLLMFallback env oracle emails openaiApiKey))).
  { unfold batchParseLLMFallback.
    destruct (negb (key_present openaiApiKey) || Nat.eqb (length emails) 0);
      cbn [fst].
    - apply set_all_unconfigured_ok, map_Forall_empty.
    - apply llm_batch_loop_ok; [|apply map_Forall_empty].
      intros b e Hb He.
      rewrite <- (batches_concat BATCH_SIZE_LLM emails)
        by (unfold BATCH_SIZE_LLM; lia).
      exact (in_concat_batches _ b e Hb He). }
  exact (H id r Hlook).
Qed.

Lemma batchParseLLMFallback_outcomes_witness :
  llm_outcome_ok two_emails (lit "id-1")
    (mkResult true
       (Some (llm_transaction example_env shop_reply (num_of_Z 100)
                (lit "debit") (lit "Shop") InvalidDate HDFC))
       None (Some true) None) /\
  llm_outcome_ok two_emails (lit "id-2")
    (llm_failure (lit "Email not in LLM response") (Some true)).
Proof.
  split.
  - apply (batchParseLLMFallback_outcomes example_env shop_batch_oracle
             two_emails some_key (lit "id-1")).
    vm_compute. reflexivity.
  - apply (batchParseLLMFallback_outcomes example_env shop_batch_oracle
             two_emails some_key (lit "id-2")).
    vm_compute. reflexivity.
Defined.

(** *** Batches are isolated from one another *)

Lemma llm_process_results_outside (env : Env) (batch : list EmailToParse)
    (items : list (option BatchLLMParseResult))
    (results : gmap jsstring ParserResult) (id : jsstring) :
  id ∉ email_ids batch ->
  fst (llm_process_results env batch items results) !! id = results !! id.
Proof.
  intros Hid. revert results.
  induction items as [|item items IH]; intros results; [reflexivity|].
  cbn [llm_process_results]. destruct item as [result|]; [|reflexivity].
  destruct (bp_id result) as [rid|]; [|apply IH].
  destruct (List.find _ batch) as [email|] eqn:Hfind; [|apply IH].
  apply find_email_id in Hfind.
  assert (Hne : rid <> id) by (intros ->; contradiction).
  destruct (required_fields (bp_fields result)) as [[[a t] m]|];
    rewrite IH; apply lookup_insert_ne; exact Hne.
Qed.

Lemma mark_missing_outside (msg : jsstring) (batch : list EmailToParse)
    (results : gmap jsstring ParserResult) (id : jsstring) :
  id ∉ email_ids batch ->
  mark_missing msg batch results !! id = results !! id.
Proof.
  revert results. induction batch as [|e batch IH]; intros results Hid.
  - reflexivity.
  - cbn [mark_missing]. rewrite email_ids_cons in Hid.
    rewrite IH by set_solver.
    destruct (results !! ep_id e); [reflexivity|].
    apply lookup_insert_ne. set_solver.
Qed.

Lemma llm_batch_step_outside (env : Env)
    (reply : Completion (list (option BatchLLMParseResult)))
    (batch : list EmailToParse) (results : gmap jsstring ParserResult)
    (id : jsstring) :
  id ∉ email_ids batch ->
  llm_batch_step env reply batch results !! id = results !! id.
Proof.
  intros Hid. unfold llm_batch_step.
  destruct reply as [[message|]| |items];
    try (apply mark_missing_outside; exact Hid).
  pose proof (llm_process_results_outside env batch items results id Hid) as H.
  destruct (llm_process_results env batch items results) as [results' [message|]];
    cbn [fst] in H; rewrite mark_missing_outside by exact Hid; exact H.
Qed.

Lemma llm_batch_loop_outside (env : Env)
    (oracle : BatchOracle EmailToParse BatchLLMParseResult) (i : nat)
    (bs : list (list EmailToParse)) (results : gmap jsstring ParserResult)
    (id : jsstring) :
  id ∉ email_ids (concat bs) ->
  llm_batch_loop env oracle i bs results !! id = results !! id.
Proof.
  revert i results. induction bs as [|batch bs IH]; intros i results Hid.
  - reflexivity.
  - cbn [llm_batch_loop concat] in *. rewrite email_ids_app in Hid.
    rewrite IH by set_solver. apply llm_batch_step_outside. set_solver.
Qed.

Lemma llm_process_results_agree (env : Env) (batch : list EmailToParse)
    (items : list (option BatchLLMParseResult))
    (r1 r2 : gmap jsstring ParserResult) :
  agree_on (email_ids batch) r1 r2 ->
  snd (llm_process_results env batch items r1)
  = snd (llm_process_results env batch items r2) /\
  agree_on (email_ids batch)
    (fst (llm_process_results env batch items r1))
    (fst (llm_process_results env batch items r2)).
Proof.
  revert r1 r2. induction items as [|item items IH]; intros r1 r2 Hag.
  - split; [reflexivity|exact Hag].
  - cbn [llm_process_results]. destruct item as [result|];
      [|split; [reflexivity|exact Hag]].
    destruct (bp_id result) as [rid|]; [|apply IH; exact Hag].
    destruct (List.find _ batch) as [email|]; [|apply IH; exact Hag].
    destruct (required_fields (bp_fields result)) as [[[a t] m]|];
      apply IH; intros id Hid;
      (destruct (decide (rid = id)) as [->|Hne];
       [rewrite !lookup_insert_eq; reflexivity
       |rewrite !lookup_insert_ne by exact Hne; apply Hag; exact Hid]).
Qed.

Lemma mark_missing_agree (ids : gset jsstring) (msg : jsstring)
    (batch : list EmailToParse) (r1 r2 : gmap jsstring ParserResult) :
  email_ids batch ⊆ ids ->
  agree_on ids r1 r2 ->
  agree_on ids (mark_missing msg batch r1) (mark_missing msg batch r2).
Proof.
  revert r1 r2. induction batch as [|e batch IH]; intros r1 r2 Hsub Hag.
  - exact Hag.
  - cbn [mark_missing]. rewrite email_ids_cons in Hsub.
    apply IH; [set_solver|].
    rewrite <- (Hag (ep_id e)) by set_solver.
    destruct (r1 !! ep_id e) eqn:E; [exact Hag|].
    intros id Hid. destruct (decide (ep_id e = id)) as [->|Hne].
    + rewrite !lookup_insert_eq. reflexivity.
    + rewrite !lookup_insert_ne by exact Hne. apply Hag. exact Hid.
Qed.

Lemma llm_batch_step_agree (env : Env)
    (reply : Completion (list (option BatchLLMParseResult)))
    (batch : list EmailToParse) (r1 r2 : gmap jsstring ParserResult) :
  agree_on (email_ids batch) r1 r2 ->
  agree_on (email_ids batch)
    (llm_batch_step env reply batch r1) (llm_batch_step env reply batch r2).
Proof.
  intros Hag. unfold llm_batch_step.
  destruct reply as [[message|]| |items];
    try (apply mark_missing_agree; [reflexivity|exact Hag]).
  destruct (llm_process_results_agree env batch items r1 r2 Hag) as [Hs Hf].
  destruct (llm_process_results env batch items r1) as [r1' e1].
  destruct (llm_process_results env batch items r2) as [r2' e2].
  cbn [fst snd] in *. subst e2.
  destruct e1 as [message|]; apply mark_missing_agree;
    try reflexivity; exact Hf.
Qed.

Lemma NoDup_ids_app (l1 l2 : list EmailToParse) :
  NoDup (map ep_id (l1 ++ l2)) ->
  NoDup (map ep_id l2) /\
  (forall id, id ∈ email_ids l1 -> id ∉ email_ids l2).
Proof.
  rewrite map_app. intros H. apply NoDup_app in H.
  destruct H as (_ & Hdis & H2). split; [exact H2|].
  intros id H1 Hin2. unfold email_ids in *.
  apply elem_of_list_to_set in H1. apply elem_of_list_to_set in Hin2.
  exact (Hdis id H1 Hin2).
Qed.

Lemma llm_batch_loop_lookup (env : Env)
    (oracle : BatchOracle EmailToParse BatchLLMParseResult)
    (bs : list (list EmailToParse)) :
  forall (i j : nat) (results : gmap jsstring ParserResult)
         (batch : list EmailToParse) (id : jsstring),
    NoDup (map ep_id (concat bs)) ->
    (forall id', id' ∈ email_ids (concat bs) -> results !! id' = None) ->
    bs !! j = Some batch ->
    id ∈ email_ids batch ->
    llm_batch_loop env oracle i bs results !! id
    = llm_batch_step env (oracle (i + j)%nat batch) batch ∅ !! id.
Proof.
  induction bs as [|b bs IH]; intros i j results batch id Hnd Hfree Hj Hid.
  - discriminate.
  - cbn [llm_batch_loop concat] in *.
    destruct (NoDup_ids_app b (concat bs) Hnd) as [Hnd' Hdis].
    destruct j as [|j].
    + injection Hj as <-. rewrite Nat.add_0_r.
      rewrite llm_batch_loop_outside by (apply Hdis; exact Hid).
      apply llm_batch_step_agree; [|exact Hid].
      intros id' Hid'. rewrite lookup_empty. apply Hfree.
      rewrite email_ids_app. set_solver.
    + cbn in Hj. rewrite (IH (S i) j _ batch id Hnd'); [|  |exact Hj|exact Hid].
      * replace (S i + j)%nat with (i + S j)%nat by lia. reflexivity.
      * intros id' Hid'. rewrite llm_batch_step_outside.
        { apply Hfree. rewrite email_ids_app. set_solver. }
        intros Hb. exact (Hdis id' Hb Hid').
Qed.

Lemma mark_missing_lookup (msg : jsstring) (batch : list EmailToParse)
    (id : jsstring) :
  id ∈ email_ids batch ->
  mark_missing msg batch ∅ !! id = Some (llm_failure msg (Some true)).
Proof.
  assert (H : forall results,
            (forall id' r, results !! id' = Some r ->
                           r = llm_failure msg (Some true)) ->
            forall id' r, mark_missing msg batch results !! id' = Some r ->
                          r = llm_failure msg (Some true)).
  { induction batch as [|e batch IH]; intros results Hr; [exact Hr|].
    cbn [mark_missing]. apply IH. destruct (results !! ep_id e); [exact Hr|].
    intros id' r. destruct (decide (ep_id e = id')) as [->|Hne].
    - rewrite lookup_insert_eq. intros [= <-]. reflexivity.
    - rewrite lookup_insert_ne by exact Hne. apply Hr. }
  intros Hid.
  assert (Hdom : id ∈ dom (mark_missing msg batch ∅))
    by (rewrite mark_missing_dom; set_solver).
  apply elem_of_dom in Hdom. destruct Hdom as [r Hr]. rewrite Hr. f_equal.
  apply (H ∅) with (id' := id); [|exact Hr].
  intros id' r'. rewrite lookup_empty. discriminate.
Qed.

(** X5: with a credential and distinct email ids, the outcome of an email
    depends only on the reply to its own batch: it is what that batch's
    request alone would give, whatever happens to the other batches.  In
    particular, when the request of a batch throws, every email of that
    batch is marked failed with the thrown message. *)
Theorem llm_batches_isolated (env : Env)
    (oracle : BatchOracle EmailToParse BatchLLMParseResult)
    (emails : list EmailToParse) (openaiApiKey : option jsstring)
    (j : nat) (batch : list EmailToParse) (email : EmailToParse) :
  key_present openaiApiKey = true ->
  NoDup (map ep_id emails) ->
  batches BATCH_SIZE_LLM emails !! j = Some batch ->
  email ∈ batch ->
  fst (batchParseLLMFallback env oracle emails openaiApiKey) !! ep_id email
  = llm_batch_step env (oracle j batch) batch ∅ !! ep_id email /\
  (forall message,
      oracle j batch = Throws (Some message) ->
      fst (batchParseLLMFallback env oracle emails openaiApiKey) !! ep_id email
      = Some (llm_failure message (Some true))).
Proof.
  intros Hkey Hnd Hj Hin.
  assert (Hmain :
    fst (batchParseLLMFallback env oracle emails openaiApiKey) !! ep_id email
    = llm_batch_step env (oracle j batch) batch ∅ !! ep_id email).
  { unfold batchParseLLMFallback. rewrite Hkey. cbn [negb orb].
    destruct emails as [|e0 emails']; [discriminate|].
    cbn [length Nat.eqb fst].
    rewrite (llm_batch_loop_lookup env oracle _ 0 j ∅ batch (ep_id email)).
    - reflexivity.
    - rewrite batches_concat by (unfold BATCH_SIZE_LLM; lia). exact Hnd.
    - intros id' _. apply lookup_empty.
    - exact Hj.
    - apply email_ids_elem. exact Hin. }
  split; [exact Hmain|].
  intros message Hthrow. rewrite Hmain, Hthrow. cbn [llm_batch_step].
  apply mark_missing_lookup, email_ids_elem, Hin.
Qed.

Lemma llm_batches_isolated_witness :
  fst (batchParseLLMFallback example_env second_request_throws thirty_emails
         some_key) !! [27%N]
  = Some (llm_failure (lit "503") (Some true)).
Proof.
  refine (proj2 (llm_batches_isolated example_env second_request_throws
                   thirty_emails some_key 1 (drop 25 thirty_emails)
                   (mkEmailToParse [27%N] no_merchant_body [] InvalidDate HDFC)
                   _ _ _ _) (lit "503") _).
  - reflexivity.
  - apply (bool_decide_unpack _). vm_compute. reflexivity.
  - vm_compute. reflexivity.
  - apply list_elem_of_In. vm_compute. tauto.
  - reflexivity.
Defined.

(** ** Further properties of the bank parsers and of the orchestrator *)

Lemma parseGenericBankEmail_result (env : Env) (body subject : jsstring)
    (emailDate : Date) (bank : Bank) (tx : ParsedTransaction) :
  pr_transaction (generic.parseGenericBankEmail env body subject emailDate bank)
  = Some tx ->
  generic.parseGenericBankEmail env body subject emailDate bank = succeed tx.
Proof.
  unfold generic.parseGenericBankEmail. cbv zeta.
  destruct (generic.transaction_type _ _) as [type|]; [|discriminate].
  destruct (or_else _ _) as [amountResult|]; [|discriminate].
  cbn. intros [= <-]. reflexivity.
Qed.

Lemma bank_parser_well_tagged (env : Env) (options : ParseEmailOptions) :
  well_tagged (run_bank_parser env options).
Proof.
  assert (Hfail : forall msg, well_tagged (failure msg)).
  { intros msg. right. cbn. repeat split; eauto. }
  assert (Hok : forall tx, well_tagged (succeed tx)).
  { intros tx. left. cbn. repeat split; eauto. }
  assert (Hgen : forall bank,
            well_tagged (generic.parseGenericBankEmail env (op_body options)
                           (op_subject options) (op_date options) bank)).
  { intros bank. unfold generic.parseGenericBankEmail. cbv zeta.
    destruct (generic.transaction_type _ _); [|apply Hfail].
    destruct (or_else _ _); [apply Hok|apply Hfail]. }
  unfold run_bank_parser. destruct (op_bank options); try apply Hgen.
  - unfold hdfc.parseHDFCEmail. cbv zeta.
    destruct (hdfc.is_declined _); [apply Hfail|].
    destruct (hdfc.transaction_type _); [|apply Hfail].
    destruct (hdfc.find_amount _) as [a|]; [|apply Hfail].
    destruct (negb (num_truthy a)); [apply Hfail|apply Hok].
  - unfold sib.parseSIBEmail. cbv zeta.
    destruct (sib.transaction_type _); [|apply Hfail].
    destruct (extractAmount _); [apply Hok|apply Hfail].
Qed.

Lemma run_bank_parser_shape (env : Env) (options : ParseEmailOptions)
    (tx : ParsedTransaction) :
  pr_transaction (run_bank_parser env options) = Some tx ->
  (length (tx_merchant tx) <= 100)%nat /\
  tx_bank tx = op_bank options.
Proof.
  unfold run_bank_parser. intros H.
  destruct (op_bank options) eqn:Hb;
    try (apply parseGenericBankEmail_success in H;
         destruct H as (type & a & _ & ->);
         cbn [generic.build tx_merchant tx_bank];
         unfold generic.cleanMerchantName, substring0;
         rewrite length_take; split; [lia|reflexivity]).
  - apply parseHDFCEmail_success in H. destruct H as (type & a & _ & _ & -> & _).
    cbn [hdfc.build tx_merchant tx_bank].
    unfold hdfc.cleanMerchantName, substring0.
    rewrite length_take. split; [lia|reflexivity].
  - apply parseSIBEmail_success in H. destruct H as (type & a & _ & -> & _).
    cbn [sib.build tx_merchant tx_bank].
    unfold sib.cleanMerchantName, substring0.
    rewrite length_take. split; [lia|reflexivity].
Qed.

Lemma needs_llm_false (result : ParserResult) (tx : ParsedTransaction) :
  pr_transaction result = Some tx -> needs_llm result = false ->
  pr_success result = true /\
  num_lt (tx_confidence tx) n0_7 = false /\ tx_merchant tx <> Unknown.
Proof.
  unfold needs_llm. intros -> H.
  apply orb_false_iff in H. destruct H as [H Hm].
  apply orb_false_iff in H. destruct H as [Hs Hc].
  split; [destruct (pr_success result); [reflexivity|discriminate Hs]|].
  split; [exact Hc|].
  intros Heq. unfold str_eqb in Hm. rewrite bool_decide_eq_true_2 in Hm by exact Heq.
  discriminate.
Qed.

(** X6: every transaction the deterministic pass returns comes with a
    success, has a strictly positive amount and a merchant of at most 100
    code units, and carries the bank the email was attributed to; when
    the pass does not ask for the oracle, the confidence is not below 0.7
    and the merchant is not "Unknown". *)
Theorem regex_transaction_sound (env : Env) (options : ParseEmailOptions)
    (tx : ParsedTransaction) :
  pr_transaction (parseEmailWithRegex env options) = Some tx ->
  pr_success (parseEmailWithRegex env options) = true /\
  num_gt (tx_amount tx) num_zero = true /\
  (length (tx_merchant tx) <= 100)%nat /\
  tx_bank tx = op_bank options /\
  (pr_needsLLMFallback (parseEmailWithRegex env options) = Some false ->
   num_lt (tx_confidence tx) n0_7 = false /\ tx_merchant tx <> Unknown).
Proof.
  unfold parseEmailWithRegex. cbv zeta.
  cbn [pr_transaction pr_success pr_needsLLMFallback]. intros H.
  destruct (run_bank_parser_shape env options tx H) as [Hlen Hbank].
  split.
  { destruct (bank_parser_well_tagged env options) as [(Hs & _)|(_ & Hn & _)];
      [exact Hs|congruence]. }
  split; [exact (bank_parser_amount_positive env options tx H)|].
  split; [exact Hlen|]. split; [exact Hbank|].
  intros [= Hneeds]. eapply needs_llm_false; eassumption.
Qed.

Lemma regex_transaction_sound_witness :
  exists tx,
    pr_transaction (parseEmailWithRegex example_env zepto_options) = Some tx /\
    num_gt (tx_amount tx) num_zero = true /\
    (length (tx_merchant tx) <= 100)%nat /\ tx_bank tx = HDFC /\
    num_lt (tx_confidence tx) n0_7 = false /\ tx_merchant tx <> Unknown.
Proof.
  eexists. split; [vm_compute; reflexivity|].
  destruct (regex_transaction_sound example_env zepto_options _
              ltac:(vm_compute; reflexivity))
    as (_ & Hpos & Hlen & Hbank & Hneeds).
  split; [exact Hpos|]. split; [exact Hlen|]. split; [exact Hbank|].
  apply Hneeds. vm_compute. reflexivity.
Defined.

Lemma parseLLMFallback_well_tagged (env : Env)
    (oracle : jsstring -> jsstring -> Completion LLMParseResult)
    (body subject : jsstring) (emailDate : Date) (bank : Bank)
    (openaiApiKey : option jsstring) :
  well_tagged
    (fst (parseLLMFallback env oracle body subject emailDate bank openaiApiKey)) /\
  (snd (parseLLMFallback env oracle body subject emailDate bank openaiApiKey)
   <= 1)%nat /\
  forall tx,
    pr_transaction
      (fst (parseLLMFallback env oracle body subject emailDate bank
              openaiApiKey)) = Some tx ->
    tx_confidence tx = n0_7 /\ tx_bank tx = bank /\
    key_present openaiApiKey = true.
Proof.
  unfold parseLLMFallback.
  destruct (key_present openaiApiKey); cbn [negb fst snd].
  - split; [|split; [lia|]].
    + destruct (oracle subject _) as [[message|]| |parsed];
        try solve [right; cbn; repeat split; eauto].
      destruct (required_fields parsed) as [[[a t] m]|].
      * left. cbn. repeat split; eauto.
      * right. cbn. repeat split; eauto.
    + intros tx. destruct (oracle subject _) as [[message|]| |parsed];
        try discriminate.
      destruct (required_fields parsed) as [[[a t] m]|]; [|discriminate].
      cbn. intros [= <-]. auto.
  - split; [right; cbn; repeat split; eauto|]. split; [lia|]. discriminate.
Qed.

Lemma with_usedLLM_well_tagged (r : ParserResult) (b : bool) :
  well_tagged r -> well_tagged (with_usedLLM r b).
Proof. intros H. exact H. Qed.

(** X7: [parseTransactionEmail] always returns a well-tagged result
    (success with a transaction and no error, or failure with an error and
    no transaction) and sends at most one request to the oracle; without a
    credential it sends none and returns the bank parser's result as it
    is; a result tagged [usedLLM] is a success of confidence 0.7 obtained
    from exactly one request. *)
Theorem parseTransactionEmail_outcome (env : Env)
    (oracle : jsstring -> jsstring -> Completion LLMParseResult)
    (options : ParseEmailOptions) (openaiApiKey : option jsstring) :
  let r := fst (parseTransactionEmail env oracle options openaiApiKey) in
  let calls := snd (parseTransactionEmail env oracle options openaiApiKey) in
  well_tagged r /\
  (calls <= 1)%nat /\
  (key_present openaiApiKey = false ->
   calls = 0%nat /\ r = with_usedLLM (run_bank_parser env options) false) /\
  (pr_usedLLM r = Some true ->
   calls = 1%nat /\ pr_success r = true /\
   exists tx, pr_transaction r = Some tx /\ tx_confidence tx = n0_7).
Proof.
  cbv zeta. unfold parseTransactionEmail, arbitrate.
  pose proof (bank_parser_well_tagged env options) as Hdet.
  set (det := run_bank_parser env options) in *.
  destruct (pr_success det &&
            match pr_transaction det with
            | Some tx =>
                num_ge (tx_confidence tx) n0_7
                && negb (str_eqb (tx_merchant tx) Unknown)
            | None => false
            end).
  { cbn [fst snd]. repeat split; try lia; try exact Hdet; discriminate. }
  destruct (key_present openaiApiKey) eqn:Hkey; cbn [andb].
  2:{ cbn [fst snd]. repeat split; try lia; try exact Hdet; discriminate. }
  destruct (needs_llm det).
  2:{ cbn [fst snd]. repeat split; try lia; try exact Hdet; discriminate. }
  destruct (parseLLMFallback_well_tagged env oracle (op_body options)
              (op_subject options) (op_date options) (op_bank options)
              openaiApiKey) as (Hwt & Hcalls & Hconf).
  assert (Hone : snd (parseLLMFallback env oracle (op_body options)
                        (op_subject options) (op_date options)
                        (op_bank options) openaiApiKey) = 1%nat).
  { unfold parseLLMFallback. rewrite Hkey. reflexivity. }
  destruct (parseLLMFallback env oracle (op_body options) (op_subject options)
              (op_date options) (op_bank options) openaiApiKey)
    as [llmResult calls].
  cbn [fst snd] in *. subst calls.
  destruct (pr_success llmResult) eqn:Hs.
  2:{ cbn [fst snd]. repeat split; try lia; try exact Hdet; discriminate. }
  destruct (pr_transaction llmResult) as [llmTx|] eqn:Ht.
  2:{ cbn [fst snd]. repeat split; try lia; try exact Hdet; discriminate. }
  assert (Hllm : forall x, x = (with_usedLLM llmResult true, 1%nat) ->
            well_tagged (fst x) /\ (snd x <= 1)%nat /\
            (true = false -> snd x = 0%nat /\ fst x = with_usedLLM det false) /\
            (pr_usedLLM (fst x) = Some true ->
             snd x = 1%nat /\ pr_success (fst x) = true /\
             exists tx, pr_transaction (fst x) = Some tx /\
                        tx_confidence tx = n0_7)).
  { intros x ->. cbn [fst snd]. repeat split; try lia; try exact Hwt;
      try discriminate; try exact Hs.
    exists llmTx. split; [exact Ht|]. apply (Hconf llmTx eq_refl). }
  destruct (pr_success det); [|apply Hllm; reflexivity].
  destruct (pr_transaction det) as [tx|]; [|apply Hllm; reflexivity].
  destruct (negb (str_eqb (tx_merchant tx) Unknown)
            && num_gt (tx_confidence tx) (tx_confidence llmTx));
    [|apply Hllm; reflexivity].
  cbn [fst snd]. repeat split; try lia; try exact Hdet; discriminate.
Qed.

Lemma parseTransactionEmail_outcome_witness :
  snd (parseTransactionEmail example_env shop_oracle no_merchant_options None)
  = 0%nat /\
  fst (parseTransactionEmail example_env shop_oracle no_merchant_options None)
  = with_usedLLM (run_bank_parser example_env no_merchant_options) false.
Proof.
  apply (parseTransactionEmail_outcome example_env shop_oracle
           no_merchant_options None).
  reflexivity.
Defined.

(** ** Further properties of the sync merge controller *)

Lemma from_fetched_cons (db : list Transaction) (userId : jsstring)
    (email : EmailData) (emails : list EmailData) (m s : jsstring) :
  from_fetched db userId emails m s ->
  from_fetched db userId (email :: emails) m s.
Proof.
  intros (e & He & H). exists e. split; [apply list_elem_of_further; exact He|exact H].
Qed.

Lemma pass1_step_cases (env : Env) (w : World) (userId : jsstring)
    (st : SyncState) (email : EmailData) :
  let st' := pass1_step env w userId st email in
  let id := w_uuid w (uuids_used st) in
  llmParsed st' = llmParsed st /\
  ((w_lookup_throws w email
    || isEmailProcessed (store st) userId (em_messageId email) = true /\
    parsedEmails st' = parsedEmails st /\
    emailsNeedingLLM st' = emailsNeedingLLM st /\
    regexParsed st' = regexParsed st /\
    uuids_used st' = uuids_used st) \/
   (isEmailProcessed (store st) userId (em_messageId email) = false /\
    uuids_used st' = S (uuids_used st) /\
    ((exists tx,
        pr_transaction (parseEmailWithRegex env (options_of email)) = Some tx /\
        parsedEmails st'
        = parsedEmails st
          ++ [mkParsedEmail id (em_messageId email) (em_subject email) tx] /\
        emailsNeedingLLM st' = emailsNeedingLLM st /\
        regexParsed st' = S (regexParsed st)) \/
     (parsedEmails st' = parsedEmails st /\
      emailsNeedingLLM st'
      = emailsNeedingLLM st
        ++ [mkNeedingLLM id email
              (pr_transaction (parseEmailWithRegex env (options_of email)))] /\
      regexParsed st' = regexParsed st)))).
Proof.
  unfold pass1_step. cbv zeta.
  destruct (w_lookup_throws w email).
  { split; [reflexivity|]. left. repeat split. }
  destruct (isEmailProcessed (store st) userId (em_messageId email)) eqn:E.
  { split; [reflexivity|]. left. repeat split. }
  generalize (parseEmailWithRegex env (options_of email)). intros r.
  destruct (pr_success r), (pr_transaction r) as [tx|],
    (pr_needsLLMFallback r) as [[|]|];
    (split; [reflexivity|]); right;
    (split; [reflexivity|]); (split; [reflexivity|]);
    try solve [right; repeat split];
    left; exists tx; repeat split.
Qed.

(** What pass 1 adds to the two lists, and the ids it hands out. *)
Lemma pass1_lists (env : Env) (w : World) (userId : jsstring)
    (emails : list EmailData) (st : SyncState) :
  let st' := pass1 env w userId emails st in
  exists added queued,
    parsedEmails st' = parsedEmails st ++ added /\
    emailsNeedingLLM st' = emailsNeedingLLM st ++ queued /\
    llmParsed st' = llmParsed st /\
    regexParsed st' = (regexParsed st + length added)%nat /\
    Forall (fun pe =>
              from_fetched (store st) userId emails
                (pe_emailMessageId pe) (pe_emailSubject pe)) added /\
    Forall (fun item =>
              from_fetched (store st) userId emails
                (em_messageId (nl_email item)) (em_subject (nl_email item)))
      queued /\
    map pe_id added ++ map nl_id queued
    ≡ₚ map (w_uuid w)
         (List.seq (uuids_used st) (length added + length queued)).
Proof.
  revert st. induction emails as [|email emails IH]; intros st.
  - exists [], []. cbn. rewrite !app_nil_r. repeat split; try constructor. lia.
  - unfold pass1 in *. cbn [fold_left].
    destruct (pass1_spec env w userId [email] st) as (Hstore & _).
    unfold pass1 in Hstore. cbn [fold_left] in Hstore. cbv zeta in Hstore.
    destruct (IH (pass1_step env w userId st email))
      as (added & queued & Hp & Hq & Hl & Hr & Hfa & Hfq & Hperm).
    cbv zeta in *. rewrite Hstore in Hfa, Hfq.
    assert (Hfa' : Forall (fun pe =>
              from_fetched (store st) userId (email :: emails)
                (pe_emailMessageId pe) (pe_emailSubject pe)) added).
    { eapply Forall_impl; [exact Hfa|]. intros pe. apply from_fetched_cons. }
    assert (Hfq' : Forall (fun item =>
              from_fetched (store st) userId (email :: emails)
                (em_messageId (nl_email item)) (em_subject (nl_email item)))
              queued).
    { eapply Forall_impl; [exact Hfq|]. intros pe. apply from_fetched_cons. }
    destruct (pass1_step_cases env w userId st email)
      as (Hl1 & [(_ & Hp1 & Hq1 & Hr1 & Hu1)
                |(Hnew & Hu1 & [(tx & _ & Hp1 & Hq1 & Hr1)|(Hp1 & Hq1 & Hr1)])]);
      cbv zeta in *; rewrite Hp1 in Hp; rewrite Hq1 in Hq; rewrite Hl1 in Hl;
      rewrite Hr1 in Hr; rewrite Hu1 in Hperm.
    + exists added, queued. repeat split; assumption.
    + eexists (_ :: added), queued. rewrite <- app_assoc in Hp.
      split; [exact Hp|]. split; [exact Hq|]. split; [exact Hl|].
      split; [cbn [length]; lia|].
      split; [constructor; [|exact Hfa']|].
      { exists email. repeat split; [apply list_elem_of_here|exact Hnew]. }
      split; [exact Hfq'|].
      cbn [map pe_id length app plus List.seq]. constructor. exact Hperm.
    + eexists added, (_ :: queued). rewrite <- app_assoc in Hq.
      split; [exact Hp|]. split; [exact Hq|]. split; [exact Hl|].
      split; [exact Hr|]. split; [exact Hfa'|].
      split; [constructor; [|exact Hfq']|].
      { exists email. repeat split; [apply list_elem_of_here|exact Hnew]. }
      cbn [map nl_id length].
      replace (length added + S (length queued))%nat
        with (S (length added + length queued)) by lia.
      cbn [List.seq map].
      etransitivity; [symmetry; apply Permutation_middle|].
      constructor. exact Hperm.
Qed.

Lemma pass2_step_cases (llmResults : option (gmap jsstring ParserResult))
    (st : SyncState) (item : NeedingLLM) :
  let st' := pass2_step llmResults st item in
  newTransactions st' = newTransactions st /\
  (parsedEmails st' = parsedEmails st /\
   regexParsed st' = regexParsed st /\ llmParsed st' = llmParsed st \/
   exists tx,
     parsedEmails st' = parsedEmails st ++ [parsed_email_of item tx] /\
     (regexParsed st' + llmParsed st' = S (regexParsed st + llmParsed st))%nat /\
     (llmResults = None ->
      llmParsed st' = llmParsed st /\ nl_regexResult item = Some tx)).
Proof.
  unfold pass2_step. cbv zeta.
  destruct llmResults as [results|].
  - destruct (results !! nl_id item) as [r|].
    + destruct (pr_success r), (pr_transaction r) as [tx|],
        (nl_regexResult item) as [rx|];
        (split; [reflexivity|]);
        try solve [left; repeat split];
        right; eexists; (split; [reflexivity|]);
        (split; [cbn; lia|discriminate]).
    + destruct (nl_regexResult item) as [rx|]; (split; [reflexivity|]);
        [right; eexists; (split; [reflexivity|]);
         (split; [cbn; lia|discriminate])
        |left; repeat split].
  - destruct (nl_regexResult item) as [rx|]; (split; [reflexivity|]);
      [right; eexists; (split; [reflexivity|]);
       (split; [cbn; lia|intros _; split; reflexivity])
      |left; repeat split].
Qed.

Lemma pass2_fold_lists (llmResults : option (gmap jsstring ParserResult))
    (items : list NeedingLLM) (st : SyncState) :
  let st' := fold_left (pass2_step llmResults) items st in
  newTransactions st' = newTransactions st /\
  exists promoted,
    promoted.*1 `sublist_of` items /\
    parsedEmails st'
    = parsedEmails st ++ map (fun p => parsed_email_of p.1 p.2) promoted /\
    (regexParsed st' + llmParsed st'
     = regexParsed st + llmParsed st + length promoted)%nat /\
    (llmResults = None ->
     llmParsed st' = llmParsed st /\
     Forall (fun p => nl_regexResult p.1 = Some p.2) promoted).
Proof.
  revert st. induction items as [|item items IH]; intros st.
  - cbn. split; [reflexivity|]. exists []. cbn. rewrite app_nil_r.
    repeat split; [constructor|lia|constructor].
  - cbn [fold_left].
    destruct (IH (pass2_step llmResults st item))
      as (Hn & promoted & Hsub & Hp & Hc & Hnone).
    destruct (pass2_step_cases llmResults st item)
      as (Hn1 & [(Hp1 & Hr1 & Hl1)|(tx & Hp1 & Hc1 & Hnone1)]);
      cbv zeta in *.
    + split; [congruence|]. exists promoted.
      rewrite Hp1 in Hp. rewrite Hr1, Hl1 in Hc.
      split; [apply sublist_cons; exact Hsub|].
      split; [exact Hp|]. split; [exact Hc|].
      intros E. destruct (Hnone E) as [H1 H2]. split; [congruence|exact H2].
    + split; [congruence|]. exists ((item, tx) :: promoted).
      rewrite Hp1, <- app_assoc in Hp.
      split; [cbn; apply sublist_skip; exact Hsub|].
      split; [exact Hp|]. split; [cbn [length]; lia|].
      intros E. destruct (Hnone E) as [H1 H2].
      destruct (Hnone1 E) as [H3 H4].
      split; [congruence|]. constructor; assumption.
Qed.

(** What pass 2 adds to the candidates. *)
Lemma pass2_lists (env : Env) (w : World) (openaiApiKey : option jsstring)
    (st : SyncState) :
  let st' := pass2 env w openaiApiKey st in
  newTransactions st' = newTransactions st /\
  exists promoted,
    promoted.*1 `sublist_of` emailsNeedingLLM st /\
    parsedEmails st'
    = parsedEmails st ++ map (fun p => parsed_email_of p.1 p.2) promoted /\
    (regexParsed st' + llmParsed st'
     = regexParsed st + llmParsed st + length promoted)%nat /\
    (key_present openaiApiKey = false ->
     llmParsed st' = llmParsed st /\
     Forall (fun p => nl_regexResult p.1 = Some p.2) promoted).
Proof.
  unfold pass2. destruct (emailsNeedingLLM st) as [|item items] eqn:E.
  - cbn. split; [reflexivity|]. exists []. cbn. rewrite app_nil_r.
    repeat split; [constructor|lia|constructor].
  - rewrite <- E. destruct (key_present openaiApiKey).
    + match goal with |- context [fold_left (pass2_step ?r) _ _] =>
        destruct (pass2_fold_lists r (emailsNeedingLLM st) st)
          as (Hn & promoted & Hsub & Hp & Hc & _) end.
      split; [exact Hn|]. exists promoted. repeat split; try assumption;
        discriminate.
    + destruct (pass2_fold_lists None (emailsNeedingLLM st) st)
        as (Hn & promoted & Hsub & Hp & Hc & Hnone).
      split; [exact Hn|]. exists promoted. repeat split; try assumption;
        apply Hnone; reflexivity.
Qed.

Lemma persist_step_cases (w : World) (userId : jsstring)
    (cats : gmap jsstring CategorizationResult) (st : SyncState)
    (email : ParsedEmail) :
  let st' := persist_step w userId cats st email in
  regexParsed st' = regexParsed st /\ llmParsed st' = llmParsed st /\
  ((store st' = store st /\ newTransactions st' = newTransactions st) \/
   (store st' = store st ++ [row_of userId email (categorization_of cats email)] /\
    newTransactions st' = S (newTransactions st) /\
    existingByContent (store st) userId (pe_parsed email) = false)).
Proof.
  unfold persist_step. cbv zeta.
  destruct (w_query_throws w email); [repeat split; left; split; reflexivity|].
  destruct (existingByContent (store st) userId (pe_parsed email)) eqn:E;
    [repeat split; left; split; reflexivity|].
  destruct (w_insert_throws w (store st) _);
    [repeat split; left; split; reflexivity|].
  repeat split. right. repeat split.
Qed.

Lemma persist_fold_rows (w : World) (userId : jsstring)
    (cats : gmap jsstring CategorizationResult)
    (candidates : list ParsedEmail) (st : SyncState) :
  let st' := fold_left (persist_step w userId cats) candidates st in
  regexParsed st' = regexParsed st /\ llmParsed st' = llmParsed st /\
  exists kept,
    kept `sublist_of` candidates /\
    store st'
    = store st ++ map (fun e => row_of userId e (categorization_of cats e)) kept /\
    newTransactions st' = (newTransactions st + length kept)%nat /\
    fresh_rows userId (store st)
      (map (fun e => row_of userId e (categorization_of cats e)) kept).
Proof.
  revert st. induction candidates as [|email candidates IH]; intros st.
  - cbn. repeat split. exists []. cbn. rewrite app_nil_r.
    repeat split; [constructor|lia].
  - cbn [fold_left].
    destruct (IH (persist_step w userId cats st email))
      as (Hr & Hl & kept & Hsub & Hstore & Hnew & Hfresh).
    destruct (persist_step_cases w userId cats st email)
      as (Hr1 & Hl1 & [[Hs Hn]|(Hs & Hn & Hcheck)]); cbv zeta in *;
      (split; [congruence|]); (split; [congruence|]).
    + exists kept. rewrite Hs in Hstore, Hfresh. rewrite Hn in Hnew.
      repeat split; try assumption. apply sublist_cons. exact Hsub.
    + exists (email :: kept). rewrite Hs in Hstore, Hfresh. rewrite Hn in Hnew.
      repeat split.
      * apply sublist_skip. exact Hsub.
      * rewrite Hstore, <- app_assoc. reflexivity.
      * rewrite Hnew. cbn [length]. lia.
      * exact Hcheck.
      * exact Hfresh.
Qed.

(** The shape of a whole run: the candidates of the two passes, and the
    rows step 3 keeps of them. *)
Lemma run_sync_shape (env : Env) (w : World) (userId : jsstring)
    (openaiApiKey : option jsstring) (db : list Transaction)
    (emails : list EmailData) :
  let st := parsed_state env w userId openaiApiKey db emails in
  let final := run_sync env w userId openaiApiKey db emails in
  let cats := categorize_all w openaiApiKey st in
  exists added queued promoted kept,
    parsedEmails st = added ++ map (fun p => parsed_email_of p.1 p.2) promoted /\
    promoted.*1 `sublist_of` queued /\
    kept `sublist_of` parsedEmails st /\
    store final
    = db ++ map (fun e => row_of userId e (categorization_of cats e)) kept /\
    newTransactions final = length kept /\
    fresh_rows userId db
      (map (fun e => row_of userId e (categorization_of cats e)) kept) /\
    (regexParsed final + llmParsed final = length (parsedEmails st))%nat /\
    (key_present openaiApiKey = false ->
     llmParsed final = 0%nat /\
     Forall (fun p => nl_regexResult p.1 = Some p.2) promoted) /\
    Forall (fun pe =>
              from_fetched db userId emails
                (pe_emailMessageId pe) (pe_emailSubject pe)) added /\
    Forall (fun item =>
              from_fetched db userId emails
                (em_messageId (nl_email item)) (em_subject (nl_email item)))
      queued /\
    map pe_id added ++ map nl_id queued
    ≡ₚ map (w_uuid w) (List.seq 0 (length added + length queued)).
Proof.
  cbv zeta. unfold run_sync, persist.
  fold (parsed_state env w userId openaiApiKey db emails).
  destruct (parsed_state_spec env w userId openaiApiKey db emails)
    as (Hstore & _).
  destruct (pass1_spec env w userId emails (initial_state db))
    as (_ & Hn1 & _).
  destruct (pass1_lists env w userId emails (initial_state db))
    as (added & queued & Hp1 & Hq1 & Hl1 & Hr1 & Hfa & Hfq & Hperm).
  destruct (pass2_lists env w openaiApiKey
              (pass1 env w userId emails (initial_state db)))
    as (Hn2 & promoted & Hsub2 & Hp2 & Hc2 & Hnone).
  fold (parsed_state env w userId openaiApiKey db emails) in Hn2, Hp2, Hc2, Hnone.
  cbv zeta in *. cbn [initial_state parsedEmails emailsNeedingLLM llmParsed
                      regexParsed store uuids_used newTransactions app] in *.
  set (st := parsed_state env w userId openaiApiKey db emails) in *.
  destruct (persist_fold_rows w userId (categorize_all w openaiApiKey st)
              (parsedEmails st) st)
    as (Hr3 & Hl3 & kept & Hsub3 & Hs3 & Hnew3 & Hfresh).
  cbv zeta in *. rewrite Hstore in Hs3, Hfresh.
  exists added, queued, promoted, kept.
  rewrite Hq1 in Hsub2. rewrite Hp1 in Hp2.
  split; [exact Hp2|]. split; [exact Hsub2|]. split; [exact Hsub3|].
  split; [exact Hs3|]. split; [rewrite Hnew3, Hn2, Hn1; reflexivity|].
  split; [exact Hfresh|].
  split; [rewrite Hr3, Hl3, Hc2, Hr1, Hl1, Hp2, length_app, length_map; lia|].
  split; [|split; [exact Hfa|split; [exact Hfq|exact Hperm]]].
  intros E. destruct (Hnone E) as [H1 H2].
  split; [rewrite Hl3, H1, Hl1; reflexivity|exact H2].
Qed.

(** X8: a run only appends to the store, as many rows as it reports new
    transactions, and no appended row was a content duplicate (same user,
    amount, raw merchant and transaction date) of any row stored before
    it, rows appended earlier in the same run included. *)
Theorem sync_inserts_fresh_rows (env : Env) (w : World) (userId : jsstring)
    (openaiApiKey : option jsstring) (db : list Transaction)
    (emails : list EmailData) :
  exists inserted,
    store (run_sync env w userId openaiApiKey db emails) = db ++ inserted /\
    length inserted
    = r_newTransactions (POST env w userId openaiApiKey db emails) /\
    fresh_rows userId db inserted.
Proof.
  destruct (run_sync_shape env w userId openaiApiKey db emails)
    as (added & queued & promoted & kept & _ & _ & _ & Hs & Hn & Hfresh & _).
  cbv zeta in *. eexists. split; [exact Hs|]. split; [|exact Hfresh].
  unfold POST. cbn [r_newTransactions]. rewrite Hn, length_map. reflexivity.
Qed.

Lemma candidates_from_fetched (db : list Transaction) (userId : jsstring)
    (emails : list EmailData) (added : list ParsedEmail)
    (queued : list NeedingLLM)
    (promoted : list (NeedingLLM * ParsedTransaction)) :
  Forall (fun pe =>
            from_fetched db userId emails
              (pe_emailMessageId pe) (pe_emailSubject pe)) added ->
  Forall (fun item =>
            from_fetched db userId emails
              (em_messageId (nl_email item)) (em_subject (nl_email item)))
    queued ->
  promoted.*1 `sublist_of` queued ->
  Forall (fun pe =>
            from_fetched db userId emails
              (pe_emailMessageId pe) (pe_emailSubject pe))
    (added ++ map (fun p => parsed_email_of p.1 p.2) promoted).
Proof.
  intros Hfa Hfq Hsub. apply Forall_app. split; [exact Hfa|].
  apply Forall_forall. intros pe Hpe.
  apply list_elem_of_In, in_map_iff in Hpe. destruct Hpe as ([item tx] & <- & Hin).
  cbn. rewrite Forall_forall in Hfq. apply Hfq.
  eapply elem_of_sublist; [|exact Hsub].
  apply list_elem_of_fmap. exists (item, tx). split; [reflexivity|].
  apply list_elem_of_In. exact Hin.
Qed.

(** X9: every row a run appends belongs to the user of the run, is
    marked unverified, and carries the message id and the subject of one
    of the fetched emails, whose message id was not persisted for that
    user when the run started. *)
Theorem sync_rows_provenance (env : Env) (w : World) (userId : jsstring)
    (openaiApiKey : option jsstring) (db : list Transaction)
    (emails : list EmailData) :
  exists inserted,
    store (run_sync env w userId openaiApiKey db emails) = db ++ inserted /\
    Forall (row_from_run db userId emails) inserted.
Proof.
  destruct (run_sync_shape env w userId openaiApiKey db emails)
    as (added & queued & promoted & kept & Hp & Hsub2 & Hsub3 & Hs & _ & _ & _
        & _ & Hfa & Hfq & _).
  cbv zeta in *. eexists. split; [exact Hs|].
  pose proof (candidates_from_fetched db userId emails added queued promoted
                Hfa Hfq Hsub2) as Hall.
  rewrite <- Hp in Hall. rewrite Forall_forall in Hall.
  apply Forall_forall. intros t Ht.
  apply list_elem_of_In, in_map_iff in Ht. destruct Ht as (e & <- & Hin).
  unfold row_from_run, row_of. cbn.
  split; [reflexivity|]. split; [reflexivity|].
  exists (pe_emailMessageId e), (pe_emailSubject e).
  split; [reflexivity|]. split; [reflexivity|].
  apply Hall. eapply elem_of_sublist; [|exact Hsub3].
  apply list_elem_of_In. exact Hin.
Qed.

(** X10: the two parser counts of the response add up to the number of
    candidates the two passes produce; the new transactions are at most
    that many, which is at most the number of fetched emails; and
    without a credential no email is counted as parsed by the oracle. *)
Theorem sync_parser_counts (env : Env) (w : World) (userId : jsstring)
    (openaiApiKey : option jsstring) (db : list Transaction)
    (emails : list EmailData) :
  let response := POST env w userId openaiApiKey db emails in
  (r_regex response + r_llm response
   = length (parsedEmails (parsed_state env w userId openaiApiKey db emails)))%nat /\
  (r_newTransactions response <= r_regex response + r_llm response)%nat /\
  (r_regex response + r_llm response <= r_totalProcessed response)%nat /\
  (key_present openaiApiKey = false -> r_llm response = 0%nat).
Proof.
  destruct (run_sync_shape env w userId openaiApiKey db emails)
    as (added & queued & promoted & kept & _ & _ & Hsub3 & _ & Hn & _ & Hc
        & Hnone & _).
  destruct (parsed_state_spec env w userId openaiApiKey db emails)
    as (_ & Htally & _).
  cbv zeta in *. unfold POST. cbn [r_regex r_llm r_newTransactions r_totalProcessed].
  apply sublist_length in Hsub3.
  split; [exact Hc|]. split; [lia|]. split; [lia|].
  intros E. apply Hnone. exact E.
Qed.

Lemma candidate_ids_distinct (w : World) (added : list ParsedEmail)
    (queued : list NeedingLLM)
    (promoted : list (NeedingLLM * ParsedTransaction))
    (kept : list ParsedEmail) :
  Inj (=) (=) (w_uuid w) ->
  map pe_id added ++ map nl_id queued
  ≡ₚ map (w_uuid w) (List.seq 0 (length added + length queued)) ->
  promoted.*1 `sublist_of` queued ->
  kept `sublist_of` added ++ map (fun p => parsed_email_of p.1 p.2) promoted ->
  NoDup (map pe_id kept).
Proof.
  intros Hinj Hperm Hsub2 Hsub3.
  assert (Hall : NoDup (map pe_id added ++ map nl_id queued)).
  { rewrite Hperm. apply (NoDup_fmap_2 (w_uuid w)). apply NoDup_seq. }
  eapply sublist_NoDup; [exact Hall|].
  apply (fmap_sublist pe_id) in Hsub3.
  etransitivity; [exact Hsub3|].
  change (pe_id <$> added ++ map (fun p => parsed_email_of p.1 p.2) promoted)
    with (map pe_id (added ++ map (fun p => parsed_email_of p.1 p.2) promoted)).
  rewrite map_app, map_map. cbn [parsed_email_of pe_id].
  apply sublist_app; [reflexivity|].
  apply (fmap_sublist nl_id) in Hsub2.
  unfold fmap in Hsub2. rewrite <- (map_map fst nl_id). exact Hsub2.
Qed.

(** X11: when the id source never returns the same id twice, the rows a
    run appends have pairwise distinct ids: an id handed out in pass 1
    reaches at most one row, whichever parser produced the candidate. *)
Theorem sync_row_ids_distinct (env : Env) (w : World) (userId : jsstring)
    (openaiApiKey : option jsstring) (db : list Transaction)
    (emails : list EmailData) :
  Inj (=) (=) (w_uuid w) ->
  exists inserted,
    store (run_sync env w userId openaiApiKey db emails) = db ++ inserted /\
    NoDup (map t_id inserted).
Proof.
  intros Hinj.
  destruct (run_sync_shape env w userId openaiApiKey db emails)
    as (added & queued & promoted & kept & Hp & Hsub2 & Hsub3 & Hs & _ & _ & _
        & _ & _ & _ & Hperm).
  cbv zeta in *. eexists. split; [exact Hs|].
  rewrite map_map. cbn [row_of t_id]. rewrite Hp in Hsub3.
  eapply candidate_ids_distinct; eassumption.
Qed.

Lemma counter_uuid_inj : Inj (=) (=) counter_uuid.
Proof.
  intros i j H. unfold counter_uuid in H. injection H as H. lia.
Qed.

Lemma sync_row_ids_distinct_witness :
  map t_id
    (store (run_sync example_env counting_world (lit "user-1") None []
              distinct_emails))
  = [counter_uuid 0; counter_uuid 1] /\
  NoDup
    (map t_id
       (store (run_sync example_env counting_world (lit "user-1") None []
                 distinct_emails))).
Proof.
  split; [vm_compute; reflexivity|].
  destruct (sync_row_ids_distinct example_env counting_world (lit "user-1") None
              [] distinct_emails counter_uuid_inj) as (inserted & Hstore & Hids).
  rewrite Hstore. exact Hids.
Defined.

(** ** Running the sync again *)

Lemma isEmailProcessed_app (db more : list Transaction) (userId m : jsstring) :
  isEmailProcessed (db ++ more) userId m
  = isEmailProcessed db userId m || isEmailProcessed more userId m.
Proof. unfold isEmailProcessed. apply existsb_app. Qed.

Lemma existingByContent_app (db more : list Transaction) (userId : jsstring)
    (tx : ParsedTransaction) :
  existingByContent (db ++ more) userId tx
  = existingByContent db userId tx || existingByContent more userId tx.
Proof. unfold existingByContent. apply existsb_app. Qed.

Lemma str_eqb_refl (s : jsstring) : str_eqb s s = true.
Proof. unfold str_eqb. apply bool_decide_eq_true. reflexivity. Qed.

Lemma row_is_processed (userId : jsstring) (c : ParsedEmail)
    (cat : CategorizationResult) :
  isEmailProcessed [row_of userId c cat] userId (pe_emailMessageId c) = true.
Proof.
  unfold isEmailProcessed, row_of. cbn. rewrite str_eqb_refl.
  rewrite bool_decide_eq_true_2 by reflexivity. reflexivity.
Qed.

Lemma candidate_of_cons (env : Env) (db : list Transaction) (userId : jsstring)
    (email : EmailData) (emails : list EmailData) (pe : ParsedEmail) :
  candidate_of env db userId emails pe ->
  candidate_of env db userId (email :: emails) pe.
Proof.
  intros (e & He & H). exists e. split; [apply list_elem_of_further; exact He|exact H].
Qed.

Lemma queued_of_cons (env : Env) (db : list Transaction) (userId : jsstring)
    (email : EmailData) (emails : list EmailData) (item : NeedingLLM) :
  queued_of env db userId emails item ->
  queued_of env db userId (email :: emails) item.
Proof.
  intros (He & H). split; [apply list_elem_of_further; exact He|exact H].
Qed.

(** Pass 1 and the deterministic parser: what the two lists hold, and
    that no email with a transaction is lost. *)
Lemma pass1_regex (env : Env) (w : World) (userId : jsstring)
    (emails : list EmailData) (st : SyncState) :
  let st' := pass1 env w userId emails st in
  exists added queued,
    parsedEmails st' = parsedEmails st ++ added /\
    emailsNeedingLLM st' = emailsNeedingLLM st ++ queued /\
    Forall (candidate_of env (store st) userId emails) added /\
    Forall (queued_of env (store st) userId emails) queued /\
    forall e tx,
      e ∈ emails -> w_lookup_throws w e = false ->
      isEmailProcessed (store st) userId (em_messageId e) = false ->
      pr_transaction (parseEmailWithRegex env (options_of e)) = Some tx ->
      (exists pe, pe ∈ added /\ pe_emailMessageId pe = em_messageId e /\
                  pe_parsed pe = tx) \/
      (exists item, item ∈ queued /\ nl_email item = e).
Proof.
  revert st. induction emails as [|email emails IH]; intros st.
  - exists [], []. cbn. rewrite !app_nil_r.
    split; [reflexivity|]. split; [reflexivity|].
    split; [constructor|]. split; [constructor|].
    intros e tx He. apply elem_of_nil in He. contradiction.
  - unfold pass1 in *. cbn [fold_left].
    destruct (pass1_spec env w userId [email] st) as (Hstore & _).
    unfold pass1 in Hstore. cbn [fold_left] in Hstore. cbv zeta in Hstore.
    destruct (IH (pass1_step env w userId st email))
      as (added & queued & Hp & Hq & Hfa & Hfq & Hall).
    cbv zeta in *. rewrite Hstore in Hfa, Hfq, Hall.
    assert (Hfa' : Forall (candidate_of env (store st) userId (email :: emails))
                     added).
    { eapply Forall_impl; [exact Hfa|]. intros pe. apply candidate_of_cons. }
    assert (Hfq' : Forall (queued_of env (store st) userId (email :: emails))
                     queued).
    { eapply Forall_impl; [exact Hfq|]. intros pe. apply queued_of_cons. }
    destruct (pass1_step_cases env w userId st email)
      as (_ & [(Hskip & Hp1 & Hq1 & _)
              |(Hnew & _ & [(tx1 & Htx1 & Hp1 & Hq1 & _)|(Hp1 & Hq1 & _)])]);
      cbv zeta in *; rewrite Hp1 in Hp; rewrite Hq1 in Hq.
    + exists added, queued. repeat split; try assumption.
      intros e tx He Hthrow Hproc Htx.
      apply elem_of_cons in He. destruct He as [->|He].
      { rewrite Hthrow, Hproc in Hskip. discriminate. }
      destruct (Hall e tx He Hthrow Hproc Htx) as [H|H]; [left|right]; exact H.
    + eexists (_ :: added), queued. rewrite <- app_assoc in Hp.
      split; [exact Hp|]. split; [exact Hq|].
      split; [constructor; [|exact Hfa']|].
      { exists email. repeat split; [apply list_elem_of_here|exact Hnew|exact Htx1]. }
      split; [exact Hfq'|].
      intros e tx He Hthrow Hproc Htx.
      apply elem_of_cons in He. destruct He as [->|He].
      { left. eexists. split; [apply list_elem_of_here|]. cbn.
        split; [reflexivity|congruence]. }
      destruct (Hall e tx He Hthrow Hproc Htx) as [(pe & H1 & H2)|H];
        [left; exists pe; split; [apply list_elem_of_further; exact H1|exact H2]
        |right; exact H].
    + eexists added, (_ :: queued). rewrite <- app_assoc in Hq.
      split; [exact Hp|]. split; [exact Hq|]. split; [exact Hfa'|].
      split; [constructor; [|exact Hfq']|].
      { repeat split; [apply list_elem_of_here|exact Hnew]. }
      intros e tx He Hthrow Hproc Htx.
      apply elem_of_cons in He. destruct He as [->|He].
      { right. eexists. split; [apply list_elem_of_here|reflexivity]. }
      destruct (Hall e tx He Hthrow Hproc Htx) as [H|(item & H1 & H2)];
        [left; exact H
        |right; exists item; split; [apply list_elem_of_further; exact H1|exact H2]].
Qed.

(** Without oracle results, pass 2 promotes every queued email for which
    the deterministic parser kept a transaction. *)
Lemma pass2_fold_promotes (items : list NeedingLLM) (st : SyncState) :
  let st' := fold_left (pass2_step None) items st in
  forall item tx,
    item ∈ items -> nl_regexResult item = Some tx ->
    parsed_email_of item tx ∈ parsedEmails st'.
Proof.
  cbv zeta. revert st. induction items as [|first items IH]; intros st item tx Hin Htx.
  - apply elem_of_nil in Hin. contradiction.
  - cbn [fold_left]. apply elem_of_cons in Hin. destruct Hin as [->|Hin].
    + destruct (pass2_fold_lists None items (pass2_step None st first))
        as (_ & promoted & _ & Hp & _).
      cbv zeta in Hp. rewrite Hp. apply elem_of_app. left.
      unfold pass2_step. rewrite Htx. cbn. apply elem_of_app. right.
      apply list_elem_of_here.
    + apply IH; assumption.
Qed.

(** The candidates of a run without a credential. *)
Lemma parsed_state_regex (env : Env) (w : World) (userId : jsstring)
    (openaiApiKey : option jsstring) (db : list Transaction)
    (emails : list EmailData) :
  key_present openaiApiKey = false ->
  let st := parsed_state env w userId openaiApiKey db emails in
  Forall (candidate_of env db userId emails) (parsedEmails st) /\
  forall e tx,
    e ∈ emails -> w_lookup_throws w e = false ->
    isEmailProcessed db userId (em_messageId e) = false ->
    pr_transaction (parseEmailWithRegex env (options_of e)) = Some tx ->
    exists pe, pe ∈ parsedEmails st /\ pe_emailMessageId pe = em_messageId e /\
               pe_parsed pe = tx.
Proof.
  intros Hkey. cbv zeta. unfold parsed_state.
  destruct (pass1_regex env w userId emails (initial_state db))
    as (added & queued & Hp1 & Hq1 & Hfa & Hfq & Hall).
  cbv zeta in *. cbn [initial_state parsedEmails emailsNeedingLLM store app] in *.
  set (st1 := pass1 env w userId emails (initial_state db)) in *.
  destruct (pass2_lists env w openaiApiKey st1)
    as (_ & promoted & Hsub & Hp2 & _ & Hnone).
  cbv zeta in *. destruct (Hnone Hkey) as [_ Hreg].
  rewrite Hp1 in Hp2. rewrite Hq1 in Hsub.
  split.
  - rewrite Hp2. apply Forall_app. split; [exact Hfa|].
    apply Forall_forall. intros pe Hpe.
    apply list_elem_of_In, in_map_iff in Hpe.
    destruct Hpe as ([item tx] & <- & Hin).
    rewrite Forall_forall in Hreg. rewrite Forall_forall in Hfq.
    apply list_elem_of_In in Hin. pose proof (Hreg _ Hin) as Hitem. cbn in Hitem.
    assert (Hq : item ∈ queued).
    { eapply elem_of_sublist; [|exact Hsub].
      apply list_elem_of_fmap. exists (item, tx). split; [reflexivity|exact Hin]. }
    destruct (Hfq _ Hq) as (He & Hproc & Hres).
    exists (nl_email item).
    cbn [parsed_email_of pe_emailMessageId pe_parsed fst snd].
    repeat split; [exact He|exact Hproc|congruence].
  - intros e tx He Hthrow Hproc Htx.
    destruct (Hall e tx He Hthrow Hproc Htx) as [(pe & Hpe & H)|(item & Hitem & <-)].
    + exists pe. split; [|exact H]. rewrite Hp2. apply elem_of_app. left. exact Hpe.
    + exists (parsed_email_of item tx). split; [|split; reflexivity].
      rewrite Forall_forall in Hfq. destruct (Hfq _ Hitem) as (_ & _ & Hres).
      unfold pass2. rewrite Hq1.
      destruct queued as [|q0 queued']; [apply elem_of_nil in Hitem; contradiction|].
      rewrite Hkey. rewrite <- Hq1. apply pass2_fold_promotes.
      * rewrite Hq1. exact Hitem.
      * congruence.
Qed.

(** When the store never throws, step 3 leaves every candidate either
    stored under its message id or a content duplicate of a stored row. *)
Lemma persist_fold_settles (w : World) (userId : jsstring)
    (cats : gmap jsstring CategorizationResult)
    (candidates : list ParsedEmail) (st : SyncState) :
  store_never_throws w ->
  let st' := fold_left (persist_step w userId cats) candidates st in
  forall c, c ∈ candidates ->
    isEmailProcessed (store st') userId (pe_emailMessageId c) = true \/
    existingByContent (store st') userId (pe_parsed c) = true.
Proof.
  intros (_ & Hquery & Hinsert). cbv zeta.
  revert st. induction candidates as [|first candidates IH]; intros st c Hc.
  - apply elem_of_nil in Hc. contradiction.
  - cbn [fold_left]. apply elem_of_cons in Hc. destruct Hc as [->|Hc].
    + destruct (persist_fold_rows w userId cats candidates
                  (persist_step w userId cats st first))
        as (_ & _ & kept & _ & Hs & _).
      cbv zeta in Hs. rewrite Hs.
      rewrite isEmailProcessed_app, existingByContent_app.
      unfold persist_step. rewrite Hquery.
      destruct (existingByContent (store st) userId (pe_parsed first)) eqn:E.
      * right. cbn [count_duplicate store]. rewrite E. reflexivity.
      * rewrite Hinsert. cbn [store]. left.
        rewrite isEmailProcessed_app, row_is_processed.
        rewrite orb_true_r. reflexivity.
    + apply IH. exact Hc.
Qed.

(** Candidates that are all content duplicates of stored rows leave the
    store as it is. *)
Lemma persist_fold_known (w : World) (userId : jsstring)
    (cats : gmap jsstring CategorizationResult)
    (candidates : list ParsedEmail) (st : SyncState) :
  Forall (fun c => existingByContent (store st) userId (pe_parsed c) = true)
    candidates ->
  let st' := fold_left (persist_step w userId cats) candidates st in
  store st' = store st /\ newTransactions st' = newTransactions st.
Proof.
  cbv zeta. revert st. induction candidates as [|c candidates IH]; intros st Hall.
  - split; reflexivity.
  - cbn [fold_left]. inversion Hall as [|? ? Hc Hrest]; subst.
    assert (Hstep : store (persist_step w userId cats st c) = store st /\
                    newTransactions (persist_step w userId cats st c)
                    = newTransactions st).
    { unfold persist_step. destruct (w_query_throws w c); [split; reflexivity|].
      rewrite Hc. split; reflexivity. }
    destruct Hstep as [Hs Hn].
    destruct (IH (persist_step w userId cats st c)) as [Hs' Hn'].
    { rewrite Hs. exact Hrest. }
    split; congruence.
Qed.

(** X12: a run without a credential whose store accesses all answer
    settles every email it fetched: a second run over the same emails,
    with the same clock and text collaborators and whatever the store and
    the id source then do, appends no row and reports no new
    transaction. *)
Theorem resync_appends_nothing (env : Env) (w1 w2 : World) (userId : jsstring)
    (openaiApiKey : option jsstring) (db : list Transaction)
    (emails : list EmailData) :
  key_present openaiApiKey = false ->
  store_never_throws w1 ->
  let db' := store (run_sync env w1 userId openaiApiKey db emails) in
  store (run_sync env w2 userId openaiApiKey db' emails) = db' /\
  r_newTransactions (POST env w2 userId openaiApiKey db' emails) = 0%nat.
Proof.
  intros Hkey Hquiet. cbv zeta.
  set (db' := store (run_sync env w1 userId openaiApiKey db emails)).
  assert (Hsettled : forall e tx,
            e ∈ emails ->
            isEmailProcessed db' userId (em_messageId e) = false ->
            pr_transaction (parseEmailWithRegex env (options_of e)) = Some tx ->
            existingByContent db' userId tx = true).
  { intros e tx He Hproc Htx.
    destruct (run_sync_shape env w1 userId openaiApiKey db emails)
      as (_ & _ & _ & kept & _ & _ & _ & Hs & _).
    cbv zeta in Hs. fold db' in Hs.
    assert (Hold : isEmailProcessed db userId (em_messageId e) = false).
    { rewrite Hs, isEmailProcessed_app in Hproc.
      apply orb_false_iff in Hproc. apply Hproc. }
    destruct (parsed_state_regex env w1 userId openaiApiKey db emails Hkey)
      as [_ Hcomplete].
    destruct Hquiet as (Hlookup & Hrest).
    destruct (Hcomplete e tx He (Hlookup e) Hold Htx) as (pe & Hpe & Hm & Hp).
    pose proof (persist_fold_settles w1 userId
                  (categorize_all w1 openaiApiKey
                     (parsed_state env w1 userId openaiApiKey db emails))
                  (parsedEmails (parsed_state env w1 userId openaiApiKey db emails))
                  (parsed_state env w1 userId openaiApiKey db emails)
                  (conj Hlookup Hrest) pe Hpe) as Hpersist.
    cbv zeta in Hpersist.
    change (fold_left _ _ _) with (run_sync env w1 userId openaiApiKey db emails)
      in Hpersist.
    fold db' in Hpersist. rewrite Hm, Hp in Hpersist.
    destruct Hpersist as [H|H]; [congruence|exact H]. }
  destruct (parsed_state_regex env w2 userId openaiApiKey db' emails Hkey)
    as [Hsound _].
  destruct (parsed_state_spec env w2 userId openaiApiKey db' emails)
    as (Hstore & _).
  destruct (pass1_spec env w2 userId emails (initial_state db'))
    as (_ & Hn1 & _).
  destruct (pass2_lists env w2 openaiApiKey
              (pass1 env w2 userId emails (initial_state db')))
    as (Hn2 & _).
  cbv zeta in *.
  fold (parsed_state env w2 userId openaiApiKey db' emails) in Hn2.
  set (st := parsed_state env w2 userId openaiApiKey db' emails) in *.
  destruct (persist_fold_known w2 userId (categorize_all w2 openaiApiKey st)
              (parsedEmails st) st) as [Hs Hn].
  { rewrite Hstore. eapply Forall_impl; [exact Hsound|].
    intros pe (e & He & Hproc & _ & Htx). eapply Hsettled; eassumption. }
  unfold POST. cbn [r_newTransactions].
  change (run_sync env w2 userId openaiApiKey db' emails)
    with (fold_left (persist_step w2 userId (categorize_all w2 openaiApiKey st))
            (parsedEmails st) st).
  rewrite Hs, Hn, Hstore, Hn2, Hn1. split; reflexivity.
Qed.

Lemma resync_appends_nothing_witness :
  store (run_sync example_env quiet_world (lit "user-1") None
           (store (run_sync example_env counting_world (lit "user-1") None []
                     twin_emails))
           twin_emails)
  = store (run_sync example_env counting_world (lit "user-1") None []
             twin_emails) /\
  r_newTransactions
    (POST example_env quiet_world (lit "user-1") None
       (store (run_sync example_env counting_world (lit "user-1") None []
                 twin_emails))
       twin_emails) = 0%nat.
Proof.
  apply (resync_appends_nothing example_env counting_world quiet_world
           (lit "user-1") None [] twin_emails).
  - reflexivity.
  - repeat split.
Defined.

(** X13: without a credential every row a run appends holds what the
    deterministic parser read in one of the fetched emails: a strictly
    positive amount, a raw merchant of at most 100 code units, the
    message id of that email and the bank it was attributed to. *)
Theorem sync_rows_without_credential (env : Env) (w : World) (userId : jsstring)
    (openaiApiKey : option jsstring) (db : list Transaction)
    (emails : list EmailData) :
  key_present openaiApiKey = false ->
  exists inserted,
    store (run_sync env w userId openaiApiKey db emails) = db ++ inserted /\
    Forall (fun t =>
              num_gt (t_amount t) num_zero = true /\
              (length (t_rawMerchant t) <= 100)%nat /\
              exists e, e ∈ emails /\
                        t_emailMessageId t = Some (em_messageId e) /\
                        t_sourceBank t = em_bank e) inserted.
Proof.
  intros Hkey.
  destruct (run_sync_shape env w userId openaiApiKey db emails)
    as (added & queued & promoted & kept & _ & _ & Hsub3 & Hs & _).
  destruct (parsed_state_regex env w userId openaiApiKey db emails Hkey)
    as [Hsound _].
  cbv zeta in *. eexists. split; [exact Hs|].
  rewrite Forall_forall in Hsound.
  apply Forall_forall. intros t Ht.
  apply list_elem_of_In, in_map_iff in Ht. destruct Ht as (pe & <- & Hin).
  destruct (Hsound pe) as (e & He & _ & Hm & Htx).
  { eapply elem_of_sublist; [|exact Hsub3]. apply list_elem_of_In. exact Hin. }
  unfold parseEmailWithRegex in Htx. cbv zeta in Htx. cbn [pr_transaction] in Htx.
  destruct (run_bank_parser_shape env (options_of e) _ Htx) as [Hlen Hbank].
  cbn [row_of t_amount t_rawMerchant t_emailMessageId t_sourceBank].
  split; [exact (bank_parser_amount_positive env (options_of e) _ Htx)|].
  split; [exact Hlen|].
  exists e. split; [exact He|]. split; [rewrite Hm; reflexivity|exact Hbank].
Qed.

Lemma sync_rows_without_credential_witness :
  exists inserted,
    store (run_sync example_env counting_world (lit "user-1") None [] twin_emails)
    = [] ++ inserted /\
    Forall (fun t =>
              num_gt (t_amount t) num_zero = true /\
              (length (t_rawMerchant t) <= 100)%nat /\
              exists e, e ∈ twin_emails /\
                        t_emailMessageId t = Some (em_messageId e) /\
                        t_sourceBank t = em_bank e) inserted.
Proof.
  apply (sync_rows_without_credential example_env counting_world (lit "user-1")
           None [] twin_emails).
  reflexivity.
Defined.

(** ** Dates *)

Lemma isValid_setFullYear (dt : Date) (y : Z) :
  isValid (setFullYear dt y) = isValid dt.
Proof.
  destruct dt as [|y0 mo d ms]; [reflexivity|]. unfold setFullYear.
  destruct ((mo =? 2) && (d =? 29) && negb (is_leap y)); reflexivity.
Qed.

Lemma isValid_fix_year (parsed : Date) : isValid (fix_year parsed) = isValid parsed.
Proof.
  unfold fix_year. cbv zeta.
  repeat (match goal with |- context [if ?b then _ else _] => destruct b end);
    try apply isValid_setFullYear; reflexivity.
Qed.

Lemma fix_year_from_2000 (parsed : Date) :
  isValid parsed = true -> 0 <= getFullYear parsed ->
  2000 <= getFullYear (fix_year parsed).
Proof.
  intros Hv Hy. unfold fix_year. cbv zeta.
  destruct (Z.ltb_spec (getFullYear parsed) 100).
  { rewrite getFullYear_setFullYear by exact Hv. lia. }
  destruct (Z.leb_spec 1900 (getFullYear parsed));
    destruct (Z.ltb_spec (getFullYear parsed) 2000); cbn [andb].
  - rewrite getFullYear_setFullYear by exact Hv. lia.
  - destruct (Z.ltb_spec (getFullYear parsed) 1900); lia.
  - destruct (Z.ltb_spec (getFullYear parsed) 1900); [|lia].
    rewrite getFullYear_setFullYear by exact Hv. lia.
  - lia.
Qed.

Lemma parse_formats_Some (env : Env) (cleaned : jsstring)
    (fmts : list jsstring) (d : Date) :
  parse_formats env cleaned fmts = Some d ->
  exists fmt,
    fmt ∈ fmts /\ isValid (env_parse env cleaned fmt) = true /\
    d = fix_year (env_parse env cleaned fmt).
Proof.
  induction fmts as [|fmt fmts IH]; cbn [parse_formats]; [discriminate|].
  destruct (isValid (env_parse env cleaned fmt)) eqn:E.
  - intros [= <-]. exists fmt. split; [apply list_elem_of_here|]. split; [exact E|reflexivity].
  - intros H. destruct (IH H) as (f & Hf & Hrest). exists f.
    split; [apply list_elem_of_further; exact Hf|exact Hrest].
Qed.

Lemma parseDate_Some (env : Env) (dateStr : jsstring) (d : Date) :
  parseDate env dateStr = Some d ->
  isValid d = true /\
  (years_nonneg env -> 2000 <= getFullYear d \/ from_native env d).
Proof.
  unfold parseDate.
  destruct (negb (str_truthy dateStr)); [discriminate|]. cbv zeta.
  destruct (parse_formats env (trim dateStr) DATE_FORMATS) as [d'|] eqn:E.
  - intros [= <-]. apply parse_formats_Some in E.
    destruct E as (fmt & Hfmt & Hv & ->). split.
    + rewrite isValid_fix_year. exact Hv.
    + intros Hy. left. apply fix_year_from_2000; [exact Hv|].
      specialize (Hy (trim dateStr)). rewrite Forall_forall in Hy.
      apply Hy. exact Hfmt.
  - destruct (isValid (env_native env (trim dateStr))) eqn:Hv; [|discriminate].
    intros [= <-]. split; [exact Hv|]. intros _. right.
    exists (trim dateStr). reflexivity.
Qed.

Lemma extractDate_loop_Some (env : Env) (text : jsstring) (ps : list regex)
    (d : Date) :
  extractDate_loop env text ps = Some d ->
  exists pattern m,
    pattern ∈ ps /\ exec pattern text = Some m /\
    parseDate env (grp m 1) = Some d.
Proof.
  induction ps as [|pattern ps IH]; cbn [extractDate_loop]; [discriminate|].
  destruct (exec pattern text) as [m|] eqn:E.
  - destruct (parseDate env (grp m 1)) as [parsed|] eqn:Hp.
    + intros [= <-]. exists pattern, m.
      split; [apply list_elem_of_here|]. split; assumption.
    + intros H. destruct (IH H) as (p & m' & Hin & Hrest).
      exists p, m'. split; [apply list_elem_of_further; exact Hin|exact Hrest].
  - intros H. destruct (IH H) as (p & m' & Hin & Hrest).
    exists p, m'. split; [apply list_elem_of_further; exact Hin|exact Hrest].
Qed.

(** X14: [parseDate] and [extractDate] never return an invalid date;
    and when, with the formats of [DATE_FORMATS], the format parser
    yields no negative year, a date they return lies in the year 2000 or
    later unless it comes from the built-in constructor: the year fix
    moves every earlier year up. *)
Theorem dates_valid_and_recent (env : Env) (text : jsstring) (d : Date) :
  parseDate env text = Some d \/ extractDate env text = Some d ->
  isValid d = true /\
  (years_nonneg env -> 2000 <= getFullYear d \/ from_native env d).
Proof.
  intros [H|H].
  - eapply parseDate_Some; eassumption.
  - unfold extractDate in H. apply extractDate_loop_Some in H.
    destruct H as (_ & m & _ & _ & H). eapply parseDate_Some; eassumption.
Qed.

Lemma take_upto_digits_digits (n : nat) (s : jsstring) :
  Forall (fun c => is_digit c = true) (fst (take_upto_digits n s)).
Proof.
  revert s. induction n as [|n IH]; intros [|c s]; cbn [take_upto_digits fst];
    try constructor.
  destruct (is_digit c) eqn:E; [|constructor].
  specialize (IH s). destruct (take_upto_digits n s) as [ds r].
  cbn [fst] in *. constructor; assumption.
Qed.

Lemma parse_tokens_year (fuel : nat) :
  forall fmt input acc fields remaining,
    (forall yv two, f_year acc = Some (yv, two) -> 0 <= yv) ->
    parse_tokens fuel fmt input acc = Some (fields, remaining) ->
    forall yv two, f_year fields = Some (yv, two) -> 0 <= yv.
Proof.
  induction fuel as [|fuel IH]; intros fmt input acc fields remaining Hacc H;
    [discriminate|].
  cbn [parse_tokens] in H. destruct fmt as [|c fmt'].
  { injection H as <- <-. exact Hacc. }
  destruct (take_run c fmt') as [n fmt''].
  repeat match type of H with
  | (if ?b then _ else _) = _ => destruct b
  | match take_upto_digits ?a ?b with _ => _ end = _ =>
      pose proof (take_upto_digits_digits a b);
      destruct (take_upto_digits a b) as [[|dg ds] r]; [discriminate|]
  | match ?o with Some _ => _ | None => _ end = _ =>
      destruct o as [[mo r]|]; [|discriminate]
  | match ?l with [] => _ | _ :: _ => _ end = _ =>
      destruct l as [|x r]; [discriminate|]
  end; try discriminate;
  (eapply IH; [|exact H]); cbn [f_year]; try exact Hacc.
  intros yv two Heq. inversion Heq; subst. apply digits_val_nonneg. assumption.
Qed.

Lemma normalizeTwoDigitYear_nonneg (yv refYear : Z) :
  0 <= yv -> 50 < refYear -> 0 <= normalizeTwoDigitYear yv refYear.
Proof.
  intros Hy Hr. unfold normalizeTwoDigitYear. cbv zeta.
  destruct (Z.ltb_spec 0 refYear); [|lia].
  destruct (Z.leb_spec refYear 50); [lia|].
  assert (100 <= (refYear + 50) / 100 * 100).
  { assert (1 <= (refYear + 50) / 100) by (apply Z.div_le_lower_bound; lia). lia. }
  destruct (_ <=? yv); lia.
Qed.

Lemma datefns_years_nonneg (now refYear : Z) (html : jsstring -> jsstring)
    (native : jsstring -> Date) :
  50 < refYear ->
  years_nonneg (mkEnv now html (datefns_parse refYear) native).
Proof.
  intros Hr s. apply Forall_forall. intros fmt _.
  cbn [env_parse]. unfold datefns_parse.
  destruct (parse_tokens _ fmt s _) as [[fields remaining]|] eqn:E;
    [|cbn; lia].
  assert (Hyear : forall yv two, f_year fields = Some (yv, two) -> 0 <= yv).
  { eapply parse_tokens_year; [|exact E]. cbn [f_year]. intros; discriminate. }
  destruct fields as [[[yv two]|] [mo|] [d|]]; try (cbn; lia).
  specialize (Hyear yv two eq_refl).
  destruct (forallb is_space remaining); [|cbn; lia].
  destruct two; cbn [orb].
  - destruct (_ && _); cbn [getFullYear]; [|lia].
    apply normalizeTwoDigitYear_nonneg; assumption.
  - destruct (_ && _); cbn [getFullYear]; lia.
Qed.

Lemma dates_valid_and_recent_witness :
  isValid (ValidDate 2026 1 4 0) = true /\
  (2000 <= getFullYear (ValidDate 2026 1 4 0) \/
   from_native example_env (ValidDate 2026 1 4 0)).
Proof.
  destruct (dates_valid_and_recent example_env zepto_body (ValidDate 2026 1 4 0))
    as [Hvalid Hyear].
  - right. vm_compute. reflexivity.
  - split; [exact Hvalid|]. apply Hyear. apply datefns_years_nonneg. lia.
Defined.

(** ** Text normalization *)

Lemma rmatch_plus_class (p : N -> bool) (st : pos) (c : caps) (k : cont)
    (res : pos * caps) :
  rmatch (plus (Chr p)) st c k = Some res ->
  exists x pre st' c',
    rest st = x :: pre ++ rest st' /\ p x = true /\
    Forall (fun u => p u = true) pre /\ k st' c' = Some res.
Proof.
  unfold plus. cbn [rmatch groups_of]. intros H.
  replace (1 + length (rest st) + 1)%nat with (S (length (rest st) + 1)) in H
    by lia.
  cbn [rep_loop Nat.ltb Nat.leb] in H.
  cbn [rmatch] in H.
  destruct (rest st) as [|x t] eqn:E; [discriminate|].
  destruct (p x) eqn:Hp; [|discriminate].
  cbn [Nat.eqb andb Nat.pred option_map] in H.
  apply (rep_loop_spec (fun u => p u = true) 0
           (chars_in (fun u => p u = true) (Chr p))
           (group_chars_in (fun u => p u = true) 0 (Chr p))
           (rmatch (Chr p))) in H.
  - destruct H as (pre & st' & c' & Hr & Hk & HQ & _). cbn [rest] in Hr.
    exists x, pre, st', c'. rewrite Hr.
    split; [reflexivity|]. split; [exact Hp|]. split; [|exact Hk].
    apply HQ. intros u Hu. exact Hu.
  - apply (rmatch_spec (fun u => p u = true) 0 (Chr p)).
Qed.

Lemma search_from_here (r : regex) (s : jsstring) :
  forall idx pv m,
    search_from r idx pv s = Some m ->
    exists before pv' s' st' c',
      s = before ++ s' /\ length before = (m_index m - idx)%nat /\
      (idx <= m_index m)%nat /\
      match_here r (mkpos pv' s') = Some (st', c') /\
      m_full m = consumed (mkpos pv' s') st'.
Proof.
  induction s as [|x t IH]; intros idx pv m H; cbn [search_from] in H.
  - destruct (match_here r (mkpos pv [])) as [[st' c']|] eqn:E; [|discriminate].
    injection H as <-. exists [], pv, [], st', c'. cbn [m_index m_full].
    rewrite Nat.sub_diag. repeat split; auto.
  - destruct (match_here r (mkpos pv (x :: t))) as [[st' c']|] eqn:E.
    + injection H as <-. exists [], pv, (x :: t), st', c'. cbn [m_index m_full].
      rewrite Nat.sub_diag. repeat split; auto.
    + destruct (IH _ _ _ H) as (before & pv' & s' & st' & c' & Hs & Hl & Hi & Hm & Hf).
      exists (x :: before), pv', s', st', c'. rewrite Hs. cbn [length app].
      repeat split; auto; lia.
Qed.

(** The html test of [extractEmailText] succeeds only on a body that
    holds a tag-like run. *)
Lemma isHtml_tag_shaped (body : jsstring) :
  test (seq [str "<"; plus (Chr (cneg (is_char ">"))); str ">"]) body = true ->
  tag_shaped body.
Proof.
  unfold test, exec.
  destruct (search_from _ 0 None body) as [m|] eqn:E; [|discriminate].
  intros _. apply search_from_here in E.
  destruct E as (before & pv' & s' & st' & c' & Hs & _ & _ & Hm & _).
  unfold match_here in Hm.
  change (seq [str "<"; plus (Chr (cneg (is_char ">"))); str ">"])
    with (Seq (Chr (N.eqb 60))
            (Seq (plus (Chr (cneg (is_char ">")))) (Chr (N.eqb 62)))) in Hm.
  cbn [rmatch rest] in Hm.
  destruct s' as [|x t]; [discriminate|].
  destruct (N.eqb_spec 60 x) as [<-|]; [|discriminate].
  fold (rmatch (plus (Chr (cneg (is_char ">"))))) in Hm.
  change (rep_loop _ _ _ _ _ _ _ _ _)
    with (rmatch (plus (Chr (cneg (is_char ">")))) (mkpos (Some 60%N) t) no_caps
            (fun st1 c1 => rmatch (Chr (N.eqb 62)) st1 c1
                             (fun st2 c2 => Some (st2, c2)))) in Hm.
  apply rmatch_plus_class in Hm.
  destruct Hm as (y & pre & st1 & c1 & Hr & Hy & Hpre & Hk).
  cbn [rmatch rest] in Hk, Hr.
  destruct (rest st1) as [|z after]; [discriminate|].
  destruct (N.eqb_spec 62 z) as [<-|]; [|discriminate].
  exists before, (y :: pre), after. split; [|split].
  - rewrite Hs, Hr. reflexivity.
  - discriminate.
  - assert (Hall : Forall (fun u => cneg (is_char ">") u = true) (y :: pre))
      by (constructor; assumption).
    eapply Forall_impl; [exact Hall|]. intros u Hu ->. discriminate Hu.
Qed.

(** X15: the html converter is consulted only for a body in which "<" is
    followed by one or more units other than ">" and then by ">"; every
    other body is cleaned as it is, whatever the converter would do. *)
Theorem html_converter_only_for_tags (env : Env) (body : jsstring) :
  extractEmailText env body = cleanText body \/
  (tag_shaped body /\
   extractEmailText env body = cleanText (env_htmlToText env body)).
Proof.
  unfold extractEmailText. cbv zeta.
  destruct (test _ body) eqn:E.
  - right. split; [apply isHtml_tag_shaped; exact E|reflexivity].
  - left. reflexivity.
Qed.

Lemma trim_start_head (s : jsstring) (c : N) (t : jsstring) :
  trim_start s = c :: t -> is_space c = false.
Proof.
  induction s as [|x s IH]; cbn [trim_start]; [discriminate|].
  destruct (is_space x) eqn:E; [exact IH|]. intros [= <- _]. exact E.
Qed.

Lemma trim_start_suffix (s : jsstring) : exists pre, s = pre ++ trim_start s.
Proof.
  induction s as [|x s [pre IH]]; cbn [trim_start]; [exists []; reflexivity|].
  destruct (is_space x).
  - exists (x :: pre). cbn. f_equal. exact IH.
  - exists []. reflexivity.
Qed.

Lemma trim_trimmed (s : jsstring) : trimmed (trim s).
Proof.
  unfold trim. set (u := trim_start s).
  destruct (trim_start_suffix (rev u)) as [pre Hpre].
  set (v := trim_start (rev u)) in *. split.
  - intros c t Hv.
    assert (Hv' : v = rev t ++ [c]).
    { rewrite <- (rev_involutive v), Hv. reflexivity. }
    rewrite Hv', app_assoc in Hpre.
    apply (f_equal (@rev N)) in Hpre.
    rewrite rev_involutive, rev_app_distr in Hpre. cbn [rev app] in Hpre.
    eapply trim_start_head. exact Hpre.
  - intros c Hlast. destruct v as [|x v'] eqn:Hv; [discriminate|].
    cbn [rev] in Hlast. rewrite last_snoc in Hlast. injection Hlast as ->.
    eapply trim_start_head. exact Hv.
Qed.

Lemma trim_Forall (P : N -> Prop) (s : jsstring) : Forall P s -> Forall P (trim s).
Proof.
  intros H. unfold trim. apply Forall_rev, trim_start_Forall, Forall_rev,
    trim_start_Forall. exact H.
Qed.

Lemma search_plus_class (p : N -> bool) (s : jsstring) :
  forall idx pv,
    match search_from (plus (Chr p)) idx pv s with
    | None => Forall (fun c => p c = false) s
    | Some m =>
        (idx <= m_index m)%nat /\
        Forall (fun c => p c = false) (take (m_index m - idx) s) /\
        m_full m <> []
    end.
Proof.
  assert (Hfull : forall pv s0 st' c',
            match_here (plus (Chr p)) (mkpos pv s0) = Some (st', c') ->
            consumed (mkpos pv s0) st' <> []).
  { intros pv s0 st' c' H. unfold match_here in H.
    apply rmatch_plus_class in H.
    destruct H as (x & pre & st1 & c1 & Hr & _ & _ & Hk).
    injection Hk as <- <-.
    rewrite (consumed_prefix (mkpos pv s0) st1 (x :: pre)) by exact Hr.
    discriminate. }
  assert (Hhere : forall pv x t,
            match_here (plus (Chr p)) (mkpos pv (x :: t)) = None -> p x = false).
  { intros pv x t H. destruct (p x) eqn:Hp; [|reflexivity]. exfalso.
    revert H. unfold match_here, plus. cbn [rmatch groups_of rest].
    replace (1 + length (x :: t) + 1)%nat with (S (S (length t + 1)))
      by (cbn [length]; lia).
    cbn [rep_loop Nat.ltb Nat.leb rmatch rest]. rewrite Hp.
    cbn [Nat.eqb andb Nat.pred option_map rep_loop Nat.ltb Nat.leb].
    match goal with |- or_else ?a _ = None -> _ => destruct a end;
      discriminate. }
  induction s as [|x t IH]; intros idx pv; cbn [search_from].
  - destruct (match_here _ (mkpos pv [])) as [[st' c']|] eqn:E; [|constructor].
    cbn [m_index m_full]. rewrite Nat.sub_diag.
    split; [lia|]. split; [constructor|]. eapply Hfull. exact E.
  - destruct (match_here _ (mkpos pv (x :: t))) as [[st' c']|] eqn:E.
    + cbn [m_index m_full]. rewrite Nat.sub_diag.
      split; [lia|]. split; [constructor|]. eapply Hfull. exact E.
    + apply Hhere in E. specialize (IH (S idx) (Some x)).
      destruct (search_from _ (S idx) (Some x) t) as [m|].
      * destruct IH as (Hi & Hall & Hne). split; [lia|]. split; [|exact Hne].
        replace (m_index m - idx)%nat with (S (m_index m - S idx)) by lia.
        cbn [take]. constructor; assumption.
      * constructor; assumption.
Qed.

(** Replacing every run of a class leaves units of the class only where
    the replacement puts them. *)
Lemma replace_loop_plus_class (p : N -> bool) (Q : N -> Prop) (by_ : jsstring) :
  (forall c, p c = false -> Q c) -> Forall Q by_ ->
  forall fuel pv s,
    (length s < fuel)%nat ->
    Forall Q (replace_loop (plus (Chr p)) by_ fuel pv s).
Proof.
  intros HQ Hby. induction fuel as [|fuel IH]; intros pv s Hlt; [lia|].
  cbn [replace_loop].
  pose proof (search_plus_class p s 0 pv) as Hsearch.
  pose proof (search_from_bounds (plus (Chr p)) s 0 pv) as Hbounds.
  destruct (search_from (plus (Chr p)) 0 pv s) as [m|].
  - destruct Hsearch as (_ & Hall & Hne).
    destruct (Hbounds m eq_refl) as [_ Hb].
    rewrite Nat.sub_0_r in Hall, Hb.
    destruct (m_full m) as [|y ys] eqn:Hf; [contradiction|].
    apply Forall_app. split; [eapply Forall_impl; [exact Hall|exact HQ]|].
    apply Forall_app. split; [exact Hby|].
    apply IH. rewrite length_drop. cbn [length] in *. lia.
  - eapply Forall_impl; [exact Hsearch|exact HQ].
Qed.

Lemma cleanText_no_tab (text : jsstring) : no_tab (cleanText text).
Proof.
  unfold cleanText, no_tab. apply trim_Forall. unfold replace_all.
  apply replace_loop_plus_class.
  - intros c Hc ->. discriminate Hc.
  - repeat constructor. discriminate.
  - lia.
Qed.

(** X16: the text handed to the parsers is normalized: [cleanText], and
    so [extractEmailText] whatever the converter returns, gives a text
    with no white space at either end and no tab anywhere. *)
Theorem cleaned_text_normal_form (env : Env) (text : jsstring) :
  trimmed (cleanText text) /\ no_tab (cleanText text) /\
  trimmed (extractEmailText env text) /\ no_tab (extractEmailText env text).
Proof.
  split; [apply trim_trimmed|]. split; [apply cleanText_no_tab|].
  unfold extractEmailText. cbv zeta.
  destruct (test _ text); (split; [apply trim_trimmed|apply cleanText_no_tab]).
Qed.

(** ** Bank senders *)

Lemma detect_loop_found (email : jsstring) (entries : list (Bank * list jsstring))
    (bank : Bank) (senders : list jsstring) (s : jsstring) :
  (bank, senders) ∈ entries -> s ∈ senders ->
  includes email (toLowerCase s) = true ->
  exists bank' senders',
    (bank', senders') ∈ entries /\
    existsb (fun s' => includes email (toLowerCase s')) senders' = true /\
    detect_loop email entries = bank'.
Proof.
  induction entries as [|[b ss] entries IH]; intros Hin Hs Hinc.
  - apply elem_of_nil in Hin. contradiction.
  - cbn [detect_loop].
    destruct (existsb (fun s' => includes email (toLowerCase s')) ss) eqn:E.
    + exists b, ss. split; [apply list_elem_of_here|]. split; [exact E|reflexivity].
    + apply elem_of_cons in Hin. destruct Hin as [Heq|Hin].
      * injection Heq as <- <-.
        assert (Hex : existsb (fun s' => includes email (toLowerCase s')) senders
                      = true).
        { apply existsb_exists. exists s. split; [|exact Hinc].
          apply list_elem_of_In. exact Hs. }
        congruence.
      * destruct (IH Hin Hs Hinc) as (b' & ss' & Hin' & Hrest).
        exists b', ss'. split; [apply list_elem_of_further; exact Hin'|exact Hrest].
Qed.

(** X17: a sender text that contains a configured address, in any letter
    case, is never attributed to the unknown bank, and a sender that is
    exactly a configured address, in any letter case, is attributed to the
    bank the address is configured for. *)
Theorem configured_sender_detected (bank : Bank) (senders : list jsstring)
    (s sender : jsstring) :
  (bank, senders) ∈ BANK_SENDERS -> s ∈ senders ->
  (includes (toLowerCase sender) (toLowerCase s) = true ->
   detectBankFromSender sender <> UNKNOWN) /\
  (toLowerCase sender = s -> detectBankFromSender sender = bank).
Proof.
  intros Hbank Hs. split.
  - intros Hinc. unfold detectBankFromSender. cbv zeta.
    destruct (detect_loop_found _ _ _ _ _ Hbank Hs Hinc)
      as (b' & ss' & Hin' & Hex & ->).
    intros ->. unfold BANK_SENDERS in Hin'.
    repeat (apply elem_of_cons in Hin'; destruct Hin' as [Hin'|Hin'];
            [discriminate Hin'|]).
    apply elem_of_cons in Hin'. destruct Hin' as [Hin'|Hin'].
    + injection Hin' as ->. discriminate Hex.
    + apply elem_of_nil in Hin'. contradiction.
  - intros Hlower. unfold detectBankFromSender. cbv zeta. rewrite Hlower.
    unfold BANK_SENDERS in Hbank.
    repeat (apply elem_of_cons in Hbank; destruct Hbank as [Hbank|Hbank];
            [injection Hbank as -> ->;
             repeat (apply elem_of_cons in Hs; destruct Hs as [->|Hs];
                     [vm_compute; reflexivity|]);
             apply elem_of_nil in Hs; contradiction|]).
    apply elem_of_nil in Hbank. contradiction.
Qed.

Lemma configured_sender_detected_witness :
  detectBankFromSender (lit "ALERTS@SouthIndianBank.com") <> UNKNOWN /\
  detectBankFromSender (lit "ALERTS@SouthIndianBank.com") = SIB.
Proof.
  destruct (configured_sender_detected SIB
              [lit "alerts@sib.co.in"; lit "noreply@sib.co.in";
               lit "alerts@southindianbank.com"]
              (lit "alerts@southindianbank.com")
              (lit "ALERTS@SouthIndianBank.com")) as [Hknown Hbank].
  - unfold BANK_SENDERS. apply list_elem_of_further, list_elem_of_here.
  - apply (bool_decide_unpack _). vm_compute. reflexivity.
  - split; [apply Hknown|apply Hbank]; vm_compute; reflexivity.
Defined.

(** ** The stored credential *)

Lemma starts_with_app (p s : jsstring) : starts_with p (p ++ s) = true.
Proof.
  induction p as [|a p IH]; [destruct s; reflexivity|].
  cbn [app starts_with]. rewrite N.eqb_refl. exact IH.
Qed.

Lemma masked_key_kept (stored : option jsstring) :
  key_update (field_of (masked_key stored)) = KeepKey.
Proof.
  unfold masked_key. destruct stored as [key|]; [|reflexivity].
  destruct (str_truthy key); [|reflexivity].
  cbn [field_of key_update].
  change (bullets 8) with (bullets 4 ++ bullets 4). rewrite <- app_assoc.
  rewrite starts_with_app, andb_false_r. reflexivity.
Qed.

(** X18: sending back to [PUT] the key that [GET] showed, masked or
    null, leaves the stored key of an existing row as it is; and no
    request removes or blanks a stored key: a row that holds a non-empty
    key holds one after every [PUT], and a key [PUT] stores never begins
    with four bullets. *)
Theorem stored_key_survives_PUT (stored : option jsstring) (field : JsonField) :
  key_after_PUT (Some stored) (field_of (masked_key stored)) = Some stored /\
  (key_present stored = true ->
   exists key, key_after_PUT (Some stored) field = Some (Some key) /\
               key_present (Some key) = true) /\
  (forall key, key_after_PUT (Some stored) field = Some (Some key) ->
     Some key = stored \/ starts_with (bullets 4) key = false).
Proof.
  split; [|split].
  - unfold key_after_PUT. rewrite masked_key_kept. reflexivity.
  - intros Hkey. unfold key_after_PUT, key_update.
    destruct field as [| |s|[|]];
      try (destruct stored as [k|]; [exists k; split; [reflexivity|exact Hkey]
                                    |discriminate Hkey]).
    destruct (str_truthy s) eqn:Hs; cbn [andb].
    + destruct (starts_with (bullets 4) s); cbn [negb].
      * destruct stored as [k|]; [exists k; split; [reflexivity|exact Hkey]
                                 |discriminate Hkey].
      * exists s. split; [reflexivity|exact Hs].
    + destruct stored as [k|]; [exists k; split; [reflexivity|exact Hkey]
                               |discriminate Hkey].
  - intros key. unfold key_after_PUT, key_update.
    destruct field as [| |s|[|]]; try (intros [= <-]; left; reflexivity).
    destruct (str_truthy s); cbn [andb]; [|intros [= <-]; left; reflexivity].
    destruct (starts_with (bullets 4) s) eqn:Hb; cbn [negb].
    + intros [= <-]. left. reflexivity.
    + intros [= <-]. right. exact Hb.
Qed.

(** ** The requests of the batch parser *)

Lemma batches_of_sizes {A} (fuel size : nat) (l : list A) :
  (0 < size)%nat -> (length l <= fuel)%nat ->
  Forall (fun b => (1 <= length b <= size)%nat) (batches_of fuel size l) /\
  length (batches_of fuel size l) = ((length l + size - 1) / size)%nat.
Proof.
  intros Hsize. revert l.
  induction fuel as [|fuel IH]; intros l Hlen.
  - destruct l; [|simpl in Hlen; lia]. cbn. split; [constructor|].
    symmetry. apply Nat.div_small. lia.
  - destruct l as [|x l].
    { cbn. split; [constructor|]. symmetry. apply Nat.div_small. lia. }
    cbn [batches_of].
    destruct (IH (drop size (x :: l))) as [Hall Hcount].
    { rewrite length_drop. simpl in *. lia. }
    split.
    + constructor; [|exact Hall]. rewrite length_take. simpl. lia.
    + cbn [length] in *. rewrite Hcount, length_drop. cbn [length].
      destruct (Nat.le_gt_cases (S (length l)) size) as [Hsmall|Hbig].
      * replace (S (length l) - size)%nat with 0%nat by lia.
        rewrite (Nat.div_small (0 + size - 1) size) by lia.
        apply (Nat.div_unique _ _ 1 (length l)); lia.
      * replace (S (length l) + size - 1)%nat
          with ((S (length l) - size + size - 1) + 1 * size)%nat by lia.
        rewrite Nat.div_add by lia. lia.
Qed.

(** X19: with a credential, the requests [batchParseLLMFallback] sends
    to the oracle carry the emails in their order, each once: every
    request holds between 1 and 25 emails, and n emails take the number
    of requests that n / 25 rounds up to. *)
Theorem llm_requests_partition (env : Env)
    (oracle : BatchOracle EmailToParse BatchLLMParseResult)
    (emails : list EmailToParse) (openaiApiKey : option jsstring) :
  key_present openaiApiKey = true ->
  let sent := snd (batchParseLLMFallback env oracle emails openaiApiKey) in
  concat sent = emails /\
  Forall (fun batch => (1 <= length batch <= 25)%nat) sent /\
  length sent = ((length emails + 24) / 25)%nat.
Proof.
  intros Hkey. cbv zeta. unfold batchParseLLMFallback. rewrite Hkey. cbn [negb orb].
  destruct emails as [|email emails]; [cbn; repeat split; constructor|].
  cbn [length Nat.eqb snd].
  destruct (batches_of_sizes (length (email :: emails)) BATCH_SIZE_LLM
              (email :: emails)) as [Hall Hcount];
    [unfold BATCH_SIZE_LLM; lia|lia|].
  split; [apply batches_concat; unfold BATCH_SIZE_LLM; lia|].
  split; [exact Hall|]. unfold batches. rewrite Hcount. unfold BATCH_SIZE_LLM.
  f_equal. cbn [length]. lia.
Qed.

Lemma llm_requests_partition_witness :
  concat (snd (batchParseLLMFallback example_env second_request_throws
                 thirty_emails some_key)) = thirty_emails /\
  Forall (fun batch => (1 <= length batch <= 25)%nat)
    (snd (batchParseLLMFallback example_env second_request_throws
            thirty_emails some_key)) /\
  length (snd (batchParseLLMFallback example_env second_request_throws
                 thirty_emails some_key))
  = ((length thirty_emails + 24) / 25)%nat.
Proof.
  apply (llm_requests_partition example_env second_request_throws thirty_emails
           some_key).
  reflexivity.
Defined.

Lemma sync_parser_counts_witness :
  r_llm (POST example_env counting_world (lit "user-1") None [] twin_emails)
  = 0%nat.
Proof.
  apply (sync_parser_counts example_env counting_world (lit "user-1") None []
           twin_emails).
  reflexivity.
Defined.

Lemma stored_key_survives_PUT_witness :
  exists key,
    key_after_PUT (Some some_key) (JString (bullets 8 ++ lit "abcd"))
    = Some (Some key) /\ key_present (Some key) = true.
Proof.
  apply (stored_key_survives_PUT some_key (JString (bullets 8 ++ lit "abcd"))).
  reflexivity.
Defined.
